(** * SFI-Networks: topology builders and Metropolis-Hastings search

    A shallow embedding of [code/hopfield_models.py] and
    [code/hopfield_mcmc.py], with the wiring cost of [code/wiring_cost.py]
    and the node dynamics of [code/dynamics.py].

    - Python floats are modelled by exact rationals ([Q]); every concrete
      value used below is a dyadic rational or a small integer ratio.
    - Python lists indexed by position are [list]s with stdpp's lookup
      [l !! i] and update [<[i:=x]> l]; an access out of range raises
      [IndexError], which the model writes out explicitly.
    - Exceptions are results [Raise e]; unbounded [while] loops take fuel
      and answer [OutOfFuel] when it runs out.
    - Random draws and the external scoring oracles are taken as section
      variables threading an abstract world state.
    - The dict of dicts [hopfield_sbm] rescales in place is a table of
      row objects in a store, so that rows shared between keys are
      written through as the program writes them. *)

From Stdlib Require Import QArith Qabs Qminmax Ascii String.
From stdpp Require Import base list strings gmap.

Open Scope nat_scope.

(** ** Results of fallible computations *)

Inductive exn : Set :=
| IndexError
| KeyError
| ZeroDivisionError
| TypeError
| NameError.

Inductive res (A : Type) : Type :=
| Ok (a : A)
| Raise (e : exn)
| OutOfFuel.
Arguments Ok {A} a.
Arguments Raise {A} e.
Arguments OutOfFuel {A}.

#[export] Instance res_ret : MRet res := λ A a, Ok a.
#[export] Instance res_bind : MBind res := λ A B k m,
  match m with
  | Ok a => k a
  | Raise e => Raise e
  | OutOfFuel => OutOfFuel
  end.

(** [for x in xs: body], threading a state and stopping at the first
    exception. *)
Fixpoint for_each {A S} (xs : list A) (body : A → S → res S) (s : S) : res S :=
  match xs with
  | [] => Ok s
  | x :: xs' => s' ← body x s; for_each xs' body s'
  end.

(** [for _ in range(n): body]. *)
Fixpoint repeat_n {S} (n : nat) (body : S → res S) (s : S) : res S :=
  match n with
  | O => Ok s
  | S n' => s' ← body s; repeat_n n' body s'
  end.

(** ** Python's [heapq] (CPython [Lib/heapq.py]) *)

Module Heapq.
Section Heapq.
Context {E : Type}.
(** [lt a b] is [a < b], that is [a.__lt__(b)]. *)
Variable lt : E → E → bool.

(** Loop of [_siftdown(heap, startpos, pos)]: follow the path to the
    root, moving parents down until [newitem] fits.  [pos] decreases at
    each turn, so [pos] turns of fuel are enough. *)
Fixpoint _siftdown_loop (fuel : nat) (heap : list E) (startpos pos : nat)
    (newitem : E) : list E :=
  match fuel with
  | O => <[pos := newitem]> heap
  | S fuel' =>
    if bool_decide (startpos < pos) then
      let parentpos := (pos - 1) / 2 in
      match heap !! parentpos with
      | Some parent =>
        if lt newitem parent
        then _siftdown_loop fuel' (<[pos := parent]> heap) startpos parentpos newitem
        else <[pos := newitem]> heap
      | None => <[pos := newitem]> heap
      end
    else <[pos := newitem]> heap
  end.

Definition _siftdown (heap : list E) (startpos pos : nat) : res (list E) :=
  match heap !! pos with
  | Some newitem => Ok (_siftdown_loop pos heap startpos pos newitem)
  | None => Raise IndexError
  end.

(** Loop of [_siftup(heap, pos)]: bubble the smaller child up until a
    leaf is hit; returns the heap and the leaf position.  [pos] grows at
    each turn and stays below [len(heap)]. *)
Fixpoint _siftup_loop (fuel : nat) (heap : list E) (pos : nat) : list E * nat :=
  match fuel with
  | O => (heap, pos)
  | S fuel' =>
    let endpos := length heap in
    let childpos := 2 * pos + 1 in
    if bool_decide (childpos < endpos) then
      let rightpos := childpos + 1 in
      match heap !! childpos with
      | Some lchild =>
        let childpos' :=
          match heap !! rightpos with
          | Some rchild => if negb (lt lchild rchild) then rightpos else childpos
          | None => childpos
          end in
        match heap !! childpos' with
        | Some c => _siftup_loop fuel' (<[pos := c]> heap) childpos'
        | None => (heap, pos)
        end
      | None => (heap, pos)
      end
    else (heap, pos)
  end.

Definition _siftup (heap : list E) (pos : nat) : res (list E) :=
  match heap !! pos with
  | Some newitem =>
    let '(heap1, pos1) := _siftup_loop (length heap) heap pos in
    _siftdown (<[pos1 := newitem]> heap1) pos pos1
  | None => Raise IndexError
  end.

(** [heapify(x)]: [for i in reversed(range(n//2)): _siftup(x, i)]. *)
Definition heapify (x : list E) : res (list E) :=
  for_each (reverse (seq 0 (length x / 2))) (λ i h, _siftup h i) x.

(** [heap.pop()]: the last element and the list without it. *)
Definition list_pop (heap : list E) : res (E * list E) :=
  match last heap with
  | Some lastelt => Ok (lastelt, take (length heap - 1) heap)
  | None => Raise IndexError
  end.

Definition heappop (heap : list E) : res (E * list E) :=
  '(lastelt, heap1) ← list_pop heap;
  match heap1 with
  | returnitem :: _ =>
    heap2 ← _siftup (<[0 := lastelt]> heap1) 0;
    Ok (returnitem, heap2)
  | [] => Ok (lastelt, [])
  end.

(** *** The heap order

    [le x y] says that [y] is not below [x]; a list is a heap from [s] on
    when no child is below its parent, for every parent at [s] or
    after. *)
Definition le (x y : E) : Prop := lt y x = false.

Definition heap_from (s : nat) (heap : list E) : Prop :=
  ∀ c x y, 0 < c → s ≤ (c - 1) / 2 →
    heap !! c = Some y → heap !! ((c - 1) / 2) = Some x → le x y.

Definition is_heap (heap : list E) : Prop := heap_from 0 heap.

(** The positions of the subtree rooted at [s]. *)
Inductive descendant (s : nat) : nat → Prop :=
| descendant_root : descendant s s
| descendant_left p : descendant s p → descendant s (2 * p + 1)
| descendant_right p : descendant s p → descendant s (2 * p + 2).

(** While an item travels through position [p] of the subtree of [s],
    the heap order holds on every edge that does not touch [p], and the
    children of [p] are not below the parent of [p]. *)
Definition hole_ok (s p : nat) (heap : list E) : Prop :=
  p < length heap ∧ descendant s p
  ∧ (∀ c x y, 0 < c → s ≤ (c - 1) / 2 → c ≠ p → (c - 1) / 2 ≠ p →
       heap !! c = Some y → heap !! ((c - 1) / 2) = Some x → le x y)
  ∧ (s < p → ∀ c x y, 0 < c → (c - 1) / 2 = p →
       heap !! c = Some y → heap !! ((p - 1) / 2) = Some x → le x y).

(** The children of [p] are not below [n]. *)
Definition fits_below (n : E) (p : nat) (heap : list E) : Prop :=
  ∀ c y, 0 < c → (c - 1) / 2 = p → heap !! c = Some y → le n y.

End Heapq.
End Heapq.

(** ** Numbers, matrices and dictionaries *)

(** [x < y] on floats. *)
Definition Qltb (x y : Q) : bool := negb (Qle_bool y x).

(** [m[i][j]]. *)
Definition mget {A} (m : list (list A)) (i j : nat) : res A :=
  match m !! i with
  | Some row =>
    match row !! j with
    | Some x => Ok x
    | None => Raise IndexError
    end
  | None => Raise IndexError
  end.

(** [m[i][j] = x]. *)
Definition mset {A} (m : list (list A)) (i j : nat) (x : A) : res (list (list A)) :=
  match m !! i with
  | Some row =>
    if bool_decide (j < length row) then Ok (<[i := <[j := x]> row]> m)
    else Raise IndexError
  | None => Raise IndexError
  end.

(** [d[k]] on a dict. *)
Definition dict_get {K V} `{Countable K} (d : gmap K V) (k : K) : res V :=
  match d !! k with
  | Some v => Ok v
  | None => Raise KeyError
  end.

(** [d.keys()]. *)
Definition keys {K V} `{Countable K} (d : gmap K V) : list K := (map_to_list d).*1.

(** An [n] by [n] matrix filled by [f]. *)
Definition tabulate {A} (n : nat) (f : nat → nat → A) : list (list A) :=
  (λ i, f i <$> seq 0 n) <$> seq 0 n.

(** [m[i][j]] as an option: [None] out of range. *)
Definition entry {A} (m : list (list A)) (i j : nat) : option A := m !! i ≫= (.!! j).

(** An [N] by [N] matrix. *)
Definition square {A} (N : nat) (m : list (list A)) : Prop :=
  length m = N ∧ ∀ i row, m !! i = Some row → length row = N.

(** ** Graphs and Hopfield graphs *)

(** [Graph.Node(val, in_edges)]; in-edges are kept as node indices. *)
Record Node : Set := mkNode { val : Z; in_edges : list nat }.

Record Graph : Set := mkGraph {
  g_nodes : list Node;
  g_adj_matrix : list (list Z)
}.

Record HopfieldGraph : Set := mkHopfieldGraph {
  nodes : list Node;
  adj_matrix : list (list Z);
  weights : list (list Q);
  full_weights : list (list Q);
  stored_states : list (list Z)
}.

(** [Graph([Graph.Node(0, []) for _ in range(N)])]: [N] nodes without
    in-edges, hence an all-zero adjacency matrix. *)
Definition empty_graph (N : nat) : Graph :=
  mkGraph (replicate N (mkNode 0 [])) (tabulate N (λ _ _, 0%Z)).

(** Modelled from the spec: [fully_connected(N)] of [random_graphs] is not
    part of the sources; it is the graph on [N] nodes in which every pair
    of distinct nodes is joined ([adj[i][i] = 0]). *)
Definition fully_connected (N : nat) : Graph :=
  mkGraph ((λ i, mkNode 0 (filter (λ j, j ≠ i) (seq 0 N))) <$> seq 0 N)
          (tabulate N (λ i j, if bool_decide (i = j) then 0%Z else 1%Z)).

(** Modelled from the spec: the constructor [HopfieldGraph(graph, states)]
    is not part of the sources; it wraps the graph with the stored
    patterns, all weights zero until trained. *)
Definition HopfieldGraph_init (graph : Graph) (states : list (list Z)) : HopfieldGraph :=
  let N := length (g_nodes graph) in
  mkHopfieldGraph (g_nodes graph) (g_adj_matrix graph)
    (tabulate N (λ _ _, 0%Q)) (tabulate N (λ _ _, 0%Q)) states.

(** The bipolar value of a stored bit: 0 maps to -1 and 1 to +1. *)
Definition bipolar (b : Z) : Z := (2 * b - 1)%Z.

(** Modelled from the spec: the Hebbian weight of the pair [(i, j)],
    [(1/M) * sum_k bipolar(p_k[i]) * bipolar(p_k[j])], zero on the
    diagonal.  Patterns are sequences of [N] bits; a bit missing from a
    shorter pattern reads as 0. *)
Definition hebbian (states : list (list Z)) (i j : nat) : Q :=
  if bool_decide (i = j) then 0%Q
  else
    inject_Z (foldr Z.add 0%Z
                ((λ p, (bipolar (default 0%Z (p !! i)) * bipolar (default 0%Z (p !! j)))%Z) <$> states))
    / inject_Z (Z.of_nat (length states)).

(** The weight training gives to the entry [(i, j)]: the Hebbian weight
    on an existing edge, zero elsewhere. *)
Definition trained_weight (states : list (list Z)) (adj : list (list Z)) (i j : nat) : Q :=
  match entry adj i j with
  | Some a => if bool_decide (a = 0%Z) then 0%Q else hebbian states i j
  | None => 0%Q
  end.

(** Modelled from the spec: [HopfieldGraph.train()] is not part of the
    sources; it recomputes the weight of every existing edge by the
    Hebbian rule, leaves absent edges at weight zero, and fills
    [full_weights] with the weights of the fully connected network. *)
Definition train (g : HopfieldGraph) : HopfieldGraph :=
  let N := length (nodes g) in
  mkHopfieldGraph (nodes g) (adj_matrix g)
    (tabulate N (trained_weight (stored_states g) (adj_matrix g)))
    (tabulate N (hebbian (stored_states g)))
    (stored_states g).

(** Modelled from the spec: [HopfieldGraph.train_edge(i, j)] is not part of
    the sources; it recomputes the weight of the pair [(i, j)] alone, in
    both directions, to the value [train] would give it. *)
Definition train_edge (i j : nat) (g : HopfieldGraph) : res HopfieldGraph :=
  let w := trained_weight (stored_states g) (adj_matrix g) i j in
  w1 ← mset (weights g) i j w;
  w2 ← mset w1 j i w;
  Ok (mkHopfieldGraph (nodes g) (adj_matrix g) w2 (full_weights g) (stored_states g)).

(** Modelled from the spec: [set_node_attributes()] is not part of the
    sources; it refreshes the per-node view of the adjacency matrix and
    touches neither matrix. *)
Definition set_node_attributes (g : HopfieldGraph) : HopfieldGraph :=
  let N := length (nodes g) in
  mkHopfieldGraph
    (imap (λ i nd, mkNode (val nd)
             (filter (λ j, default 0%Z (entry (adj_matrix g) i j) ≠ 0%Z) (seq 0 N)))
          (nodes g))
    (adj_matrix g) (weights g) (full_weights g) (stored_states g).

(** The pairs [(i, j)] with [j < i < N], in the order of the loops
    [for i in range(N): for j in range(i)]. *)
Definition lower_pairs (N : nat) : list (nat * nat) :=
  i ← seq 0 N; (λ j, (i, j)) <$> seq 0 i.

(** Modelled from the spec: [num_edges()] is not part of the sources; it
    counts each undirected edge once, as the pairs [j < i] with
    [adj[j][i] = 1]. *)
Definition num_edges (g : HopfieldGraph) : nat :=
  length (filter (λ ij : nat * nat, entry (adj_matrix g) ij.2 ij.1 = Some 1%Z)
            (lower_pairs (length (nodes g)))).

(** [len(patterns[0])]. *)
Definition pattern_length (patterns : list (list Z)) : res nat :=
  match patterns with
  | p :: _ => Ok (length p)
  | [] => Raise IndexError
  end.

(** The [Entry] class of both builders: an item and a priority, compared
    on priority alone. *)
Record Entry (A : Type) : Type := mkEntry { item : A; priority : Q }.
Arguments mkEntry {A} item priority.
Arguments item {A} e.
Arguments priority {A} e.

Definition Entry_lt {A} (self other : Entry A) : bool :=
  Qltb (priority self) (priority other).

(** The caller's dict of dicts as the program holds it.  The outer dict
    binds each key to a row object and the rows live in a store, so that
    two keys may be bound to one row, and a write through one of them is
    seen through the other. *)
Record Table : Type := mkTable {
  row_of : gmap string nat;
  row_store : gmap nat (gmap string Q)
}.

(** [edge_probs[s]]: the row bound to [s], with its address.  In the
    program a bound address always has its object; the model answers
    [KeyError] where it has none. *)
Definition table_row (edge_probs : Table) (s : string) : res (nat * gmap string Q) :=
  r ← dict_get (row_of edge_probs) s;
  row ← dict_get (row_store edge_probs) r;
  Ok (r, row).

(** ** [hopfield_models.py]: the topology builders *)

Section Builders.
Context {World : Type}.
(** [random.shuffle(l)] and [np.random.uniform()], drawing from the
    process-wide generators. *)
Variable shuffle : ∀ A : Type, list A → World → list A * World.
Variable uniform : World → Q * World.

(** *** [pruned_hopfield] *)

(** Lines 94-100: every existing edge of the lower triangle, with the
    magnitude of its weight as priority. *)
Definition prune_queue (hop_net : HopfieldGraph) (N : nat) : res (list (Entry (nat * nat))) :=
  for_each (seq 0 N) (λ i pq,
    for_each (seq 0 i) (λ j pq,
      weight ← mget (weights hop_net) i j;
      a ← mget (adj_matrix hop_net) i j;
      if bool_decide (a = 0%Z) then Ok pq
      else Ok (pq ++ [mkEntry (i, j) (Qabs weight)])) pq) [].

(** Lines 106-111: pop the smallest entry and clear its edge. *)
Definition prune_step (st : HopfieldGraph * list (Entry (nat * nat)))
    : res (HopfieldGraph * list (Entry (nat * nat))) :=
  let '(hop_net, pq) := st in
  '(min_edge, pq) ← Heapq.heappop Entry_lt pq;
  let edge := item min_edge in
  w1 ← mset (weights hop_net) edge.1 edge.2 0%Q;
  w2 ← mset w1 edge.2 edge.1 0%Q;
  a1 ← mset (adj_matrix hop_net) edge.1 edge.2 0%Z;
  a2 ← mset a1 edge.2 edge.1 0%Z;
  Ok (mkHopfieldGraph (nodes hop_net) a2 w2 (full_weights hop_net) (stored_states hop_net), pq).

(** The model handed to the pruning loop and its node count (lines
    85-92); [graph.copy()] is the identity on values. *)
Definition prune_base (patterns : list (list Z)) (graph : option HopfieldGraph)
    : res (nat * HopfieldGraph) :=
  match graph with
  | None =>
    N ← pattern_length patterns;
    Ok (N, train (HopfieldGraph_init (fully_connected N) patterns))
  | Some g => Ok (length (nodes g), g)
  end.

(** The loop of lines 105-111, run on the heapified queue. *)
Definition prune_loop (edges : Z) (hop_net : HopfieldGraph) (pq : list (Entry (nat * nat)))
    : res (HopfieldGraph * list (Entry (nat * nat))) :=
  repeat_n (Z.to_nat (Z.of_nat (num_edges hop_net) - edges)) prune_step (hop_net, pq).

Definition pruned_hopfield (patterns : list (list Z)) (edges : Z)
    (graph : option HopfieldGraph) (shuffle_flag : bool) (w : World)
    : res (HopfieldGraph * World) :=
  '(N, hop_net) ← prune_base patterns graph;
  pq ← prune_queue hop_net N;
  let '(pq, w) := if shuffle_flag then shuffle _ pq w else (pq, w) in
  pq ← Heapq.heapify Entry_lt pq;
  '(hop_net, _) ← prune_loop edges hop_net pq;
  Ok (set_node_attributes hop_net, w).

(** *** [hopfield_sbm] *)

(** Modelled from the spec: [bit_list_to_string] and [flip_bits] of
    [bit_string_helpers] are not part of the sources; the first writes
    a bit list as a string of 0 and 1, the second flips every bit of
    such a string. *)
Definition bit_list_to_string (bits : list Z) : string :=
  foldr (λ b s, String (if bool_decide (b = 0%Z) then "0"%char else "1"%char) s) EmptyString bits.

Fixpoint flip_bits (s : string) : string :=
  match s with
  | EmptyString => EmptyString
  | String c s' => String (if Ascii.eqb c "0"%char then "1"%char else "0"%char) (flip_bits s')
  end.

(** [bit_list_to_string([state[i] for state in states])]. *)
Definition node_pattern (states : list (list Z)) (i : nat) : res string :=
  bits ← mapM (λ state : list Z,
                 match state !! i with
                 | Some b => Ok b
                 | None => Raise IndexError
                 end) states;
  Ok (bit_list_to_string bits).

(** Modelled from the spec: [node_groups] of [graph_utilities] is not
    part of the sources; it groups the nodes by firing signature, a
    node joining the group of its flipped signature when that one
    exists already. *)
Definition node_groups (hop_graph : HopfieldGraph) : res (gmap string (list nat)) :=
  for_each (seq 0 (length (nodes hop_graph))) (λ i groups,
    s ← node_pattern (stored_states hop_graph) i;
    match groups !! s with
    | Some members => Ok (<[s := members ++ [i]]> groups)
    | None =>
      match groups !! flip_bits s with
      | Some members => Ok (<[flip_bits s := members ++ [i]]> groups)
      | None => Ok (<[s := [i]]> groups)
      end
    end) ∅.

(** [s if s in d else flip_bits(s)]. *)
Definition oriented {V} (d : gmap string V) (s : string) : string :=
  match d !! s with
  | Some _ => s
  | None => flip_bits s
  end.

(** Lines 137-145: one turn of the loops computing [expected_edges]. *)
Definition expected_step (groups : gmap string (list nat))
    (edge_probs : Table) (str1 str2 : string)
    (st : gset (string * string) * Q) : res (gset (string * string) * Q) :=
  let '(considered_pairs, expected_edges) := st in
  if bool_decide ((str1, str2) ∈ considered_pairs) then Ok st
  else
    let considered_pairs := considered_pairs ∪ {[(str1, str2)]} in
    g1 ← dict_get groups (oriented groups str1);
    g2 ← dict_get groups (oriented groups str2);
    '(_, row) ← table_row edge_probs str1;
    p ← dict_get row str2;
    Ok (considered_pairs,
        (expected_edges + inject_Z (Z.of_nat (length g1 * length g2)) * p)%Q).

(** Lines 133-145. *)
Definition expected_edges (groups : gmap string (list nat))
    (edge_probs : Table) : res Q :=
  '(_, e) ← for_each (keys (row_of edge_probs)) (λ str1 st,
              for_each (keys (row_of edge_probs)) (λ str2 st,
                expected_step groups edge_probs str1 str2 st) st) (∅, 0%Q);
  Ok e.

(** Line 147; dividing by zero raises. *)
Definition adjustment_ratio (num_edges : Z) (expected : Q) : res Q :=
  if Qeq_bool expected 0 then Raise ZeroDivisionError
  else Ok (inject_Z (2 * num_edges) / expected)%Q.

(** Line 151: [edge_probs[str1][str2] = ratio * edge_probs[str1][str2]].
    The write goes to the row object, whatever keys are bound to it. *)
Definition rescale_entry (ratio : Q) (str1 str2 : string)
    (edge_probs : Table) : res Table :=
  '(r, row) ← table_row edge_probs str1;
  p ← dict_get row str2;
  Ok (mkTable (row_of edge_probs)
        (<[r := <[str2 := (ratio * p)%Q]> row]> (row_store edge_probs))).

(** Lines 149-151. *)
Definition rescale (ratio : Q) (edge_probs : Table) : res Table :=
  for_each (keys (row_of edge_probs)) (λ str1 ep,
    for_each (keys (row_of edge_probs)) (λ str2 ep, rescale_entry ratio str1 str2 ep) ep)
    edge_probs.

(** The inner function [adjust_probs]; the table it changes in place is
    returned. *)
Definition adjust_probs (hop_graph : HopfieldGraph)
    (edge_probs : Table) (num_edges : Z) : res Table :=
  groups ← node_groups hop_graph;
  expected ← expected_edges groups edge_probs;
  ratio ← adjustment_ratio num_edges expected;
  rescale ratio edge_probs.

(** Lines 165-172: the pattern of node [i], through the cache. *)
Definition cached_pattern (edge_probs : Table)
    (states : list (list Z)) (i : nat) (patterns_cache : gmap nat string)
    : res (gmap nat string) :=
  match patterns_cache !! i with
  | Some _ => Ok patterns_cache
  | None =>
    i_pattern ← node_pattern states i;
    Ok (<[i := oriented (row_of edge_probs) i_pattern]> patterns_cache)
  end.

(** Lines 163-179: the body of the loop over node pairs. *)
Definition sbm_pair (edge_probs : Table)
    (states : list (list Z)) (i j : nat)
    (st : list (list Z) * gmap nat string * World)
    : res (list (list Z) * gmap nat string * World) :=
  let '(adj, patterns_cache, w) := st in
  patterns_cache ← cached_pattern edge_probs states i patterns_cache;
  patterns_cache ← cached_pattern edge_probs states j patterns_cache;
  pi ← dict_get patterns_cache i;
  '(_, row) ← table_row edge_probs pi;
  pj ← dict_get patterns_cache j;
  prob ← dict_get row pj;
  let '(u, w) := uniform w in
  if Qltb u prob then
    a1 ← mset adj i j 1%Z;
    a2 ← mset a1 j i 1%Z;
    Ok (a2, patterns_cache, w)
  else Ok (adj, patterns_cache, w).

(** The result carries the graph, the caller's table as the call leaves
    it, and the generator state. *)
Definition hopfield_sbm (edge_probs : Table)
    (states : list (list Z)) (num_edges : Z) (w : World)
    : res (HopfieldGraph * Table * World) :=
  N ← pattern_length states;
  let hop_graph := HopfieldGraph_init (empty_graph N) states in
  edge_probs ← adjust_probs hop_graph edge_probs num_edges;
  '(adj, _, w) ← for_each (lower_pairs N) (λ ij st, sbm_pair edge_probs states ij.1 ij.2 st)
                   (adj_matrix hop_graph, ∅, w);
  let hop_graph := mkHopfieldGraph (nodes hop_graph) adj (weights hop_graph)
                     (full_weights hop_graph) (stored_states hop_graph) in
  Ok (train hop_graph, edge_probs, w).

(** *** [hopfield_lattice] *)

(** Lines 203-213. *)
Definition node_neighbors (hop_graph : HopfieldGraph) (k : Z) (i : nat) : res (gset nat) :=
  pq ← for_each (seq 0 (length (nodes hop_graph))) (λ j pq,
         ij_weight ← mget (full_weights hop_graph) i j;
         Ok (pq ++ [mkEntry j (- Qabs ij_weight)%Q])) [];
  pq ← Heapq.heapify Entry_lt pq;
  '(_, neighbors) ← repeat_n (Z.to_nat k) (λ '(pq, neighbors),
                      '(neighbor, pq) ← Heapq.heappop Entry_lt pq;
                      Ok (pq, neighbors ∪ {[item neighbor]})) (pq, ∅);
  Ok neighbors.

(** Lines 215-218. *)
Definition nearest_neighbors (hop_graph : HopfieldGraph) (k : Z) : res (list (gset nat)) :=
  mapM (node_neighbors hop_graph k) (seq 0 (length (nodes hop_graph))).

(** Lines 220-224. *)
Definition make_edge (i j : nat) (hop_graph : HopfieldGraph) : res HopfieldGraph :=
  a1 ← mset (adj_matrix hop_graph) i j 1%Z;
  a2 ← mset a1 j i 1%Z;
  train_edge i j (mkHopfieldGraph (nodes hop_graph) a2 (weights hop_graph)
                    (full_weights hop_graph) (stored_states hop_graph)).

(** Lines 231-237, for given neighbour sets. *)
Definition lattice_edges (N : nat) (neighbors : list (gset nat)) (intersection : bool)
    (hop_graph : HopfieldGraph) : res HopfieldGraph :=
  for_each (seq 0 N) (λ i g,
    ni ← match neighbors !! i with
         | Some ni => Ok ni
         | None => Raise IndexError
         end;
    for_each (elements ni) (λ j g,
      if intersection then
        nj ← match neighbors !! j with
             | Some nj => Ok nj
             | None => Raise IndexError
             end;
        if bool_decide (i ∈ (nj : gset nat)) then make_edge i j g else Ok g
      else make_edge i j g) g) hop_graph.

Definition hopfield_lattice (states : list (list Z)) (k : Z) (intersection : bool)
    : res HopfieldGraph :=
  N ← pattern_length states;
  let hop_graph := train (HopfieldGraph_init (empty_graph N) states) in
  neighbors ← nearest_neighbors hop_graph k;
  hop_graph ← lattice_edges N neighbors intersection hop_graph;
  Ok (set_node_attributes hop_graph).

End Builders.

(** ** [hopfield_mcmc.py]: the Metropolis-Hastings search *)

(** A function body either returns a value or falls through to the
    statement that follows it. *)
Inductive flow (A : Type) : Type :=
| Return (a : A)
| Fallthrough.
Arguments Return {A} a.
Arguments Fallthrough {A}.

Section Optimizer.
Context {World : Type}.
(** Collaborators of the search: random topologies and edges, the
    rewiring move, the retrievability estimate (5 runs), the wiring
    cost, the in-group statistic, and numpy's [exp] and [binomial]. *)
Variable random_edges : nat → option Z → World → Graph * World.
Variable random_edge : HopfieldGraph → World → (nat * nat) * World.
Variable rewire : nat → nat → HopfieldGraph → World → HopfieldGraph * World.
Variable hopfield_performance : HopfieldGraph → World → Q * World.
Variable wiring_cost_energy : HopfieldGraph → Q.
Variable prop_in_group_edges : HopfieldGraph → Q.
Variable np_exp : Q → Q.
Variable np_binomial : Z → Q → World → Z * World.

(** [score(graph, cost_mean = 5000, cost_std = 3000, perf, cost)]. *)
Definition score (alpha : Q) (graph : HopfieldGraph) (perf cost : option Q) (w : World)
    : Q * World :=
  let '(perf, w) := match perf with
                    | None => hopfield_performance graph w
                    | Some perf => (perf, w)
                    end in
  let cost := match cost with
              | None => wiring_cost_energy graph
              | Some cost => cost
              end in
  let cost_norm := (-1 * ((cost - 5000) / 3000))%Q in
  ((alpha * perf + (1 - alpha) * cost_norm)%Q, w).

(** Lines 33-37 of [accept]: both branches of the conditional return. *)
Definition accept_decision (curr prop : Q) : flow bool :=
  if Qltb curr prop then Return true else Return false.

(** Lines 38-39 of [accept]: the Metropolis draw. *)
Definition accept_draw (curr prop beta : Q) (w : World) : res (bool * World) :=
  if Qeq_bool curr 0 then Raise ZeroDivisionError
  else
    let p := np_exp (-1 * beta * (prop / curr))%Q in
    let '(b, w) := np_binomial 1 p w in
    Ok (bool_decide (b = 1%Z), w).

Definition accept (curr prop beta : Q) (w : World) : res (bool * World) :=
  match accept_decision curr prop with
  | Return b => Ok (b, w)
  | Fallthrough => accept_draw curr prop beta w
  end.

(** [len(patterns[0])], with [patterns] possibly left at [None]. *)
Definition patterns_width (patterns : option (list (list Z))) : res (nat * list (list Z)) :=
  match patterns with
  | None => Raise TypeError
  | Some ps => N ← pattern_length ps; Ok (N, ps)
  end.

(** Lines 43-45 and 53-55: a trained model on a random topology. *)
Definition random_model (patterns : option (list (list Z))) (num_edges : option Z)
    (w : World) : res (HopfieldGraph * World) :=
  '(N, ps) ← patterns_width patterns;
  let '(graph, w) := random_edges N num_edges w in
  Ok (train (HopfieldGraph_init graph ps), w).

(** Lines 51-57: [while curr_score < .4]. *)
Fixpoint warm_loop (fuel : nat) (alpha : Q) (patterns : option (list (list Z)))
    (num_edges : option Z) (hop_graph : HopfieldGraph) (curr_score : Q) (w : World)
    : res (HopfieldGraph * Q * World) :=
  if Qltb curr_score (4 # 10) then
    match fuel with
    | O => OutOfFuel
    | S fuel' =>
      '(hop_graph, w) ← random_model patterns num_edges w;
      let '(curr_score, w) := score alpha hop_graph None None w in
      warm_loop fuel' alpha patterns num_edges hop_graph curr_score w
    end
  else Ok (hop_graph, curr_score, w).

(** Lines 42-57: the model and score the search starts from. *)
Definition initial_state (fuel : nat) (alpha : Q) (patterns : option (list (list Z)))
    (num_edges : option Z) (hop_graph : option HopfieldGraph) (w : World)
    : res (HopfieldGraph * Q * World) :=
  '(hop_graph, w) ← match hop_graph with
                    | None => random_model patterns num_edges w
                    | Some g => Ok (g, w)
                    end;
  let '(curr_score, w) := score alpha hop_graph None None w in
  warm_loop fuel alpha patterns num_edges hop_graph curr_score w.

(** The variables of the main loop. *)
Record search : Type := mkSearch {
  s_hop_graph : HopfieldGraph;
  s_curr_score : Q;
  s_best_graph : HopfieldGraph;
  s_best_score : Q;
  s_run_count : Z;
  s_fp_count : Z;
  s_perf_hist : list Q;
  s_cost_hist : list Q;
  s_in_group_hist : list Q;
  s_world : World
}.

(** Lines 67-110: one turn of the main loop ([prop_type] is 0). *)
Definition iteration (moves_per_iter : Z) (beta alpha : Q) (save_intermediate : bool)
    (save_freq : Z) (st : search) : res search :=
  let hop_graph := s_hop_graph st in
  let prop := hop_graph in
  '(prop, w) ← repeat_n (Z.to_nat moves_per_iter) (λ '(prop, w),
                 let '((i, j), w) := random_edge hop_graph w in
                 Ok (rewire i j prop w)) (prop, s_world st);
  let '(prop_score, w) := score alpha prop None None w in
  '(accepted, w) ← accept (s_curr_score st) prop_score beta w;
  let '(hop_graph, fp_count) :=
    if accepted : bool then (prop, 0%Z) else (hop_graph, (s_fp_count st + 1)%Z) in
  let '(curr_perf, w) := hopfield_performance hop_graph w in
  let curr_cost := wiring_cost_energy hop_graph in
  let '(curr_score, w) := score alpha hop_graph (Some curr_perf) (Some curr_cost) w in
  let perf_hist := s_perf_hist st ++ [curr_perf] in
  let cost_hist := s_cost_hist st ++ [curr_cost] in
  let in_group_hist :=
    if bool_decide (s_run_count st `mod` 5 = 0)%Z
    then s_in_group_hist st ++ [prop_in_group_edges hop_graph]
    else s_in_group_hist st in
  let '(best_score, best_graph) :=
    if Qltb (s_best_score st) curr_score then (curr_score, hop_graph)
    else (s_best_score st, s_best_graph st) in
  let run_count := (s_run_count st + 1)%Z in
  let st' := mkSearch hop_graph curr_score best_graph best_score run_count fp_count
               perf_hist cost_hist in_group_hist w in
  if save_intermediate then
    if bool_decide (save_freq = 0%Z) then Raise ZeroDivisionError
    else if bool_decide (run_count `mod` save_freq = 0)%Z then Raise NameError
    else Ok st'
  else Ok st'.

(** Line 65: [while run_count < max_iter]. *)
Fixpoint main_loop (fuel : nat) (max_iter moves_per_iter : Z) (beta alpha : Q)
    (save_intermediate : bool) (save_freq : Z) (st : search) : res search :=
  if bool_decide (s_run_count st < max_iter)%Z then
    match fuel with
    | O => OutOfFuel
    | S fuel' =>
      st' ← iteration moves_per_iter beta alpha save_intermediate save_freq st;
      main_loop fuel' max_iter moves_per_iter beta alpha save_intermediate save_freq st'
    end
  else Ok st.

(** [metropolis_hastings]; [fuel] bounds the warm-start loop, the main
    loop needs [max_iter] turns at most. *)
Definition metropolis_hastings (fuel : nat) (patterns : option (list (list Z)))
    (num_edges : option Z) (max_iter moves_per_iter : Z) (beta : Q)
    (hop_graph : option HopfieldGraph) (alpha : Q) (save_intermediate : bool)
    (save_freq : Z) (w : World)
    : res (HopfieldGraph * (list Q * list Q * list Q) * World) :=
  '(hop_graph, curr_score, w) ← initial_state fuel alpha patterns num_edges hop_graph w;
  st ← main_loop (Z.to_nat max_iter) max_iter moves_per_iter beta alpha
         save_intermediate save_freq
         (mkSearch hop_graph curr_score hop_graph curr_score 0 0 [] [] [] w);
  Ok (s_best_graph st, (s_perf_hist st, s_cost_hist st, s_in_group_hist st), s_world st).

End Optimizer.

(** ** The sampling law of the block model *)

(** The entry [s2] of the row at the address [r], as an option. *)
Definition cell (edge_probs : Table) (r : nat) (s2 : string) : option Q :=
  row_store edge_probs !! r ≫= (.!! s2).

(** [edge_probs[s1][s2]] as an option: [None] when a key is missing. *)
Definition prob (edge_probs : Table) (s1 s2 : string) : option Q :=
  row_of edge_probs !! s1 ≫= λ r, cell edge_probs r s2.

(** The number of outer keys bound to the row at the address [r], and to
    the row of the key [s]. *)
Definition bound_to (edge_probs : Table) (r : nat) : nat :=
  length (filter (λ s, row_of edge_probs !! s = Some r) (keys (row_of edge_probs))).

Definition sharing (edge_probs : Table) (s : string) : nat :=
  match row_of edge_probs !! s with
  | Some r => bound_to edge_probs r
  | None => 0
  end.


(** Every inner key is an outer key, as the docstring describes the
    table. *)
Definition closed (edge_probs : Table) : Prop :=
  ∀ s1 s2, is_Some (prob edge_probs s1 s2) → is_Some (row_of edge_probs !! s2).

(** The probability with which lines 165-179 join the nodes [i] and [j]:
    the table entry of their two (oriented) patterns. *)
Definition pair_probability (edge_probs : Table)
    (states : list (list Z)) (i j : nat) : res Q :=
  i_pattern ← node_pattern states i;
  j_pattern ← node_pattern states j;
  '(_, row) ← table_row edge_probs (oriented (row_of edge_probs) i_pattern);
  dict_get row (oriented (row_of edge_probs) j_pattern).

(** The chance that [np.random.uniform() < p], uniform on [0, 1). *)
Definition bernoulli (p : Q) : Q := Qmin 1 (Qmax 0 p).

(** The expected number of edges the loop of lines 162-179 draws: the
    sum, over the node pairs [j < i], of the chance of joining them. *)
Definition expected_edge_count (edge_probs : Table)
    (states : list (list Z)) : res Q :=
  N ← pattern_length states;
  for_each (lower_pairs N) (λ ij acc,
    p ← pair_probability edge_probs states ij.1 ij.2;
    Ok (acc + bernoulli p)%Q) 0%Q.

(** The patterns found in the cache are those the table is read with. *)
Definition cache_ok (edge_probs : Table) (states : list (list Z))
    (patterns_cache : gmap nat string) : Prop :=
  ∀ k v, patterns_cache !! k = Some v →
         ∃ s, node_pattern states k = Ok s ∧ v = oriented (row_of edge_probs) s.

(** ** Predicates of the claims *)

(** The structural invariant of a weighted graph: the two matrices are
    [N] by [N], the adjacency matrix is symmetric, and an absent edge has
    weight zero. *)
Definition structural_invariant (g : HopfieldGraph) : Prop :=
  square (length (nodes g)) (adj_matrix g)
  ∧ square (length (nodes g)) (weights g)
  ∧ (∀ i j, entry (adj_matrix g) i j = entry (adj_matrix g) j i)
  ∧ (∀ i j, entry (adj_matrix g) i j = Some 0%Z → entry (weights g) i j = Some 0%Q).

(** Every edge of [g1] is an edge of [g2]. *)
Definition edge_subset (g1 g2 : HopfieldGraph) : Prop :=
  ∀ i j, entry (adj_matrix g1) i j = Some 1%Z → entry (adj_matrix g2) i j = Some 1%Z.

(** What the pruning loop asks of the model it starts from: square
    matrices over the node count, and a symmetric adjacency matrix of
    zeros and ones. *)
Definition prunable (g : HopfieldGraph) : Prop :=
  square (length (nodes g)) (adj_matrix g)
  ∧ square (length (nodes g)) (weights g)
  ∧ (∀ i j, entry (adj_matrix g) i j = entry (adj_matrix g) j i)
  ∧ (∀ i j a, entry (adj_matrix g) i j = Some a → a = 0%Z ∨ a = 1%Z).

(** [g'] is [g] without the edge [(i, j)]: adjacency and weight are
    cleared in both directions and nothing else changes. *)
Definition edge_removed (i j : nat) (g g' : HopfieldGraph) : Prop :=
  nodes g' = nodes g ∧ stored_states g' = stored_states g
  ∧ full_weights g' = full_weights g
  ∧ (∀ a b, entry (adj_matrix g') a b
            = if bool_decide ((a = i ∧ b = j) ∨ (a = j ∧ b = i)) then Some 0%Z
              else entry (adj_matrix g) a b)
  ∧ (∀ a b, entry (weights g') a b
            = if bool_decide ((a = i ∧ b = j) ∨ (a = j ∧ b = i)) then Some 0%Q
              else entry (weights g) a b).

(** [g'] is [g] without one of its edges of smallest magnitude. *)
Definition removes_smallest (g g' : HopfieldGraph) : Prop :=
  ∃ i j w, j < i
    ∧ entry (adj_matrix g) i j = Some 1%Z
    ∧ entry (weights g) i j = Some w
    ∧ (∀ i' j' w', j' < i' → entry (adj_matrix g) i' j' = Some 1%Z →
         entry (weights g) i' j' = Some w' → (Qabs w <= Qabs w')%Q)
    ∧ edge_removed i j g g'.

(** [n] such removals in a row. *)
Inductive removal_chain : nat → HopfieldGraph → HopfieldGraph → Prop :=
| removal_chain_nil g : removal_chain 0 g g
| removal_chain_step n g g' g'' :
    removes_smallest g g' → removal_chain n g' g'' → removal_chain (S n) g g''.

(** The entry lines 97-100 add for the pair [ij]. *)
Definition candidate (g : HopfieldGraph) (ij : nat * nat) : list (Entry (nat * nat)) :=
  match entry (adj_matrix g) ij.1 ij.2, entry (weights g) ij.1 ij.2 with
  | Some a, Some w => if bool_decide (a = 0%Z) then [] else [mkEntry ij (Qabs w)]
  | _, _ => []
  end.

(** The queue of the pruning loop holds each edge of the lower triangle
    once, under the magnitude of its weight, and is a heap. *)
Definition queue_ok (g : HopfieldGraph) (pq : list (Entry (nat * nat))) : Prop :=
  Heapq.is_heap Entry_lt pq
  ∧ NoDup (item <$> pq)
  ∧ (∀ e, e ∈ pq →
       (item e).2 < (item e).1
       ∧ entry (adj_matrix g) (item e).1 (item e).2 = Some 1%Z
       ∧ ∃ w, entry (weights g) (item e).1 (item e).2 = Some w ∧ priority e = Qabs w)
  ∧ (∀ i j, j < i → entry (adj_matrix g) i j = Some 1%Z → (i, j) ∈ item <$> pq).

(** ** Concrete collaborators for the examples

    A deterministic world: no randomness, the state is a unit. *)

Module Demo.
(** A topology source that always answers the edgeless graph. *)
Definition random_edges (N : nat) (_ : option Z) (w : unit) : Graph * unit :=
  (empty_graph N, w).
Definition random_edge (_ : HopfieldGraph) (w : unit) : (nat * nat) * unit := ((1, 0), w).
Definition rewire (_ _ : nat) (g : HopfieldGraph) (w : unit) : HopfieldGraph * unit := (g, w).
(** Retrieval is perfect on a graph without edges and fails otherwise. *)
Definition hopfield_performance (g : HopfieldGraph) (w : unit) : Q * unit :=
  (if bool_decide (num_edges g = 0) then 1%Q else 0%Q, w).
Definition wiring_cost_energy (_ : HopfieldGraph) : Q := 5000%Q.
Definition prop_in_group_edges (_ : HopfieldGraph) : Q := 0%Q.
Definition np_exp (_ : Q) : Q := 1%Q.
Definition np_binomial (_ : Z) (_ : Q) (w : unit) : Z * unit := (1%Z, w).
Definition shuffle (A : Type) (l : list A) (w : unit) : list A * unit := (reverse l, w).
Definition uniform (w : unit) : Q * unit := ((1 # 4)%Q, w).

Definition patterns : list (list Z) := [[1; 0; 1; 0]; [0; 1; 0; 1]]%Z.
(** The fully connected model on [patterns] (score 0 here) and the
    edgeless one (score 1/2). *)
Definition dense : HopfieldGraph := train (HopfieldGraph_init (fully_connected 4) patterns).
Definition sparse : HopfieldGraph := train (HopfieldGraph_init (empty_graph 4) patterns).

Definition initial_state := initial_state random_edges hopfield_performance wiring_cost_energy.
Definition metropolis_hastings :=
  metropolis_hastings random_edges random_edge rewire hopfield_performance
    wiring_cost_energy prop_in_group_edges np_exp np_binomial.
(** A table over the two groups of four nodes storing two patterns. *)
Definition states : list (list Z) := [[1; 1; 0; 0]; [1; 0; 1; 0]]%Z.
Definition edge_probs : Table :=
  mkTable {[ "11" := 0; "10" := 1 ]}
          {[ 0 := {[ "11" := (1 # 2)%Q; "10" := (1 # 4)%Q ]};
             1 := {[ "11" := (1 # 4)%Q; "10" := (1 # 2)%Q ]} ]}.


End Demo.

(** ** Predicates of the lattice builder *)

(** The state of the loop of lines 210-212 against the heap [pq0] it
    started from: the picked nodes and the queue split the items of
    [pq0], and no picked entry is above a queued one. *)
Definition picking (pq0 pq : list (Entry nat)) (neighbors : gset nat) : Prop :=
  Heapq.is_heap Entry_lt pq
  ∧ NoDup (item <$> pq)
  ∧ (∀ e, e ∈ pq → e ∈ pq0)
  ∧ (∀ j, j ∈ neighbors → j ∈ item <$> pq0 ∧ j ∉ item <$> pq)
  ∧ (∀ e, e ∈ pq0 → item e ∈ neighbors ∨ e ∈ pq)
  ∧ size neighbors + length pq = length pq0
  ∧ (∀ e e', e ∈ pq0 → item e ∈ neighbors → e' ∈ pq →
             (priority e <= priority e')%Q).

(** [j] is among the neighbours chosen for [i]. *)
Definition chosen (neighbors : list (gset nat)) (i j : nat) : Prop :=
  ∃ ni, neighbors !! i = Some ni ∧ j ∈ ni.

(** ** [wiring_cost.py]: the wiring cost *)

Module WiringCost.

(** [np.count_nonzero(l)]. *)
Definition count_nonzero (l : list Z) : nat := length (filter (λ v, v ≠ 0%Z) l).

(** Lines 40-47: [res[i].append(state[i])] for every stored state, on
    one fresh list per node. *)
Definition node_bit_strings (hopfield_graph : HopfieldGraph) : res (list (list Z)) :=
  for_each (stored_states hopfield_graph) (λ state res,
    for_each (seq 0 (length state)) (λ i res,
      match res !! i, state !! i with
      | Some row, Some b => Ok (<[i := row ++ [b]]> res)
      | _, _ => Raise IndexError
      end) res)
    (replicate (length (nodes hopfield_graph)) []).

Section WiringCost.
Context {World Point : Type}.
(** [flip_porition(bits, p)] of [bit_string_helpers], the call
    [PCA(n_components = 3).fit_transform(rows)] and the distance
    [distance.pdist([p, q])[0]] are collaborators outside the sources. *)
Variable flip_porition : list Z → Q → World → list Z * World.
Variable fit_transform : list (list Z) → res (list Point).
Variable pdist : Point → Point → Q.

(** Lines 49-58; the test is [count_nonzero(s) > len(s) / 2], a true
    division. *)
Fixpoint flip_node_strings (node_strings : list (list Z)) (w : World)
    : list (list Z) * World :=
  match node_strings with
  | [] => ([], w)
  | node_string :: rest =>
    let '(row, w) :=
      if Qltb (inject_Z (Z.of_nat (length node_string)) / 2)
              (inject_Z (Z.of_nat (count_nonzero node_string)))
      then flip_porition node_string 1 w
      else (node_string, w) in
    let '(res, w) := flip_node_strings rest w in
    (row :: res, w)
  end.

(** Lines 16-30: the energy of the layout [coords]. *)
Definition stress_energy (hopfield_graph : HopfieldGraph) (coords : list Point)
    (epsilon : Q) : res Q :=
  for_each (seq 0 (length (nodes hopfield_graph))) (λ i energy,
    for_each (seq 0 i) (λ j energy,
      a ← mget (adj_matrix hopfield_graph) i j;
      if bool_decide (a = 0%Z) then Ok energy
      else
        p_i ← match coords !! i with Some p => Ok p | None => Raise IndexError end;
        p_j ← match coords !! j with Some p => Ok p | None => Raise IndexError end;
        Ok (energy + (pdist p_i p_j + epsilon))%Q) energy) 0%Q.

(** Lines 10-38. *)
Definition wiring_cost_energy (hopfield_graph : HopfieldGraph) (w : World)
    : res (Q * World) :=
  node_strings ← node_bit_strings hopfield_graph;
  let '(flipped_strings, w) := flip_node_strings node_strings w in
  coords ← fit_transform flipped_strings;
  energy ← stress_energy hopfield_graph coords (3 # 10);
  Ok (energy, w).

End WiringCost.

(** Every bit flipped: what [flip_porition(bits, 1)] is taken to do. *)
Definition complement (bits : list Z) : list Z :=
  (λ b, if bool_decide (b = 0%Z) then 1%Z else 0%Z) <$> bits.

End WiringCost.

(** ** [dynamics.py]: node updates and fixed points *)

Module Dynamics.

Section Dynamics.
Context {World : Type}.
Variable np_binomial : Z → Q → World → Z * World.

(** The values [[v.val for v in node.in_edges]], read from the shared
    node objects. *)
Definition in_values (nodes : list Node) (nd : Node) : list Z :=
  (λ j, default 0%Z (val <$> nodes !! j)) <$> in_edges nd.

(** Lines 17-25: the value [majority_rule] assigns to [node.val]. *)
Definition majority_value (nodes : list Node) (nd : Node) (threshold : Q) (random : bool)
    (w : World) : res (Z * World) :=
  let num_yes := WiringCost.count_nonzero (in_values nodes nd) in
  if bool_decide (length (in_edges nd) = 0) then Raise ZeroDivisionError
  else
    let prop_yes := (inject_Z (Z.of_nat num_yes)
                     / inject_Z (Z.of_nat (length (in_edges nd))))%Q in
    if random then Ok (np_binomial 1 prop_yes w)
    else if Qltb threshold prop_yes then Ok (1%Z, w) else Ok (0%Z, w).

(** Lines 14-25.  A node is named by its position in [graph.nodes]; the
    assignment to [node.val] is written to the shared store. *)
Definition majority_rule (node : nat) (threshold : Q) (random : bool)
    (nodes : list Node) (w : World) : res (list Node * World) :=
  match nodes !! node with
  | Some nd =>
    '(v, w) ← majority_value nodes nd threshold random w;
    Ok (<[node := mkNode v (in_edges nd)]> nodes, w)
  | None => Ok (nodes, w)
  end.

(** Lines 27-29. *)
Definition random_majority_rule (node : nat) (threshold : Q) (nodes : list Node) (w : World)
    : res (list Node * World) :=
  majority_rule node threshold true nodes w.

End Dynamics.

(** Lines 53-57. *)
Fixpoint soft_equals (lst1 lst2 : list Q) (tolerance : Q) : bool :=
  match lst1, lst2 with
  | i1 :: lst1, i2 :: lst2 =>
    if Qltb tolerance (Qabs (i1 - i2)) then false else soft_equals lst1 lst2 tolerance
  | _, _ => true
  end.

Section FixedPoint.
Context {Graph World : Type}.
(** [graph.state()], and [update(graph, dynamic)] as a change of the
    graph and of the random generator. *)
Variable state : Graph → list Q.
Variable update : Graph → World → res (Graph * World).

(** Lines 60-69, for the rounds that are left.  The answer is the state
    found, or [None] for [False], with the graph as the rounds left it. *)
Fixpoint fixed_point_loop (rounds : nat) (num_consec_threshold : Z) (tolerance : Q)
    (graph : Graph) (past : list Q) (num_consec : Z) (w : World)
    : res (option (list Q) * Graph * World) :=
  match rounds with
  | 0 => Ok (None, graph, w)
  | S rounds =>
    '(graph, w) ← update graph w;
    let num_consec :=
      if soft_equals (state graph) past tolerance then (num_consec + 1)%Z else 0%Z in
    let past := state graph in
    if bool_decide (num_consec_threshold ≤ num_consec)%Z then Ok (Some past, graph, w)
    else fixed_point_loop rounds num_consec_threshold tolerance graph past num_consec w
  end.

(** Lines 46-69. *)
Definition fixed_point (graph : Graph) (max_iter num_consec_threshold : Z) (tolerance : Q)
    (w : World) : res (option (list Q) * Graph * World) :=
  fixed_point_loop (Z.to_nat max_iter) num_consec_threshold tolerance graph (state graph) 0 w.

(** [n] rounds of [update] lead from the first graph to the second. *)
Inductive rounds : nat → Graph * World → Graph * World → Prop :=
| rounds_nil gw : rounds 0 gw gw
| rounds_step n g w g1 w1 gw' :
    update g w = Ok (g1, w1) → rounds n (g1, w1) gw' → rounds (S n) (g, w) gw'.

(** [n] rounds in a row, none of which moves the state by more than
    the tolerance. *)
Inductive quiet (tolerance : Q) : nat → Graph * World → Graph * World → Prop :=
| quiet_nil gw : quiet tolerance 0 gw gw
| quiet_step n g w g1 w1 gw' :
    update g w = Ok (g1, w1) →
    soft_equals (state g1) (state g) tolerance = true →
    quiet tolerance n (g1, w1) gw' → quiet tolerance (S n) (g, w) gw'.

End FixedPoint.

End Dynamics.

(** ** Concrete collaborators for the wiring cost and the dynamics *)

Module DemoCost.

(** A full flip for [p = 1], nothing otherwise. *)
Definition flip_porition (bits : list Z) (p : Q) (w : unit) : list Z * unit :=
  (if Qeq_bool p 1 then WiringCost.complement bits else bits, w).

(** The rows themselves as points, at the number of differing
    positions from each other. *)
Definition fit_transform (rows : list (list Z)) : res (list (list Z)) := Ok rows.

Definition pdist (p q : list Z) : Q :=
  inject_Z (Z.of_nat (length (filter (λ ab : Z * Z, ab.1 ≠ ab.2) (zip p q)))).

Definition wiring_cost_energy :=
  WiringCost.wiring_cost_energy flip_porition fit_transform pdist.

(** A graph of switches: the state is the list of values, and a round
    sets every value to the first one. *)
Definition state (g : list Q) : list Q := g.

Definition update (g : list Q) (w : unit) : res (list Q * unit) :=
  Ok ((λ _, default 0%Q (head g)) <$> g, w).

End DemoCost.

(** * Properties *)

Lemma Qltb_lt (x y : Q) : Qltb x y = true ↔ (x < y)%Q.
Proof.
  unfold Qltb. rewrite negb_true_iff, <- not_true_iff_false, Qle_bool_iff.
  split; [apply Qnot_le_lt | apply Qlt_not_le].
Qed.

Lemma Qltb_ge (x y : Q) : Qltb x y = false ↔ (y <= x)%Q.
Proof. unfold Qltb. rewrite negb_false_iff. apply Qle_bool_iff. Qed.

(** ** The optimizer *)

Section OptimizerFacts.
Context {World : Type}.
Variable random_edges : nat → option Z → World → Graph * World.
Variable random_edge : HopfieldGraph → World → (nat * nat) * World.
Variable rewire : nat → nat → HopfieldGraph → World → HopfieldGraph * World.
Variable hopfield_performance : HopfieldGraph → World → Q * World.
Variable wiring_cost_energy : HopfieldGraph → Q.
Variable prop_in_group_edges : HopfieldGraph → Q.
Variable np_exp : Q → Q.
Variable np_binomial : Z → Q → World → Z * World.

Local Abbreviation score_of := (score hopfield_performance wiring_cost_energy).
Local Abbreviation accept_of := (accept np_exp np_binomial).
Local Abbreviation initial_of :=
  (initial_state random_edges hopfield_performance wiring_cost_energy).
Local Abbreviation warm_of :=
  (warm_loop random_edges hopfield_performance wiring_cost_energy).
Local Abbreviation model_of := (random_model random_edges).
Local Abbreviation search_of :=
  (metropolis_hastings random_edges random_edge rewire hopfield_performance
     wiring_cost_energy prop_in_group_edges np_exp np_binomial).

(** C1. [accept(curr, prop)] answers [True] exactly when [prop > curr],
    whatever [beta] is and without touching the random generator: the
    conditional of lines 33-37 returns on both branches, so control
    never falls through to the Metropolis draw of lines 38-39. *)
Theorem accept_greedy (curr prop beta : Q) (w : World) :
  accept_of curr prop beta w = Ok (Qltb curr prop, w)
  ∧ (Qltb curr prop = true ↔ (curr < prop)%Q)
  ∧ accept_decision curr prop ≠ Fallthrough.
Proof.
  split_and!.
  - unfold accept, accept_decision. by destruct (Qltb curr prop).
  - apply Qltb_lt.
  - unfold accept_decision. by destruct (Qltb curr prop).
Qed.

Lemma warm_loop_done fuel alpha patterns num_edges g s w :
  Qltb s (4 # 10) = false →
  warm_of fuel alpha patterns num_edges g s w = Ok (g, s, w).
Proof. intros Hs. destruct fuel; simpl; by rewrite Hs. Qed.

(** C2 (amended). A first random-topology model is built only when no
    starting model is given; the rejection loop then runs in both cases.
    A supplied model is the initial current model when its first score
    is not below 0.4; when it is below, the model is dropped and random
    models are built and trained in its place. *)
Theorem warm_start_supplied alpha patterns num_edges (g : HopfieldGraph) (w : World) s w1 :
  score_of alpha g None None w = (s, w1) →
  (∀ fuel, ¬ (s < 4 # 10)%Q →
     initial_of fuel alpha patterns num_edges (Some g) w = Ok (g, s, w1))
  ∧ (∀ fuel, (s < 4 # 10)%Q →
     initial_of (S fuel) alpha patterns num_edges (Some g) w
     = '(g', w2) ← model_of patterns num_edges w1;
       let '(s', w3) := score_of alpha g' None None w2 in
       warm_of fuel alpha patterns num_edges g' s' w3)
  ∧ (∀ fuel,
     initial_of fuel alpha patterns num_edges None w
     = '(g', w2) ← model_of patterns num_edges w;
       initial_of fuel alpha patterns num_edges (Some g') w2).
Proof.
  intros Hs. split_and!.
  - intros fuel Hge. unfold initial_state. simpl. rewrite Hs.
    apply warm_loop_done. apply not_true_iff_false. by rewrite Qltb_lt.
  - intros fuel Hlt. unfold initial_state. simpl. rewrite Hs.
    simpl. apply Qltb_lt in Hlt. by rewrite Hlt.
  - intros fuel. unfold initial_state.
    destruct (model_of patterns num_edges w) as [[g' w2]| |]; done.
Qed.

(** C9. With [max_iter = 0] the main loop runs no turn: the search
    returns the model the warm start ends on as the best model, the three
    histories empty, and the generator as the warm start left it. *)
Theorem zero_iterations fuel patterns num_edges moves beta hop_graph alpha save freq
    (w : World) g s w' :
  initial_of fuel alpha patterns num_edges hop_graph w = Ok (g, s, w') →
  search_of fuel patterns num_edges 0 moves beta hop_graph alpha save freq w
  = Ok (g, ([], [], []), w').
Proof.
  intros Hinit. unfold metropolis_hastings. rewrite Hinit. simpl.
  reflexivity.
Qed.

End OptimizerFacts.

Lemma warm_start_supplied_witness :
  Demo.initial_state 0 (1 # 2) (Some Demo.patterns) (Some 0%Z) (Some Demo.sparse) ()
  = Ok (Demo.sparse, (1 # 2) * 1 + (1 - (1 # 2)) * (-1 * ((5000 - 5000) / 3000)), ())%Q.
Proof.
  refine (proj1 (warm_start_supplied Demo.random_edges Demo.hopfield_performance
                   Demo.wiring_cost_energy (1 # 2) (Some Demo.patterns) (Some 0%Z)
                   Demo.sparse () _ () _) 0 _).
  - reflexivity.
  - vm_compute. discriminate.
Defined.

(** C2, as stated, fails: a supplied model whose first score is below 0.4
    is not the model the search starts from. *)
Lemma warm_start_replaces_supplied :
  ∃ g s, Demo.initial_state 1 (1 # 2) (Some Demo.patterns) (Some 0%Z) (Some Demo.dense) ()
         = Ok (g, s, ())
         ∧ g = Demo.sparse ∧ g ≠ Demo.dense.
Proof.
  eexists _, _. split_and!.
  - vm_compute. reflexivity.
  - vm_compute. reflexivity.
  - vm_compute. discriminate.
Qed.

Lemma zero_iterations_witness :
  Demo.metropolis_hastings 0 (Some Demo.patterns) (Some 0%Z) 0 1 (3 # 10)
    (Some Demo.sparse) (1 # 2) false 10000 ()
  = Ok (Demo.sparse, ([], [], []), ()).
Proof.
  eapply (zero_iterations Demo.random_edges Demo.random_edge Demo.rewire
            Demo.hopfield_performance Demo.wiring_cost_energy Demo.prop_in_group_edges
            Demo.np_exp Demo.np_binomial).
  vm_compute. reflexivity.
Defined.

(** ** Loops and matrices *)

Lemma for_each_app {A S} (xs ys : list A) (body : A → S → res S) (s : S) :
  for_each (xs ++ ys) body s = s' ← for_each xs body s; for_each ys body s'.
Proof.
  revert s. induction xs as [|x xs IH]; intros s; simpl; [done|].
  destruct (body x s); simpl; auto.
Qed.

(** Two runs of a loop over the same items keep a relation that each pair
    of turns keeps. *)
Lemma for_each_rel {A S} (R : S → S → Prop) (xs : list A) (body1 body2 : A → S → res S) :
  (∀ x s1 s2 s1' s2', x ∈ xs → R s1 s2 →
     body1 x s1 = Ok s1' → body2 x s2 = Ok s2' → R s1' s2') →
  ∀ s1 s2 s1' s2', R s1 s2 →
    for_each xs body1 s1 = Ok s1' → for_each xs body2 s2 = Ok s2' → R s1' s2'.
Proof.
  induction xs as [|x xs IH]; intros Hstep s1 s2 s1' s2' HR H1 H2; simpl in *.
  - by simplify_eq.
  - destruct (body1 x s1) as [t1| |] eqn:E1; simpl in H1; try done.
    destruct (body2 x s2) as [t2| |] eqn:E2; simpl in H2; try done.
    eapply (IH (λ y u1 u2 u1' u2' Hy, Hstep y u1 u2 u1' u2' (list_elem_of_further _ _ _ Hy)));
      [|exact H1|exact H2].
    eapply Hstep; eauto. by left.
Qed.

(** A loop keeps what each of its turns keeps. *)
Lemma for_each_inv {A S} (P : S → Prop) (xs : list A) (body : A → S → res S) :
  (∀ x s s', x ∈ xs → P s → body x s = Ok s' → P s') →
  ∀ s s', P s → for_each xs body s = Ok s' → P s'.
Proof.
  induction xs as [|x xs IH]; intros Hstep s s' HP H; simpl in *.
  - by simplify_eq.
  - destruct (body x s) as [t| |] eqn:E; simpl in H; try done.
    eapply IH; [| |exact H].
    + intros y u u' Hy. apply Hstep. by right.
    + eapply Hstep; eauto. by left.
Qed.

Lemma mget_entry {A} (m : list (list A)) i j x : mget m i j = Ok x ↔ entry m i j = Some x.
Proof.
  unfold mget, entry. destruct (m !! i) as [row|]; simpl; [|done].
  destruct (row !! j); naive_solver.
Qed.

Lemma mset_entry {A} (m m' : list (list A)) i j x :
  mset m i j x = Ok m' →
  ∀ a b, entry m' a b = if bool_decide (a = i ∧ b = j) then Some x else entry m a b.
Proof.
  unfold mset, entry. intros H a b.
  destruct (m !! i) as [row|] eqn:Ei; [|done].
  case_bool_decide as Hj; [|done]. simplify_eq.
  pose proof (lookup_lt_Some _ _ _ Ei) as Hi.
  destruct (decide (a = i)) as [->|Hai].
  - rewrite list_lookup_insert_eq by done. simpl.
    destruct (decide (b = j)) as [->|Hbj].
    + rewrite bool_decide_eq_true_2 by done. by rewrite list_lookup_insert_eq.
    + rewrite bool_decide_eq_false_2 by naive_solver.
      rewrite list_lookup_insert_ne by done. by rewrite Ei.
  - rewrite bool_decide_eq_false_2 by naive_solver.
    by rewrite list_lookup_insert_ne.
Qed.

Lemma mset_square {A} N (m m' : list (list A)) i j x :
  mset m i j x = Ok m' → square N m → square N m'.
Proof.
  unfold mset. intros H [Hlen Hrows].
  destruct (m !! i) as [row|] eqn:Ei; [|done].
  case_bool_decide; [|done]. simplify_eq. split.
  - by rewrite length_insert.
  - intros a r Ha. destruct (decide (a = i)) as [->|Hne].
    + rewrite list_lookup_insert_eq in Ha by (by eapply lookup_lt_Some).
      simplify_eq. rewrite length_insert. eauto.
    + rewrite list_lookup_insert_ne in Ha by done. eauto.
Qed.

Lemma mset_is_Ok {A} (m : list (list A)) i j x :
  is_Some (entry m i j) → ∃ m', mset m i j x = Ok m'.
Proof.
  unfold mset, entry. intros [y Hy].
  destruct (m !! i) as [row|]; simpl in *; [|done].
  rewrite bool_decide_eq_true_2 by (by eapply lookup_lt_Some). eauto.
Qed.

Lemma square_entry {A} N (m : list (list A)) i j :
  square N m → i < N → j < N → is_Some (entry m i j).
Proof.
  intros [Hlen Hrows] Hi Hj. unfold entry.
  destruct (lookup_lt_is_Some_2 m i) as [row Hrow]; [lia|].
  rewrite Hrow. simpl. apply lookup_lt_is_Some_2. by rewrite (Hrows _ _ Hrow).
Qed.

Lemma square_entry_lt {A} N (m : list (list A)) i j x :
  square N m → entry m i j = Some x → i < N ∧ j < N.
Proof.
  intros [Hlen Hrows]. unfold entry.
  destruct (m !! i) as [row|] eqn:Hrow; simpl; [|done]. intros Hj.
  apply lookup_lt_Some in Hj. rewrite (Hrows _ _ Hrow) in Hj.
  apply lookup_lt_Some in Hrow. lia.
Qed.

(** The two writes [m[i][j] = x; m[j][i] = x]. *)
Lemma mset_sym_entry {A} (m m1 m2 : list (list A)) i j x :
  mset m i j x = Ok m1 → mset m1 j i x = Ok m2 →
  ∀ a b, entry m2 a b
         = if bool_decide ((a = i ∧ b = j) ∨ (a = j ∧ b = i)) then Some x else entry m a b.
Proof.
  intros H1 H2 a b.
  rewrite (mset_entry _ _ _ _ _ H2), (mset_entry _ _ _ _ _ H1).
  repeat case_bool_decide; naive_solver.
Qed.

Lemma tabulate_entry {A} N (f : nat → nat → A) i j :
  entry (tabulate N f) i j = if bool_decide (i < N ∧ j < N) then Some (f i j) else None.
Proof.
  unfold entry, tabulate. rewrite list_lookup_fmap.
  destruct (decide (i < N)) as [Hi|Hi].
  - rewrite lookup_seq_lt by done. simpl. rewrite list_lookup_fmap.
    destruct (decide (j < N)) as [Hj|Hj].
    + rewrite lookup_seq_lt by done. by rewrite bool_decide_eq_true_2.
    + rewrite lookup_seq_ge by lia. by rewrite bool_decide_eq_false_2 by lia.
  - rewrite lookup_seq_ge by lia. by rewrite bool_decide_eq_false_2 by lia.
Qed.

Lemma tabulate_square {A} N (f : nat → nat → A) : square N (tabulate N f).
Proof.
  unfold tabulate. split.
  - by rewrite length_fmap, length_seq.
  - intros i row. rewrite list_lookup_fmap. intros H.
    destruct (seq 0 N !! i); simplify_eq/=. by rewrite length_fmap, length_seq.
Qed.

(** ** The lattice builder *)

Lemma train_edge_spec i j g g' :
  train_edge i j g = Ok g' →
  nodes g' = nodes g ∧ adj_matrix g' = adj_matrix g
  ∧ full_weights g' = full_weights g ∧ stored_states g' = stored_states g
  ∧ (∀ N, square N (weights g) → square N (weights g'))
  ∧ ∀ a b, entry (weights g') a b
           = if bool_decide ((a = i ∧ b = j) ∨ (a = j ∧ b = i))
             then Some (trained_weight (stored_states g) (adj_matrix g) i j)
             else entry (weights g) a b.
Proof.
  unfold train_edge. intros H.
  destruct (mset (weights g) i j _) as [w1| |] eqn:E1; simpl in H; try done.
  destruct (mset w1 j i _) as [w2| |] eqn:E2; simpl in H; try done.
  simplify_eq. simpl. split_and!; try done.
  - intros N HN. eapply mset_square; [exact E2|]. eapply mset_square; [exact E1|done].
  - eapply mset_sym_entry; eauto.
Qed.

Lemma make_edge_spec i j g g' :
  make_edge i j g = Ok g' →
  nodes g' = nodes g
  ∧ full_weights g' = full_weights g ∧ stored_states g' = stored_states g
  ∧ (∀ N, square N (adj_matrix g) → square N (adj_matrix g'))
  ∧ (∀ N, square N (weights g) → square N (weights g'))
  ∧ (∀ a b, entry (adj_matrix g') a b
            = if bool_decide ((a = i ∧ b = j) ∨ (a = j ∧ b = i)) then Some 1%Z
              else entry (adj_matrix g) a b)
  ∧ (∀ a b, ¬ ((a = i ∧ b = j) ∨ (a = j ∧ b = i)) →
            entry (weights g') a b = entry (weights g) a b).
Proof.
  unfold make_edge. intros H.
  destruct (mset (adj_matrix g) i j _) as [a1| |] eqn:E1; simpl in H; try done.
  destruct (mset a1 j i _) as [a2| |] eqn:E2; simpl in H; try done.
  apply train_edge_spec in H as (Hn & Ha & Hf & Hs & Hsq & Hw). simpl in *.
  split_and!; try done.
  - intros N HN. rewrite Ha. eapply mset_square; [exact E2|]. eapply mset_square; eauto.
  - rewrite Ha. eapply mset_sym_entry; eauto.
  - intros a b Hab. rewrite Hw. by rewrite bool_decide_eq_false_2.
Qed.

Lemma make_edge_grows i j g g' : make_edge i j g = Ok g' → edge_subset g g'.
Proof.
  intros (_ & _ & _ & _ & _ & Ha & _)%make_edge_spec a b Hab.
  rewrite Ha. by case_bool_decide.
Qed.

Lemma make_edge_mono i j g1 g2 g1' g2' :
  edge_subset g1 g2 → make_edge i j g1 = Ok g1' → make_edge i j g2 = Ok g2' →
  edge_subset g1' g2'.
Proof.
  intros Hsub (_ & _ & _ & _ & _ & Ha1 & _)%make_edge_spec
         (_ & _ & _ & _ & _ & Ha2 & _)%make_edge_spec a b.
  rewrite Ha1, Ha2. case_bool_decide; [done|]. apply Hsub.
Qed.

Lemma edge_subset_trans g1 g2 g3 : edge_subset g1 g2 → edge_subset g2 g3 → edge_subset g1 g3.
Proof. unfold edge_subset. naive_solver. Qed.

Lemma length_filter_mono {A} (P Q : A → Prop) `{∀ x, Decision (P x)} `{∀ x, Decision (Q x)}
    (l : list A) :
  (∀ x, x ∈ l → P x → Q x) → length (filter P l) ≤ length (filter Q l).
Proof.
  induction l as [|x l IH]; intros HPQ; [done|].
  rewrite !filter_cons.
  assert (length (filter P l) ≤ length (filter Q l)) by (apply IH; intros; apply HPQ; [by right|done]).
  destruct (decide (P x)) as [HP|HP].
  - rewrite decide_True by (apply HPQ; [by left|done]). simpl. lia.
  - destruct (decide (Q x)); simpl; lia.
Qed.

Lemma edge_subset_num_edges g1 g2 :
  length (nodes g1) = length (nodes g2) → edge_subset g1 g2 → num_edges g1 ≤ num_edges g2.
Proof.
  intros Hn Hsub. unfold num_edges. rewrite Hn.
  apply length_filter_mono. intros [i j] _. apply Hsub.
Qed.

Lemma lattice_edges_nodes N neighbors b g g' :
  lattice_edges N neighbors b g = Ok g' → length (nodes g') = length (nodes g).
Proof.
  unfold lattice_edges.
  apply (for_each_inv (λ h, length (nodes h) = length (nodes g))); [|done].
  intros i h h' _ Hh.
  destruct (neighbors !! i) as [ni|]; simpl; [|done].
  apply (for_each_inv (λ h, length (nodes h) = length (nodes g))); [|done].
  intros j u u' _ Hu Hbody.
  assert (∀ v, make_edge i j u = Ok v → length (nodes v) = length (nodes g)) as Hmk.
  { intros v (Hv & _)%make_edge_spec. by rewrite Hv. }
  destruct b; [|by apply Hmk].
  destruct (neighbors !! j) as [nj|]; simpl in Hbody; [|done].
  case_bool_decide; [by apply Hmk|by simplify_eq].
Qed.

Lemma lattice_edges_subset N neighbors g0 g1 g2 :
  lattice_edges N neighbors true g0 = Ok g1 →
  lattice_edges N neighbors false g0 = Ok g2 →
  edge_subset g1 g2.
Proof.
  unfold lattice_edges.
  apply (for_each_rel edge_subset); [|by intros ??].
  intros i s1 s2 s1' s2' _ HR.
  destruct (neighbors !! i) as [ni|]; simpl; [|done].
  apply (for_each_rel edge_subset); [|done].
  clear. intros j s1 s2 s1' s2' _ HR H1 H2.
  destruct (neighbors !! j) as [nj|]; simpl in H1; [|done].
  case_bool_decide.
  - eapply make_edge_mono; eauto.
  - simplify_eq. eapply edge_subset_trans; [exact HR|]. by eapply make_edge_grows.
Qed.

(** C7. For the same inputs and the same per-node neighbour sets, every
    edge of the lattice built with [intersection = True] is an edge of the
    one built with [intersection = False], which therefore has at least as
    many edges; this holds of the edge loop for any neighbour sets and of
    [hopfield_lattice] as a whole. *)
Theorem lattice_mutual_subset :
  (∀ N neighbors g0 g1 g2,
     lattice_edges N neighbors true g0 = Ok g1 →
     lattice_edges N neighbors false g0 = Ok g2 →
     edge_subset g1 g2 ∧ num_edges g1 ≤ num_edges g2)
  ∧ (∀ states k g1 g2,
     hopfield_lattice states k true = Ok g1 →
     hopfield_lattice states k false = Ok g2 →
     edge_subset g1 g2 ∧ num_edges g1 ≤ num_edges g2).
Proof.
  assert (∀ N neighbors g0 g1 g2,
     lattice_edges N neighbors true g0 = Ok g1 →
     lattice_edges N neighbors false g0 = Ok g2 →
     edge_subset g1 g2 ∧ num_edges g1 ≤ num_edges g2) as Hloop.
  { intros N neighbors g0 g1 g2 H1 H2.
    assert (edge_subset g1 g2) by (by eapply lattice_edges_subset).
    split; [done|]. apply edge_subset_num_edges; [|done].
    apply lattice_edges_nodes in H1, H2. congruence. }
  split; [exact Hloop|].
  intros states k g1 g2. unfold hopfield_lattice.
  destruct (pattern_length states) as [N| |]; simpl; try done.
  destruct (nearest_neighbors _ k) as [neighbors| |]; simpl; try done.
  destruct (lattice_edges N neighbors true _) as [h1| |] eqn:E1; simpl; try done.
  destruct (lattice_edges N neighbors false _) as [h2| |] eqn:E2; simpl; try done.
  intros ? ?; simplify_eq.
  destruct (Hloop _ _ _ _ _ E1 E2) as [Hsub Hle]. split; [exact Hsub|].
  unfold num_edges in *. simpl. by rewrite !length_imap.
Qed.

Lemma lattice_mutual_subset_witness :
  ∃ g1 g2,
    hopfield_lattice [[1;1;0;0;1];[1;0;1;0;0];[0;0;1;1;1]]%Z 1 true = Ok g1
    ∧ hopfield_lattice [[1;1;0;0;1];[1;0;1;0;0];[0;0;1;1;1]]%Z 1 false = Ok g2
    ∧ num_edges g1 = 2 ∧ num_edges g2 = 3
    ∧ edge_subset g1 g2 ∧ num_edges g1 ≤ num_edges g2.
Proof.
  eexists _, _. split; [vm_compute; reflexivity|].
  split; [vm_compute; reflexivity|].
  split; [vm_compute; reflexivity|].
  split; [vm_compute; reflexivity|].
  apply (proj2 lattice_mutual_subset [[1;1;0;0;1];[1;0;1;0;0];[0;0;1;1;1]]%Z 1%Z);
    vm_compute; reflexivity.
Defined.

Lemma neg_abs_not_above (d : Q) : Qltb (- Qabs 0) (- Qabs d) = false.
Proof.
  apply Qltb_ge. apply Qopp_le_compat. apply Qabs_nonneg.
Qed.

(** On two items whose first is not below the second, [heapify] swaps
    them and [heappop] answers the second. *)
Lemma heap_of_two {E} (lt : E → E → bool) (a b : E) :
  lt a b = false →
  Heapq.heapify lt [a; b] = Ok [b; a] ∧ Heapq.heappop lt [b; a] = Ok (b, [a]).
Proof.
  intros Hab. split.
  - vm_compute. by rewrite Hab.
  - vm_compute. reflexivity.
Qed.

(** Two nodes whose pair has weight zero: whatever the diagonal of
    [full_weights] holds, node 1 is its own nearest neighbour. *)
Lemma self_neighbor_any_diagonal g d0 d1 :
  length (nodes g) = 2 → full_weights g = [[d0; 0%Q]; [0%Q; d1]] →
  node_neighbors g 1 1 = Ok {[1]}.
Proof.
  intros Hn Hfw. unfold node_neighbors. rewrite Hn, Hfw.
  cbn [seq for_each mget lookup list_lookup mbind res_bind app].
  destruct (heap_of_two Entry_lt (mkEntry 0 (- Qabs 0)) (mkEntry 1 (- Qabs d1))) as [-> Hpop].
  { apply neg_abs_not_above. }
  change (Z.to_nat 1) with 1.
  cbn [mbind res_bind repeat_n]. rewrite Hpop.
  reflexivity.
Qed.

(** C6 fails on the code: the queue of node [i] holds an entry for every
    node, [i] included.  With the patterns [[1,1],[1,0]] all weights are
    zero, every priority ties, and node 1 pops itself as its nearest
    neighbour: the lattice has the self-loop [adj[1][1] = 1]. *)
Lemma lattice_self_neighbor :
  node_neighbors (train (HopfieldGraph_init (empty_graph 2) [[1; 1]; [1; 0]]%Z)) 1 1
  = Ok {[1]}
  ∧ ∃ g, hopfield_lattice [[1; 1]; [1; 0]]%Z 1 false = Ok g
         ∧ entry (adj_matrix g) 1 1 = Some 1%Z.
Proof.
  split; [vm_compute; reflexivity|].
  eexists. split; vm_compute; reflexivity.
Qed.

(** ** The block-model builder *)

Lemma for_each_fmap {A B S} (f : A → B) (xs : list A) (body : B → S → res S) (s : S) :
  for_each (f <$> xs) body s = for_each xs (λ x, body (f x)) s.
Proof.
  revert s. induction xs as [|x xs IH]; intros s; simpl; [done|].
  destruct (body (f x) s); simpl; auto.
Qed.

(** Nested loops run over the pairs of their items. *)
Lemma for_each_nested {A B S} (xs : list A) (ys : A → list B)
    (body : A → B → S → res S) (s : S) :
  for_each xs (λ x s, for_each (ys x) (body x) s) s
  = for_each (x ← xs; (λ y, (x, y)) <$> ys x) (λ p, body p.1 p.2) s.
Proof.
  revert s. induction xs as [|x xs IH]; intros s; [done|].
  change ((x :: xs) ≫= _) with (((λ y, (x, y)) <$> ys x) ++ (xs ≫= λ x, (λ y, (x, y)) <$> ys x)).
  rewrite for_each_app, for_each_fmap. simpl.
  destruct (for_each (ys x) (body x) s); simpl; auto.
Qed.

(** A loop of single-entry updates applies the update to each key as
    many times as the loop meets it. *)
Lemma for_each_counted {X K S V} `{EqDecision K} (I : S → Prop) (get : S → K → option V)
    (f : V → V) (key : X → K) (body : X → S → res S) (xs : list X) :
  (∀ x s s', x ∈ xs → I s → body x s = Ok s' →
     I s' ∧ ∃ v, get s (key x) = Some v ∧ get s' (key x) = Some (f v)
               ∧ ∀ y, y ≠ key x → get s' y = get s y) →
  ∀ s s', I s → for_each xs body s = Ok s' →
    I s' ∧ ∀ y, get s' y
               = Nat.iter (length (filter (λ x, key x = y) xs)) f <$> get s y.
Proof.
  induction xs as [|x xs IH]; intros Hbody s s' Hs H; simpl in H.
  { simplify_eq. split; [done|]. intros y. by destruct (get s' y). }
  destruct (body x s) as [t| |] eqn:E; simpl in H; try done.
  destruct (Hbody x s t ltac:(left) Hs E) as (Ht & v & Hv & Hv' & Hother).
  destruct (IH (λ y u u' Hy, Hbody y u u' (list_elem_of_further _ _ _ Hy)) t s' Ht H)
    as [Hs' Hget].
  split; [done|]. intros y. rewrite Hget, filter_cons.
  destruct (decide (key x = y)) as [<-|Hne].
  - rewrite Hv, Hv'. simpl. by rewrite Nat.iter_swap.
  - by rewrite Hother.
Qed.

(** Counting the pairs of a product that meet a condition on each side. *)
Lemma filter_pairs_length {A B} (P : A → Prop) (R : B → Prop) (PR : A * B → Prop)
    (dP : ∀ x, Decision (P x)) (dR : ∀ y, Decision (R y)) (dPR : ∀ p, Decision (PR p))
    (xs : list A) (ys : list B) :
  (∀ x y, x ∈ xs → PR (x, y) ↔ P x ∧ R y) →
  length (@filter _ _ _ PR dPR (x ← xs; (λ y, (x, y)) <$> ys))
  = length (@filter _ _ _ P dP xs) * length (@filter _ _ _ R dR ys).
Proof.
  induction xs as [|x xs IH]; intros HPR; [done|].
  change ((x :: xs) ≫= _) with (((λ y, (x, y)) <$> ys) ++ (xs ≫= λ x, (λ y, (x, y)) <$> ys)).
  rewrite filter_app, length_app, IH by (intros; apply HPR; by right).
  rewrite filter_cons.
  assert (length (@filter _ _ _ PR dPR ((λ y, (x, y)) <$> ys))
          = if dP x then length (@filter _ _ _ R dR ys) else 0) as ->.
  { pose proof (λ y, HPR x y ltac:(left)) as Hx. clear IH HPR.
    induction ys as [|y ys IHy]; [by destruct (dP x)|].
    rewrite fmap_cons, !filter_cons. specialize (Hx y) as Hxy.
    destruct (dPR (x, y)) as [Hyes|Hno]; destruct (dP x) as [HP|HP];
      destruct (dR y) as [HR|HR]; simpl; try tauto; by rewrite ?IHy. }
  unfold decide. destruct (dP x); simpl; lia.
Qed.

Lemma filter_eq_length {A} `{EqDecision A} (a : A) (l : list A) :
  NoDup l → length (filter (λ x, x = a) l) = if bool_decide (a ∈ l) then 1 else 0.
Proof.
  induction 1 as [|x l Hx Hnd IH]; [done|].
  rewrite filter_cons. destruct (decide (x = a)) as [->|Hne].
  - simpl. rewrite IH. rewrite bool_decide_eq_false_2 by done.
    rewrite bool_decide_eq_true_2 by left. done.
  - rewrite IH. repeat case_bool_decide; try done; set_solver.
Qed.

Lemma filter_agree {A} (P R : A → Prop) `{∀ x, Decision (P x)} `{∀ x, Decision (R x)}
    (l : list A) :
  (∀ x, x ∈ l → P x ↔ R x) → filter P l = filter R l.
Proof.
  induction l as [|x l IH]; intros Hl; [done|].
  rewrite !filter_cons, IH by (intros; apply Hl; by right).
  destruct (decide (P x)) as [HP|HP].
  - rewrite decide_True; [done|]. by apply Hl; [left|].
  - rewrite decide_False; [done|]. intros HR. apply HP. by apply Hl; [left|].
Qed.

Lemma table_row_spec edge_probs s r row :
  table_row edge_probs s = Ok (r, row)
  ↔ row_of edge_probs !! s = Some r ∧ row_store edge_probs !! r = Some row.
Proof.
  unfold table_row, dict_get.
  destruct (row_of edge_probs !! s) as [r'|]; simpl; [|naive_solver].
  destruct (row_store edge_probs !! r') as [row'|] eqn:Hrow; simpl; naive_solver.
Qed.

(** Line 151 multiplies one entry of one row object. *)
Lemma rescale_entry_spec ratio s1 s2 ep ep' :
  rescale_entry ratio s1 s2 ep = Ok ep' →
  row_of ep' = row_of ep
  ∧ ∃ r p, row_of ep !! s1 = Some r
      ∧ cell ep r s2 = Some p ∧ cell ep' r s2 = Some (ratio * p)%Q
      ∧ ∀ r' t2, (r', t2) ≠ (r, s2) → cell ep' r' t2 = cell ep r' t2.
Proof.
  unfold rescale_entry. intros H.
  destruct (table_row ep s1) as [[r row]| |] eqn:Hrow; simpl in H; try done.
  apply table_row_spec in Hrow as [Hr Hrow].
  unfold dict_get in H. destruct (row !! s2) as [p|] eqn:Hp; simpl in H; [|done].
  simplify_eq. split; [done|]. exists r, p. unfold cell. simpl. split_and!.
  - done.
  - by rewrite Hrow.
  - rewrite lookup_insert_eq. simpl. by rewrite lookup_insert_eq.
  - intros r' t2 Hne. destruct (decide (r' = r)) as [->|Hne1].
    + rewrite lookup_insert_eq, Hrow. simpl.
      rewrite lookup_insert_ne; [done|congruence].
    + by rewrite lookup_insert_ne.
Qed.

Lemma NoDup_keys {K V} `{Countable K} (d : gmap K V) : NoDup (keys d).
Proof. apply NoDup_fst_map_to_list. Qed.

Lemma elem_of_keys {K V} `{Countable K} (d : gmap K V) k : k ∈ keys d ↔ is_Some (d !! k).
Proof.
  unfold keys. rewrite list_elem_of_fmap. split.
  - intros ([k' v] & -> & Hkv). apply elem_of_map_to_list in Hkv. eauto.
  - intros [v Hv]. exists (k, v). split; [done|]. by apply elem_of_map_to_list.
Qed.

Lemma NoDup_pairs {A B} (xs : list A) (ys : list B) :
  NoDup xs → NoDup ys → NoDup (x ← xs; (λ y, (x, y)) <$> ys).
Proof.
  intros Hxs Hys. induction Hxs as [|x xs Hx Hxs IH]; [constructor|].
  change ((x :: xs) ≫= _) with (((λ y, (x, y)) <$> ys) ++ (xs ≫= λ x, (λ y, (x, y)) <$> ys)).
  apply NoDup_app. split_and!.
  - apply NoDup_fmap_2; [|done]. by intros ?? [=].
  - intros [a b] (y & [= -> ->] & Hy)%list_elem_of_fmap
           (x' & (y' & [= -> ->] & Hy')%list_elem_of_fmap & Hx')%list_elem_of_bind.
    done.
  - done.
Qed.

Lemma elem_of_pairs {A B} (xs : list A) (ys : list B) a b :
  (a, b) ∈ (x ← xs; (λ y, (x, y)) <$> ys) ↔ a ∈ xs ∧ b ∈ ys.
Proof.
  rewrite list_elem_of_bind. split.
  - intros (x & (y & [= -> ->] & Hy)%list_elem_of_fmap & Hx). done.
  - intros [Ha Hb]. exists a. split; [|done]. apply list_elem_of_fmap. eauto.
Qed.

(** Lines 149-151 on the row objects: the entry [s2] of the row at [r]
    is multiplied by the ratio once for every outer key bound to [r],
    when [s2] is an outer key, and left alone when it is not. *)
Lemma rescale_cells ratio ep ep' :
  rescale ratio ep = Ok ep' →
  row_of ep' = row_of ep
  ∧ ∀ r s2, cell ep' r s2
            = Nat.iter (if bool_decide (is_Some (row_of ep !! s2)) then bound_to ep r else 0)
                       (Qmult ratio) <$> cell ep r s2.
Proof.
  unfold rescale.
  rewrite (for_each_nested (keys (row_of ep)) (λ _, keys (row_of ep))). intros H.
  destruct (for_each_counted
    (λ t : Table, row_of t = row_of ep)
    (λ t (a : nat * string), cell t a.1 a.2) (Qmult ratio)
    (λ p : string * string, (default 0 (row_of ep !! p.1), p.2))
    (λ p, rescale_entry ratio p.1 p.2)
    (x ← keys (row_of ep); (λ y, (x, y)) <$> keys (row_of ep))) with ep ep'
    as [Hrows Hcells]; [|done|done|].
  { intros [t1 t2] s s' _ Hs (Hs' & r & p & Hr & Hp & Hp' & Hother)%rescale_entry_spec.
    simpl in *. rewrite Hs in Hs', Hr. split; [done|]. rewrite Hr. simpl.
    exists p. split_and!; [done..|]. intros [r' u2] Hne. by apply Hother. }
  split; [done|]. intros r s2. specialize (Hcells (r, s2)). simpl in Hcells.
  rewrite Hcells. do 2 f_equal.
  rewrite (filter_pairs_length (λ s : string, row_of ep !! s = Some r)
             (λ s : string, s = s2) _ _ _ _).
  2:{ intros t1 t2 [r' Hr']%elem_of_keys. simpl. rewrite Hr'. simpl.
      split; [intros [= ? ?]; by subst|intros [[= ?] ?]; by subst]. }
  rewrite (filter_eq_length s2 _ (NoDup_keys _)).
  fold (bound_to ep r).
  case_bool_decide as H1; case_bool_decide as H2; rewrite elem_of_keys in H1;
    try done; lia.
Qed.

(** The same on the entries as the caller reads them. *)
Lemma rescale_spec ratio ep ep' :
  rescale ratio ep = Ok ep' →
  row_of ep' = row_of ep
  ∧ ∀ s1 s2, prob ep' s1 s2
             = if bool_decide (is_Some (row_of ep !! s2))
               then Nat.iter (sharing ep s1) (Qmult ratio) <$> prob ep s1 s2
               else prob ep s1 s2.
Proof.
  intros [Hrows Hcells]%rescale_cells. split; [done|]. intros s1 s2.
  unfold prob, sharing. rewrite Hrows.
  destruct (row_of ep !! s1) as [r|]; simpl; [|by case_bool_decide].
  rewrite Hcells. case_bool_decide; [done|]. by destruct (cell ep r s2).
Qed.




Lemma Demo_edge_probs_closed : closed Demo.edge_probs.
Proof.
  intros s1 s2 [p Hp]. unfold prob, cell, Demo.edge_probs in *. simpl in *.
  destruct (_ !! s1) as [r|] eqn:Hr; simpl in Hp; [|done].
  destruct (_ !! r) as [row|] eqn:Hrow; simpl in Hp; [|done].
  assert (s2 = "11" ∨ s2 = "10") as [-> | ->]; [|done..].
  apply lookup_insert_Some in Hrow as [[_ <-]|[_ Hrow]].
  - apply lookup_insert_Some in Hp as [[<- _]|[_ Hp]]; [by left|].
    apply lookup_singleton_Some in Hp as [<- _]. by right.
  - apply lookup_singleton_Some in Hrow as [_ <-].
    apply lookup_insert_Some in Hp as [[<- _]|[_ Hp]]; [by left|].
    apply lookup_singleton_Some in Hp as [<- _]. by right.
Qed.



Lemma cached_pattern_spec edge_probs states i cache cache' :
  cache_ok edge_probs states cache →
  cached_pattern edge_probs states i cache = Ok cache' →
  cache_ok edge_probs states cache'
  ∧ (∀ k v, cache !! k = Some v → cache' !! k = Some v)
  ∧ ∃ s, node_pattern states i = Ok s
         ∧ cache' !! i = Some (oriented (row_of edge_probs) s).
Proof.
  unfold cached_pattern. intros Hok H.
  destruct (cache !! i) as [v|] eqn:Hi.
  - simplify_eq. split_and!; [done..|]. destruct (Hok _ _ Hi) as (s & ? & ->). eauto.
  - destruct (node_pattern states i) as [s| |] eqn:Hs; simpl in H; try done.
    simplify_eq. split_and!.
    + intros k v Hk. apply lookup_insert_Some in Hk as [[<- <-]|[_ Hk]]; eauto.
    + intros k v Hk. rewrite lookup_insert_ne; [done|]. by intros <-; simplify_eq.
    + exists s. by rewrite lookup_insert_eq.
Qed.

(** One turn of the pair loop joins [i] and [j], in both directions, when
    the uniform draw falls below [pair_probability]. *)
Lemma sbm_pair_draw {World : Type} (uniform : World → Q * World)
    edge_probs states i j adj cache (w : World) adj' cache' w' :
  cache_ok edge_probs states cache →
  sbm_pair uniform edge_probs states i j (adj, cache, w) = Ok (adj', cache', w') →
  cache_ok edge_probs states cache'
  ∧ w' = (uniform w).2
  ∧ ∃ p, pair_probability edge_probs states i j = Ok p
         ∧ if Qltb (uniform w).1 p
           then ∃ a1, mset adj i j 1%Z = Ok a1 ∧ mset a1 j i 1%Z = Ok adj'
           else adj' = adj.
Proof.
  unfold sbm_pair, pair_probability. intros Hok H.
  destruct (cached_pattern _ _ i cache) as [c1| |] eqn:E1; simpl in H; try done.
  destruct (cached_pattern_spec _ _ _ _ _ Hok E1) as (Hok1 & Hkeep1 & si & Hsi & Hci).
  destruct (cached_pattern _ _ j c1) as [c2| |] eqn:E2; simpl in H; try done.
  destruct (cached_pattern_spec _ _ _ _ _ Hok1 E2) as (Hok2 & Hkeep2 & sj & Hsj & Hcj).
  unfold dict_get in H. rewrite (Hkeep2 _ _ Hci) in H. simpl in H.
  rewrite Hsi, Hsj. simpl.
  destruct (table_row edge_probs _) as [[r row]| |]; simpl in *; try done.
  rewrite Hcj in H. simpl in H. unfold dict_get.
  destruct (row !! _) as [p|]; simpl in *; try done.
  destruct (uniform w) as [u w1]. simpl.
  destruct (Qltb u p) eqn:Hlt.
  - destruct (mset adj i j _) as [a1| |]; simpl in H; try done.
    destruct (mset a1 j i _) as [a2| |] eqn:E4; simpl in H; try done.
    simplify_eq. split_and!; [done..|]. exists p. rewrite Hlt. eauto.
  - simplify_eq. split_and!; [done..|]. exists p. by rewrite Hlt.
Qed.

(** C8 fails on the code.  On the table [Demo.edge_probs] and a target of
    3 edges, [adjust_probs] finds 6 expected edges, because it counts the
    pairs inside a group as [len * len], and leaves the table as it is
    (ratio [2 * 3 / 6]); the pair loop then draws 2 edges on average, not
    3. *)
Lemma adjust_probs_misses_target :
  ∃ ep', adjust_probs (HopfieldGraph_init (empty_graph 4) Demo.states) Demo.edge_probs 3
         = Ok ep'
    ∧ prob ep' "11" "11" = Some ((inject_Z (2 * 3) / (384 # 64)) * (1 # 2))%Q
    ∧ ∃ e, expected_edge_count ep' Demo.states = Ok e ∧ (e == 2)%Q ∧ ¬ (e == 3)%Q.
Proof.
  eexists. split; [vm_compute; reflexivity|].
  split; [vm_compute; reflexivity|].
  eexists. split; [vm_compute; reflexivity|]. split; [reflexivity|].
  intros H. vm_compute in H. discriminate.
Qed.

(** ** The heap queue *)

Lemma parent_cases c :
  0 < c → ∃ p, (c - 1) / 2 = p ∧ (c = 2 * p + 1 ∨ c = 2 * p + 2).
Proof.
  intros Hc. exists ((c - 1) / 2). split; [done|].
  pose proof (Nat.div_mod_eq (c - 1) 2) as Hdm.
  pose proof (Nat.mod_upper_bound (c - 1) 2 ltac:(lia)). lia.
Qed.

Lemma parent_left p : (2 * p + 1 - 1) / 2 = p.
Proof. replace (2 * p + 1 - 1) with (p * 2) by lia. apply Nat.div_mul. lia. Qed.

Lemma parent_right p : (2 * p + 2 - 1) / 2 = p.
Proof.
  replace (2 * p + 2 - 1) with (1 + p * 2) by lia.
  rewrite Nat.div_add by lia. reflexivity.
Qed.

Lemma parent_lt c : 0 < c → (c - 1) / 2 < c.
Proof. intros (p & -> & [->| ->])%parent_cases; lia. Qed.

Lemma descendant_ge s p : Heapq.descendant s p → s ≤ p.
Proof. induction 1; lia. Qed.

Lemma descendant_parent s p :
  Heapq.descendant s p → s < p → Heapq.descendant s ((p - 1) / 2).
Proof.
  intros Hd Hlt. destruct Hd as [|q Hq|q Hq]; [lia| |].
  - by rewrite parent_left.
  - by rewrite parent_right.
Qed.

(** Writing at [j] the item found at [i], and [y] at [i], permutes the
    list in which [y] is written at [j]. *)
Lemma insert_shift_perm {A} (l : list A) i j x y :
  l !! i = Some x → j < length l → i ≠ j →
  <[i := y]> (<[j := x]> l) ≡ₚ <[j := y]> l.
Proof.
  intros Hi Hj Hne.
  transitivity (<[j := x]> (<[i := y]> (<[j := y]> l))).
  - rewrite (list_insert_insert_ne _ i j y y) by done.
    rewrite list_insert_insert_eq.
    by rewrite (list_insert_insert_ne _ j i) by done.
  - apply Permutation_insert_swap.
    + by rewrite list_lookup_insert_ne.
    + by rewrite list_lookup_insert_eq.
Qed.

Section HeapqFacts.
Context {E : Type}.
Variable lt : E → E → bool.
Hypothesis lt_irrefl : ∀ x, lt x x = false.
Hypothesis lt_asym : ∀ x y, lt x y = true → lt y x = false.
Hypothesis le_trans : ∀ x y z, lt y x = false → lt z y = false → lt z x = false.

Local Abbreviation le := (Heapq.le lt).
Local Abbreviation heap_from := (Heapq.heap_from lt).
Local Abbreviation hole_ok := (Heapq.hole_ok lt).
Local Abbreviation fits_below := (Heapq.fits_below lt).

Lemma siftup_loop_S fuel heap pos :
  Heapq._siftup_loop lt (S fuel) heap pos
  = if bool_decide (2 * pos + 1 < length heap) then
      match heap !! (2 * pos + 1) with
      | Some lchild =>
        let cp := match heap !! (2 * pos + 1 + 1) with
                  | Some rchild =>
                    if negb (lt lchild rchild) then 2 * pos + 1 + 1 else 2 * pos + 1
                  | None => 2 * pos + 1
                  end in
        match heap !! cp with
        | Some c => Heapq._siftup_loop lt fuel (<[pos := c]> heap) cp
        | None => (heap, pos)
        end
      | None => (heap, pos)
      end
    else (heap, pos).
Proof. reflexivity. Qed.

Lemma siftdown_loop_S fuel heap startpos pos newitem :
  Heapq._siftdown_loop lt (S fuel) heap startpos pos newitem
  = if bool_decide (startpos < pos) then
      match heap !! ((pos - 1) / 2) with
      | Some parent =>
        if lt newitem parent
        then Heapq._siftdown_loop lt fuel (<[pos := parent]> heap) startpos
               ((pos - 1) / 2) newitem
        else <[pos := newitem]> heap
      | None => <[pos := newitem]> heap
      end
    else <[pos := newitem]> heap.
Proof. reflexivity. Qed.

(** The first loop of [_siftup] ends on a leaf and keeps the order around
    the travelling position. *)
Lemma siftup_loop_spec s fuel : ∀ heap pos heap1 pos1,
  hole_ok s pos heap → length heap - pos ≤ fuel →
  Heapq._siftup_loop lt fuel heap pos = (heap1, pos1) →
  hole_ok s pos1 heap1 ∧ length heap1 = length heap ∧ length heap ≤ 2 * pos1 + 1
  ∧ ∀ n, <[pos1 := n]> heap1 ≡ₚ <[pos := n]> heap.
Proof.
  induction fuel as [|fuel IH]; intros heap pos heap1 pos1 Hok Hfuel Hrun.
  { destruct Hok as (Hlt & _). lia. }
  rewrite siftup_loop_S in Hrun. pose proof Hok as (Hlt & Hdesc & Hedges & Hup).
  case_bool_decide as Hchild; [|simplify_eq; split_and!; [done|done|lia|done]].
  destruct (lookup_lt_is_Some_2 heap (2 * pos + 1) Hchild) as [lchild Hl].
  rewrite Hl in Hrun. cbv zeta in Hrun.
  set (cp := match heap !! (2 * pos + 1 + 1) with
             | Some rchild => if negb (lt lchild rchild) then 2 * pos + 1 + 1 else 2 * pos + 1
             | None => 2 * pos + 1
             end) in *.
  assert (∃ c, heap !! cp = Some c ∧ (cp = 2 * pos + 1 ∨ cp = 2 * pos + 2))
    as (c & Hc & Hcp).
  { subst cp. destruct (heap !! (2 * pos + 1 + 1)) as [rchild|] eqn:Hr.
    - destruct (lt lchild rchild) eqn:Hlr; cbn [negb].
      + exists lchild. split; [done|by left].
      + exists rchild. split; [done|right; lia].
    - exists lchild. split; [done|by left]. }
  assert (∀ c' y, (c' = 2 * pos + 1 ∨ c' = 2 * pos + 2) → heap !! c' = Some y → le c y)
    as Hsib.
  { subst cp. intros c' y Hc' Hy. unfold Heapq.le.
    destruct (heap !! (2 * pos + 1 + 1)) as [rchild|] eqn:Hr.
    - destruct (lt lchild rchild) eqn:Hlr; cbn [negb] in *; simplify_eq.
      + destruct Hc' as [->| ->].
        * rewrite Hl in Hy. simplify_eq. apply lt_irrefl.
        * replace (2 * pos + 2) with (2 * pos + 1 + 1) in Hy by lia.
          rewrite Hr in Hy. simplify_eq. by apply lt_asym.
      + destruct Hc' as [->| ->].
        * rewrite Hl in Hy. by simplify_eq.
        * replace (2 * pos + 2) with (2 * pos + 1 + 1) in Hy by lia.
          rewrite Hr in Hy. simplify_eq. apply lt_irrefl.
    - simplify_eq. destruct Hc' as [->| ->].
      + rewrite Hl in Hy. simplify_eq. apply lt_irrefl.
      + replace (2 * pos + 2) with (2 * pos + 1 + 1) in Hy by lia. congruence. }
  rewrite Hc in Hrun. clearbody cp.
  assert (cp < length heap) as Hcplt by (by eapply lookup_lt_Some).
  assert ((cp - 1) / 2 = pos) as Hcpp.
  { destruct Hcp as [->| ->]; [apply parent_left|apply parent_right]. }
  apply IH in Hrun as (Hok1 & Hlen1 & Hleaf & Hperm).
  - rewrite length_insert in Hlen1, Hleaf. split_and!; [done..|].
    intros n. rewrite Hperm. apply insert_shift_perm; [done|done|lia].
  - split_and!.
    + by rewrite length_insert.
    + destruct Hcp as [->| ->]; by constructor.
    + intros c' x y Hc' Hs Hne Hpne.
      destruct (decide (c' = pos)) as [->|Hcpos].
      * rewrite list_lookup_insert_eq by done.
        rewrite list_lookup_insert_ne by (pose proof (parent_lt pos Hc'); lia).
        intros [= <-] Hx.
        assert (s < pos) as Hspos.
        { pose proof (descendant_ge _ _ Hdesc). pose proof (parent_lt pos Hc'). lia. }
        eapply (Hup Hspos cp); [lia|done|done|done].
      * rewrite list_lookup_insert_ne by done.
        destruct (decide ((c' - 1) / 2 = pos)) as [Hpar|Hpar].
        -- rewrite Hpar, list_lookup_insert_eq by done. intros Hy [= <-].
           eapply Hsib; [|done].
           destruct (parent_cases c' Hc') as (q & Hq & Hcq). lia.
        -- rewrite list_lookup_insert_ne by done. by apply Hedges.
    + intros _ c' x y Hc' Hpar.
      rewrite Hcpp, list_lookup_insert_eq by done.
      rewrite list_lookup_insert_ne by (destruct (parent_cases c' Hc') as (q & Hq & Hcq); lia).
      intros Hy [= <-]. eapply (Hedges c'); [done| | | |done|].
      * rewrite Hpar. pose proof (descendant_ge _ _ Hdesc). lia.
      * destruct (parent_cases c' Hc') as (q & Hq & Hcq). lia.
      * lia.
      * by rewrite Hpar.
  - rewrite length_insert. lia.
Qed.

(** Putting [n] into the travelling position restores the heap when
    [n] fits between the parent and the children of that position. *)
Lemma hole_fill s n heap pos :
  hole_ok s pos heap → fits_below n pos heap →
  (s < pos → ∀ x, heap !! ((pos - 1) / 2) = Some x → le x n) →
  heap_from s (<[pos := n]> heap).
Proof.
  intros (Hlt & Hdesc & Hedges & Hup) Hfit Hpar c x y Hc Hs.
  pose proof (descendant_ge _ _ Hdesc) as Hge.
  pose proof (parent_lt c Hc) as Hpc.
  destruct (decide (c = pos)) as [->|Hcpos].
  - rewrite list_lookup_insert_eq by done.
    rewrite list_lookup_insert_ne by lia. intros [= <-] Hx.
    apply Hpar; [lia|done].
  - rewrite list_lookup_insert_ne by done.
    destruct (decide ((c - 1) / 2 = pos)) as [Hcp|Hcp].
    + rewrite Hcp, list_lookup_insert_eq by done. intros Hy [= <-]. by eapply Hfit.
    + rewrite list_lookup_insert_ne by done. by apply Hedges.
Qed.

(** The loop of [_siftdown] leaves a heap, and moves items only. *)
Lemma siftdown_loop_spec s n fuel : ∀ heap pos,
  hole_ok s pos heap → fits_below n pos heap → pos ≤ fuel →
  heap_from s (Heapq._siftdown_loop lt fuel heap s pos n)
  ∧ Heapq._siftdown_loop lt fuel heap s pos n ≡ₚ <[pos := n]> heap.
Proof.
  induction fuel as [|fuel IH]; intros heap pos Hok Hfit Hfuel.
  { split; [|done]. apply hole_fill; [done..|lia]. }
  rewrite siftdown_loop_S.
  case_bool_decide as Hsp; [|split; [|done]; apply hole_fill; [done..|lia]].
  pose proof Hok as (Hlt & Hdesc & Hedges & Hup).
  assert (0 < pos) as Hpos by lia.
  pose proof (parent_lt pos Hpos) as Hppos.
  pose proof (descendant_parent _ _ Hdesc Hsp) as Hdesc2.
  pose proof (descendant_ge _ _ Hdesc2) as Hge2.
  destruct (lookup_lt_is_Some_2 heap ((pos - 1) / 2) ltac:(lia)) as [parent Hparent].
  rewrite Hparent. destruct (lt n parent) eqn:Hnp.
  2:{ split; [|done]. apply hole_fill; [done..|]. intros _ x Hx. unfold Heapq.le. congruence. }
  assert (le n parent) as Hle_np by (by apply lt_asym).
  assert (∀ c y, 0 < c → (c - 1) / 2 = (pos - 1) / 2 → c ≠ pos →
                 heap !! c = Some y → le parent y) as Hsiblings.
  { intros c y Hc Hcp Hne Hy. apply (Hedges c); [done|lia|done|lia|done|by rewrite Hcp]. }
  destruct (IH (<[pos := parent]> heap) ((pos - 1) / 2)) as [Hheap Hperm].
  - split_and!.
    + rewrite length_insert. lia.
    + done.
    + intros c x y Hc Hs Hne Hpne.
      assert (c ≠ pos) by (by intros ->).
      rewrite list_lookup_insert_ne by done.
      destruct (decide ((c - 1) / 2 = pos)) as [Hcp|Hcp].
      * rewrite Hcp, list_lookup_insert_eq by done. intros Hy [= <-].
        by eapply (Hup Hsp c).
      * rewrite list_lookup_insert_ne by done. by apply Hedges.
    + intros Hs2 c x y Hc Hcp.
      assert (0 < (pos - 1) / 2) as Hp2 by lia.
      pose proof (parent_lt _ Hp2).
      rewrite (list_lookup_insert_ne _ pos ((_ - 1) / 2)) by lia.
      intros Hy Hx.
      assert (le x parent) as Hxp.
      { apply (Hedges ((pos - 1) / 2)); [done| |lia|lia|done|done].
        pose proof (descendant_ge _ _ (descendant_parent _ _ Hdesc2 Hs2)). lia. }
      destruct (decide (c = pos)) as [->|Hne].
      * rewrite list_lookup_insert_eq in Hy by done. by simplify_eq.
      * rewrite list_lookup_insert_ne in Hy by done.
        apply (le_trans x parent y Hxp). by apply (Hsiblings c y).
  - intros c y Hc Hcp. destruct (decide (c = pos)) as [->|Hne].
    + rewrite list_lookup_insert_eq by done. by intros [= <-].
    + rewrite list_lookup_insert_ne by done. intros Hy.
      apply (le_trans n parent y Hle_np). by apply (Hsiblings c y).
  - lia.
  - split; [done|]. rewrite Hperm. apply insert_shift_perm; [done|done|lia].
Qed.

(** [_siftup(heap, s)] extends the heap order from the positions after
    [s] to [s] itself, and permutes the list. *)
Lemma siftup_spec s heap :
  s < length heap → heap_from (S s) heap →
  ∃ heap', Heapq._siftup lt heap s = Ok heap' ∧ heap_from s heap' ∧ heap' ≡ₚ heap.
Proof.
  intros Hs Hheap. unfold Heapq._siftup.
  destruct (lookup_lt_is_Some_2 heap s Hs) as [newitem Hnew]. rewrite Hnew.
  destruct (Heapq._siftup_loop lt (length heap) heap s) as [heap1 pos1] eqn:Hloop.
  apply (siftup_loop_spec s) in Hloop as (Hok1 & Hlen1 & Hleaf & Hperm1); [|
    |lia].
  2:{ split_and!; [done|constructor| |lia].
      intros c x y Hc Hsc Hne Hpne. apply Hheap; [done|lia]. }
  pose proof Hok1 as (Hlt1 & Hdesc1 & Hedges1 & Hup1).
  unfold Heapq._siftdown. rewrite list_lookup_insert_eq by done.
  eexists. split; [done|].
  destruct (siftdown_loop_spec s newitem pos1 (<[pos1 := newitem]> heap1) pos1)
    as [Hheap' Hperm']; [| |done|].
  - split_and!.
    + by rewrite length_insert.
    + done.
    + intros c x y Hc Hsc Hne Hpne. rewrite !list_lookup_insert_ne by done.
      by apply Hedges1.
    + intros _ c x y Hc Hcp Hy. apply lookup_lt_Some in Hy.
      rewrite length_insert in Hy.
      destruct (parent_cases c Hc) as (q & Hq & Hcq). lia.
  - intros c y Hc Hcp Hy. apply lookup_lt_Some in Hy. rewrite length_insert in Hy.
    destruct (parent_cases c Hc) as (q & Hq & Hcq). lia.
  - split; [done|]. rewrite Hperm', list_insert_insert_eq, Hperm1.
    by rewrite list_insert_id.
Qed.

Lemma heapify_loop_spec m : ∀ heap,
  2 * m ≤ length heap → heap_from m heap →
  ∃ heap', for_each (reverse (seq 0 m)) (λ i h, Heapq._siftup lt h i) heap = Ok heap'
           ∧ heap_from 0 heap' ∧ heap' ≡ₚ heap.
Proof.
  induction m as [|m IH]; intros heap Hm Hheap.
  { exists heap. by split_and!. }
  rewrite seq_S, reverse_app. simpl.
  destruct (siftup_spec m heap ltac:(lia) Hheap) as (h1 & -> & Hh1 & Hp1). simpl.
  destruct (IH h1) as (h2 & Hrun & Hh2 & Hp2); [by rewrite Hp1; lia|done|].
  exists h2. split_and!; [done..|]. by rewrite Hp2.
Qed.

(** [heapify] never fails; it answers a heap holding the same items. *)
Lemma heapify_spec x :
  ∃ heap, Heapq.heapify lt x = Ok heap ∧ Heapq.is_heap lt heap ∧ heap ≡ₚ x.
Proof.
  apply heapify_loop_spec.
  - pose proof (Nat.div_mod_eq (length x) 2). lia.
  - intros c a b Hc Hp Hb _. apply lookup_lt_Some in Hb.
    destruct (parent_cases c Hc) as (q & Hq & Hcq).
    pose proof (Nat.div_mod_eq (length x) 2) as Hdm.
    pose proof (Nat.mod_upper_bound (length x) 2 ltac:(lia)). lia.
Qed.

(** The root of a heap is not above any of its items. *)
Lemma heap_root_min heap r :
  Heapq.is_heap lt heap → heap !! 0 = Some r → ∀ y, y ∈ heap → le r y.
Proof.
  intros Hheap Hr y [i Hi]%list_elem_of_lookup. revert y Hi.
  induction i as [i IH] using lt_wf_ind. intros y Hi.
  destruct (decide (i = 0)) as [->|Hne].
  { rewrite Hr in Hi. simplify_eq. apply lt_irrefl. }
  assert (0 < i) as Hpos by lia.
  pose proof (parent_lt i Hpos) as Hp.
  destruct (lookup_lt_is_Some_2 heap ((i - 1) / 2)) as [x Hx].
  { apply lookup_lt_Some in Hi. lia. }
  apply (le_trans r x y).
  - by apply (IH ((i - 1) / 2)).
  - apply (Hheap i); [done|lia|done|done].
Qed.

Lemma heappop_nil : Heapq.heappop lt [] = Raise IndexError.
Proof. reflexivity. Qed.

(** [heappop] on a non-empty heap answers an item that is not above any
    other and leaves a heap with the remaining items. *)
Lemma heappop_spec heap :
  heap ≠ [] → Heapq.is_heap lt heap →
  ∃ r heap', Heapq.heappop lt heap = Ok (r, heap')
             ∧ heap ≡ₚ r :: heap' ∧ Heapq.is_heap lt heap'
             ∧ ∀ y, y ∈ heap → le r y.
Proof.
  intros Hne Hheap. unfold Heapq.heappop, Heapq.list_pop.
  destruct (last heap) as [lastelt|] eqn:Hlast; [|by apply last_None in Hlast].
  apply last_Some in Hlast as [heap1 ->]. simpl.
  rewrite length_app. simpl.
  replace (length heap1 + 1 - 1) with (length heap1) by lia.
  rewrite take_app_length.
  destruct heap1 as [|r t].
  { exists lastelt, []. split_and!; [done|done|by intros c x y ?? ?%lookup_lt_Some; simpl in *; lia|].
    intros y ->%list_elem_of_singleton. apply lt_irrefl. }
  destruct (siftup_spec 0 (<[0 := lastelt]> (r :: t))) as (h2 & Hrun & Hh2 & Hp2).
  - simpl. lia.
  - intros c x y Hc Hs.
    assert (c ≠ 0 ∧ (c - 1) / 2 ≠ 0) as [? ?] by lia.
    rewrite !list_lookup_insert_ne by done. intros Hy Hx.
    apply (Hheap c); [done|lia| |].
    + by apply lookup_app_l_Some.
    + by apply lookup_app_l_Some.
  - rewrite Hrun. simpl. exists r, h2. split_and!; [done| |done|].
    + rewrite Hp2. simpl. constructor. symmetry. apply Permutation_cons_append.
    + by apply heap_root_min.
Qed.

End HeapqFacts.

(** ** The pruning builder *)

Lemma Entry_lt_irrefl {A} (e : Entry A) : Entry_lt e e = false.
Proof. apply Qltb_ge. apply Qle_refl. Qed.

Lemma Entry_lt_asym {A} (e1 e2 : Entry A) : Entry_lt e1 e2 = true → Entry_lt e2 e1 = false.
Proof. unfold Entry_lt. rewrite Qltb_lt, Qltb_ge. apply Qlt_le_weak. Qed.

Lemma Entry_le_trans {A} (x y z : Entry A) :
  Entry_lt y x = false → Entry_lt z y = false → Entry_lt z x = false.
Proof. unfold Entry_lt. rewrite !Qltb_ge. apply Qle_trans. Qed.

Lemma Entry_le_priority {A} (e1 e2 : Entry A) :
  Heapq.le Entry_lt e1 e2 ↔ (priority e1 <= priority e2)%Q.
Proof. unfold Heapq.le, Entry_lt. apply Qltb_ge. Qed.

Lemma elem_of_lower_pairs N i j : (i, j) ∈ lower_pairs N ↔ j < i < N.
Proof.
  unfold lower_pairs. rewrite list_elem_of_bind. split.
  - intros (x & (y & [= -> ->] & Hy%elem_of_seq)%list_elem_of_fmap & Hx%elem_of_seq). lia.
  - intros [Hj Hi]. exists i. split.
    + apply list_elem_of_fmap. exists j. split; [done|]. apply elem_of_seq. lia.
    + apply elem_of_seq. lia.
Qed.

Lemma NoDup_lower_pairs N : NoDup (lower_pairs N).
Proof.
  unfold lower_pairs. apply NoDup_bind.
  - intros x1 x2 [a b] _ _ (y1 & [= -> ->] & _)%list_elem_of_fmap
           (y2 & [= -> _] & _)%list_elem_of_fmap. done.
  - intros x _. apply NoDup_fmap_2; [by intros ?? [=]|apply NoDup_seq].
  - apply NoDup_seq.
Qed.

Lemma repeat_n_inv {S} (P : S → Prop) (body : S → res S) n :
  (∀ s s', P s → body s = Ok s' → P s') →
  ∀ s s', P s → repeat_n n body s = Ok s' → P s'.
Proof.
  intros Hstep. induction n as [|n IH]; intros s s' HP H; simpl in H.
  - by simplify_eq.
  - destruct (body s) as [t| |] eqn:E; simpl in H; try done. eauto.
Qed.

(** The four writes of lines 108-111. *)
Lemma prune_step_writes g pq g' pq' :
  prune_step (g, pq) = Ok (g', pq') →
  ∃ min_edge, Heapq.heappop Entry_lt pq = Ok (min_edge, pq')
              ∧ edge_removed (item min_edge).1 (item min_edge).2 g g'
              ∧ (∀ N, square N (adj_matrix g) → square N (adj_matrix g'))
              ∧ (∀ N, square N (weights g) → square N (weights g')).
Proof.
  unfold prune_step. intros H.
  destruct (Heapq.heappop Entry_lt pq) as [[min_edge pq1]| |]; simpl in H; try done.
  destruct (mset (weights g) _ _ _) as [w1| |] eqn:E1; simpl in H; try done.
  destruct (mset w1 _ _ _) as [w2| |] eqn:E2; simpl in H; try done.
  destruct (mset (adj_matrix g) _ _ _) as [a1| |] eqn:E3; simpl in H; try done.
  destruct (mset a1 _ _ _) as [a2| |] eqn:E4; simpl in H; try done.
  simplify_eq. exists min_edge. split; [done|]. split_and!; simpl; try done.
  - split_and!; simpl; try done.
    + eapply mset_sym_entry; eauto.
    + eapply mset_sym_entry; eauto.
  - intros N HN. eapply mset_square; [exact E4|]. eapply mset_square; eauto.
  - intros N HN. eapply mset_square; [exact E2|]. eapply mset_square; eauto.
Qed.

Lemma edge_removed_invariant i j g g' :
  edge_removed i j g g' →
  (∀ N, square N (adj_matrix g) → square N (adj_matrix g')) →
  (∀ N, square N (weights g) → square N (weights g')) →
  structural_invariant g → structural_invariant g'.
Proof.
  intros (Hn & _ & _ & Ha & Hw) Hsa Hsw (Hsqa & Hsqw & Hsym & Hzero).
  unfold structural_invariant. rewrite Hn. split_and!; [by apply Hsa|by apply Hsw| |].
  - intros a b. rewrite !Ha. repeat case_bool_decide; try done; naive_solver.
  - intros a b. rewrite Ha, Hw. case_bool_decide; [done|]. apply Hzero.
Qed.

Lemma edge_removed_prunable i j g g' :
  edge_removed i j g g' →
  (∀ N, square N (adj_matrix g) → square N (adj_matrix g')) →
  (∀ N, square N (weights g) → square N (weights g')) →
  prunable g → prunable g'.
Proof.
  intros (Hn & _ & _ & Ha & Hw) Hsa Hsw (Hsqa & Hsqw & Hsym & Hbit).
  unfold prunable. rewrite Hn. split_and!; [by apply Hsa|by apply Hsw| |].
  - intros a b. rewrite !Ha. repeat case_bool_decide; try done; naive_solver.
  - intros a b x. rewrite Ha. case_bool_decide; [naive_solver|]. apply Hbit.
Qed.

(** The edge count is the length of the queue. *)
Lemma queue_ok_length g pq : prunable g → queue_ok g pq → num_edges g = length pq.
Proof.
  intros (Hsqa & _ & Hsym & _) (_ & Hnd & Hin & Hall).
  unfold num_edges. rewrite <- (length_fmap item pq).
  apply Permutation_length, NoDup_Permutation; [|done|].
  - apply NoDup_filter, NoDup_lower_pairs.
  - intros [i j]. rewrite list_elem_of_filter, elem_of_lower_pairs. simpl. split.
    + intros [Hadj Hij]. apply Hall; [lia|]. by rewrite Hsym.
    + intros (e & He & Hepq)%list_elem_of_fmap.
      destruct (Hin _ Hepq) as (Hlt & Hadj & _). rewrite <- He in *. simpl in *.
      split; [by rewrite Hsym|].
      destruct (square_entry_lt _ _ _ _ _ Hsqa Hadj). lia.
Qed.

(** One turn of the pruning loop on a non-empty queue removes an edge of
    smallest magnitude. *)
Lemma prune_step_spec g pq :
  prunable g → queue_ok g pq → pq ≠ [] →
  ∃ g' pq', prune_step (g, pq) = Ok (g', pq')
            ∧ prunable g' ∧ queue_ok g' pq' ∧ removes_smallest g g'
            ∧ length pq = S (length pq').
Proof.
  intros Hpr (Hheap & Hnd & Hin & Hall) Hne.
  destruct (heappop_spec Entry_lt Entry_lt_irrefl Entry_lt_asym Entry_le_trans pq Hne Hheap)
    as (r & pq' & Hpop & Hperm & Hheap' & Hmin).
  destruct (Hin r) as (Hlt & Hadj & w & Hw & Hprio).
  { rewrite Hperm. by left. }
  destruct (item r) as [i j] eqn:Hitem. simpl in *.
  pose proof Hpr as (Hsqa & Hsqw & Hsym & Hbit).
  destruct (square_entry_lt _ _ _ _ _ Hsqa Hadj) as [Hi Hj].
  destruct (mset_is_Ok (weights g) i j 0%Q) as [w1 E1]; [by apply (square_entry _ _ _ _ Hsqw)|].
  destruct (mset_is_Ok w1 j i 0%Q) as [w2 E2].
  { eapply square_entry; [eapply mset_square; eauto|done..]. }
  destruct (mset_is_Ok (adj_matrix g) i j 0%Z) as [a1 E3]; [by apply (square_entry _ _ _ _ Hsqa)|].
  destruct (mset_is_Ok a1 j i 0%Z) as [a2 E4].
  { eapply square_entry; [eapply mset_square; eauto|done..]. }
  eexists _, pq'.
  assert (prune_step (g, pq) = Ok (mkHopfieldGraph (nodes g) a2 w2 (full_weights g)
                                     (stored_states g), pq')) as Hstep.
  { unfold prune_step. rewrite Hpop. simpl. rewrite Hitem. simpl.
    rewrite E1. simpl. rewrite E2. simpl. rewrite E3. simpl. by rewrite E4. }
  split; [exact Hstep|].
  destruct (prune_step_writes _ _ _ _ Hstep) as (r' & Hpop' & Hrem & Hsa & Hsw).
  rewrite Hpop in Hpop'. simplify_eq. rewrite Hitem in Hrem. simpl in Hrem.
  assert (NoDup ((i, j) :: (item <$> pq'))) as Hnd'.
  { rewrite <- Hitem, <- fmap_cons, <- Hperm. done. }
  apply NoDup_cons in Hnd' as [Hfresh Hnd'].
  split_and!.
  - eapply edge_removed_prunable; eauto.
  - destruct Hrem as (_ & _ & _ & Ha & Hwt). split_and!; simpl; [done|done| |].
    + intros e He. destruct (Hin e) as (Hlt_e & Hadj_e & we & Hwe & Hpe).
      { rewrite Hperm. by right. }
      assert (item e ≠ (i, j)) as Hne_e.
      { intros Heq. apply Hfresh. rewrite <- Heq. by apply list_elem_of_fmap_2. }
      destruct (item e) as [a b]. simpl in *.
      rewrite Ha, Hwt. rewrite bool_decide_eq_false_2.
      * split_and!; [done|done|]. eauto.
      * intros [[-> ->]|[-> ->]]; [done|lia].
    + intros a b Hab. rewrite Ha. case_bool_decide as Hcase; [done|]. intros Hadj_ab.
      specialize (Hall a b Hab Hadj_ab). rewrite Hperm, fmap_cons, Hitem in Hall.
      apply elem_of_cons in Hall as [[= -> ->]|Hall]; [|done].
      exfalso. apply Hcase. by left.
  - exists i, j, w. split_and!; [done..| |done].
    intros i' j' w' Hlt' Hadj' Hw'.
    specialize (Hall i' j' Hlt' Hadj').
    apply list_elem_of_fmap in Hall as (e' & He' & Hepq).
    destruct (Hin e' Hepq) as (_ & _ & we & Hwe & Hpe).
    rewrite <- He' in Hwe. simpl in Hwe. rewrite Hw' in Hwe. simplify_eq.
    rewrite <- Hprio, <- Hpe. apply Entry_le_priority. by apply Hmin.
  - by rewrite Hperm.
Qed.

Lemma repeat_n_S {S} (body : S → res S) n s :
  repeat_n (Datatypes.S n) body s = s' ← body s; repeat_n n body s'.
Proof. reflexivity. Qed.

(** [n] turns of the pruning loop, [n] at most the length of the queue. *)
Lemma prune_turns n : ∀ g pq,
  prunable g → queue_ok g pq → n ≤ length pq →
  ∃ g' pq', repeat_n n prune_step (g, pq) = Ok (g', pq')
            ∧ prunable g' ∧ queue_ok g' pq' ∧ removal_chain n g g'
            ∧ length pq = n + length pq'.
Proof.
  induction n as [|n IH]; intros g pq Hpr Hq Hn.
  { exists g, pq. split_and!; [done..|constructor|done]. }
  destruct (prune_step_spec g pq Hpr Hq) as (g1 & pq1 & Hstep & Hpr1 & Hq1 & Hrem & Hlen).
  { intros ->. simpl in Hn. lia. }
  destruct (IH g1 pq1 Hpr1 Hq1) as (g2 & pq2 & Hrun & Hpr2 & Hq2 & Hchain & Hlen2); [lia|].
  exists g2, pq2. rewrite repeat_n_S, Hstep. simpl.
  split_and!; [done..| |lia]. econstructor; eauto.
Qed.

(** More turns than the queue has entries: the pop on the emptied queue
    raises [IndexError]. *)
Lemma prune_turns_exhaust n : ∀ g pq,
  prunable g → queue_ok g pq → length pq < n →
  repeat_n n prune_step (g, pq) = Raise IndexError.
Proof.
  induction n as [|n IH]; intros g pq Hpr Hq Hn; [lia|].
  rewrite repeat_n_S. destruct pq as [|e pq].
  { reflexivity. }
  destruct (prune_step_spec g (e :: pq) Hpr Hq) as (g1 & pq1 & Hstep & Hpr1 & Hq1 & _ & Hlen);
    [done|].
  rewrite Hstep. simpl. apply IH; [done..|]. simpl in *. lia.
Qed.

(** A loop that appends to a list collects what each turn appends. *)
Lemma for_each_collect {A B} (xs : list A) (f : A → list B) (body : A → list B → res (list B)) :
  (∀ x acc, x ∈ xs → body x acc = Ok (acc ++ f x)) →
  ∀ acc, for_each xs body acc = Ok (acc ++ (xs ≫= f)).
Proof.
  induction xs as [|x xs IH]; intros Hbody acc; simpl.
  - by rewrite app_nil_r.
  - rewrite Hbody by left. simpl. rewrite IH by (intros; apply Hbody; by right).
    by rewrite <- app_assoc.
Qed.

Lemma prune_queue_spec g :
  prunable g →
  prune_queue g (length (nodes g)) = Ok (lower_pairs (length (nodes g)) ≫= candidate g).
Proof.
  intros (Hsqa & Hsqw & _ & _). unfold prune_queue.
  rewrite (for_each_nested (seq 0 (length (nodes g))) (λ i, seq 0 i)).
  change (seq 0 (length (nodes g)) ≫= _) with (lower_pairs (length (nodes g))).
  rewrite (for_each_collect _ (candidate g)); [done|].
  intros [i j] acc [Hj Hi]%elem_of_lower_pairs. simpl. unfold candidate. simpl.
  destruct (square_entry _ _ i j Hsqw) as [w Hw]; [lia..|].
  destruct (square_entry _ _ i j Hsqa) as [a Ha]; [lia..|].
  rewrite Hw, Ha.
  rewrite (proj2 (mget_entry _ _ _ _) Hw). simpl.
  rewrite (proj2 (mget_entry _ _ _ _) Ha). simpl.
  case_bool_decide; [by rewrite app_nil_r|done].
Qed.

Lemma candidate_items g xs :
  prunable g → (∀ ij, ij ∈ xs → ij.1 < length (nodes g) ∧ ij.2 < length (nodes g)) →
  item <$> (xs ≫= candidate g)
  = filter (λ ij, entry (adj_matrix g) ij.1 ij.2 = Some 1%Z) xs.
Proof.
  intros (Hsqa & Hsqw & _ & Hbit). induction xs as [|[i j] xs IH]; intros Hrange; [done|].
  rewrite bind_cons, fmap_app, filter_cons, IH by (intros; apply Hrange; by right).
  f_equal. unfold candidate. simpl.
  destruct (Hrange (i, j)) as [Hi Hj]; [by left|]. simpl in *.
  destruct (square_entry _ _ i j Hsqw) as [w Hw]; [lia..|].
  destruct (square_entry _ _ i j Hsqa) as [a Ha]; [lia..|].
  rewrite Hw, Ha. destruct (Hbit _ _ _ Ha) as [->| ->].
  - rewrite bool_decide_eq_true_2 by done. by rewrite decide_False.
  - rewrite bool_decide_eq_false_2 by done. by rewrite decide_True.
Qed.

Lemma elem_of_candidates g xs e :
  e ∈ xs ≫= candidate g →
  item e ∈ xs ∧ ∃ w, entry (weights g) (item e).1 (item e).2 = Some w ∧ priority e = Qabs w.
Proof.
  intros (ij & He & Hij)%list_elem_of_bind. unfold candidate in He.
  destruct (entry (adj_matrix g) ij.1 ij.2) as [a|]; [|by apply elem_of_nil in He].
  destruct (entry (weights g) ij.1 ij.2) as [w|] eqn:Hw; [|by apply elem_of_nil in He].
  case_bool_decide; [by apply elem_of_nil in He|].
  apply list_elem_of_singleton in He as ->. simpl. eauto.
Qed.

(** Any heap holding the collected entries is a queue for the model. *)
Lemma queue_ok_initial g pq :
  prunable g →
  Heapq.is_heap Entry_lt pq →
  pq ≡ₚ lower_pairs (length (nodes g)) ≫= candidate g →
  queue_ok g pq.
Proof.
  intros Hpr Hheap Hperm.
  assert (item <$> pq ≡ₚ filter (λ ij, entry (adj_matrix g) ij.1 ij.2 = Some 1%Z)
                           (lower_pairs (length (nodes g)))) as Hitems.
  { rewrite Hperm. rewrite candidate_items; [done|done|].
    intros [i j] Hij%elem_of_lower_pairs. simpl. lia. }
  split_and!.
  - done.
  - rewrite Hitems. apply NoDup_filter, NoDup_lower_pairs.
  - intros e He.
    assert (item e ∈ item <$> pq) as Hi by (by apply list_elem_of_fmap_2).
    rewrite Hitems in Hi. apply list_elem_of_filter in Hi as [Hadj Hlow].
    destruct (item e) as [i j] eqn:Hitem. apply elem_of_lower_pairs in Hlow.
    rewrite Hperm in He. apply elem_of_candidates in He as (_ & w & Hw & Hp).
    rewrite Hitem in Hw. simpl in *. split_and!; [lia|done|eauto].
  - intros i j Hij Hadj. rewrite Hitems. apply list_elem_of_filter. split; [done|].
    apply elem_of_lower_pairs. destruct Hpr as (Hsqa & _).
    destruct (square_entry_lt _ _ _ _ _ Hsqa Hadj). lia.
Qed.

(** Training a model with a square, symmetric adjacency matrix
    establishes the structural invariant. *)
Lemma train_structural g :
  square (length (nodes g)) (adj_matrix g) →
  (∀ i j, entry (adj_matrix g) i j = entry (adj_matrix g) j i) →
  structural_invariant (train g).
Proof.
  intros Hsq Hsym. unfold structural_invariant, train. simpl.
  split_and!; [done|apply tabulate_square|done|].
  intros i j Hadj. destruct (square_entry_lt _ _ _ _ _ Hsq Hadj) as [Hi Hj].
  rewrite tabulate_entry, bool_decide_eq_true_2 by done.
  unfold trained_weight. rewrite Hadj. by rewrite bool_decide_eq_true_2.
Qed.

Lemma fully_connected_shape N states :
  let g := HopfieldGraph_init (fully_connected N) states in
  length (nodes g) = N
  ∧ square N (adj_matrix g)
  ∧ (∀ i j, entry (adj_matrix g) i j = entry (adj_matrix g) j i)
  ∧ (∀ i j a, entry (adj_matrix g) i j = Some a → a = 0%Z ∨ a = 1%Z).
Proof.
  simpl. split_and!.
  - by rewrite length_fmap, length_seq.
  - apply tabulate_square.
  - intros i j. rewrite !tabulate_entry.
    repeat case_bool_decide; try done; lia.
  - intros i j a. rewrite tabulate_entry.
    repeat case_bool_decide; naive_solver.
Qed.

Lemma empty_graph_shape N states :
  let g := HopfieldGraph_init (empty_graph N) states in
  length (nodes g) = N
  ∧ square N (adj_matrix g)
  ∧ (∀ i j, entry (adj_matrix g) i j = entry (adj_matrix g) j i).
Proof.
  simpl. split_and!.
  - by rewrite length_replicate.
  - apply tabulate_square.
  - intros i j. rewrite !tabulate_entry.
    repeat case_bool_decide; try done; lia.
Qed.

Lemma structural_prunable g :
  structural_invariant g →
  (∀ i j a, entry (adj_matrix g) i j = Some a → a = 0%Z ∨ a = 1%Z) →
  prunable g.
Proof. intros (? & ? & ? & ?) ?. by split_and!. Qed.

(** The model the pruning loop starts from, when no graph is given. *)
Lemma prune_base_trained patterns N :
  pattern_length patterns = Ok N →
  let g0 := train (HopfieldGraph_init (fully_connected N) patterns) in
  prune_base patterns None = Ok (N, g0)
  ∧ length (nodes g0) = N ∧ structural_invariant g0 ∧ prunable g0.
Proof.
  intros HN g0. destruct (fully_connected_shape N patterns) as (Hn & Hsq & Hsym & Hbit).
  assert (structural_invariant g0) as Hinv.
  { apply train_structural; [by rewrite Hn|done]. }
  split_and!; [|done|done|by apply structural_prunable].
  unfold prune_base. by rewrite HN.
Qed.

Lemma set_node_attributes_num_edges g : num_edges (set_node_attributes g) = num_edges g.
Proof. unfold num_edges. simpl. by rewrite length_imap. Qed.

Lemma set_node_attributes_invariant g :
  structural_invariant g → structural_invariant (set_node_attributes g).
Proof. unfold structural_invariant. simpl. by rewrite length_imap. Qed.

Section PruneFacts.
Context {World : Type}.
Variable shuffle : ∀ A : Type, list A → World → list A * World.
Hypothesis shuffle_perm : ∀ A (l : list A) w, (shuffle A l w).1 ≡ₚ l.

(** The run of [pruned_hopfield] from a prunable base model: the loop
    makes [num_edges - edges] turns; it removes that many smallest edges
    when the queue is long enough and raises [IndexError] otherwise. *)
Lemma pruned_hopfield_run patterns edges graph flag (w : World) g0 :
  prune_base patterns graph = Ok (length (nodes g0), g0) → prunable g0 →
  let n := Z.to_nat (Z.of_nat (num_edges g0) - edges) in
  (n ≤ num_edges g0 →
     ∃ g1 w', pruned_hopfield shuffle patterns edges graph flag w
              = Ok (set_node_attributes g1, w')
              ∧ prunable g1 ∧ removal_chain n g0 g1 ∧ num_edges g0 = n + num_edges g1)
  ∧ (num_edges g0 < n →
     pruned_hopfield shuffle patterns edges graph flag w = Raise IndexError).
Proof.
  intros Hbase Hpr n. unfold pruned_hopfield. rewrite Hbase. simpl.
  rewrite (prune_queue_spec g0 Hpr). simpl.
  set (pq0 := lower_pairs (length (nodes g0)) ≫= candidate g0).
  assert (∃ pq1 w1, (if flag then shuffle _ pq0 w else (pq0, w)) = (pq1, w1) ∧ pq1 ≡ₚ pq0)
    as (pq1 & w1 & -> & Hp1).
  { destruct flag.
    - destruct (shuffle _ pq0 w) as [pq1 w1] eqn:Hs. exists pq1, w1. split; [done|].
      pose proof (shuffle_perm _ pq0 w) as Hperm. by rewrite Hs in Hperm.
    - by exists pq0, w. }
  destruct (heapify_spec Entry_lt Entry_lt_irrefl Entry_lt_asym Entry_le_trans pq1)
    as (pq & -> & Hheap & Hp). simpl.
  assert (queue_ok g0 pq) as Hq.
  { apply queue_ok_initial; [done|done|]. by rewrite Hp, Hp1. }
  pose proof (queue_ok_length _ _ Hpr Hq) as Hlen.
  unfold prune_loop. fold n. split.
  - intros Hn. destruct (prune_turns n g0 pq Hpr Hq) as (g1 & pq' & -> & Hpr1 & Hq1 & Hch & Hl);
      [lia|].
    simpl. exists g1, w1. split_and!; [done..|].
    rewrite (queue_ok_length _ _ Hpr1 Hq1). lia.
  - intros Hn. rewrite (prune_turns_exhaust n g0 pq Hpr Hq); [done|lia].
Qed.

(** C4. For patterns with a first row (of [N] bits) and a target [k]
    between 0 and the edge count of the trained, fully connected model,
    [pruned_hopfield(patterns, k)] returns; the model it returns comes from
    the trained one by removing, one at a time, an edge of smallest
    magnitude among those left, has exactly [k] edges, and for [k] equal to
    the initial edge count has the adjacency and the weights of the
    trained model (no removal). *)
Theorem prune_exact patterns (k : Z) flag (w : World) N :
  pattern_length patterns = Ok N →
  let g0 := train (HopfieldGraph_init (fully_connected N) patterns) in
  (0 ≤ k ≤ Z.of_nat (num_edges g0))%Z →
  ∃ g1 w',
    pruned_hopfield shuffle patterns k None flag w = Ok (set_node_attributes g1, w')
    ∧ removal_chain (num_edges g0 - Z.to_nat k) g0 g1
    ∧ Z.of_nat (num_edges (set_node_attributes g1)) = k
    ∧ (k = Z.of_nat (num_edges g0) →
       adj_matrix (set_node_attributes g1) = adj_matrix g0
       ∧ weights (set_node_attributes g1) = weights g0).
Proof.
  intros HN g0 Hk.
  destruct (prune_base_trained patterns N HN) as (Hbase & Hn & _ & Hpr). fold g0 in Hbase, Hn, Hpr.
  rewrite <- Hn in Hbase at 1.
  destruct (pruned_hopfield_run patterns k None flag w g0 Hbase Hpr) as [Hrun _].
  replace (Z.to_nat (Z.of_nat (num_edges g0) - k)) with (num_edges g0 - Z.to_nat k) in Hrun by lia.
  destruct Hrun as (g1 & w' & Hrun & _ & Hch & Hcount); [lia|].
  exists g1, w'. split_and!; [done|done| |].
  - rewrite set_node_attributes_num_edges. lia.
  - intros ->. replace (num_edges g0 - Z.to_nat (Z.of_nat (num_edges g0))) with 0 in Hch by lia.
    by inversion Hch.
Qed.

(** C5 (amended). [pruned_hopfield] does not check its target.  From a
    prunable base model, a target above the edge count makes the loop
    run no turn and the base model is returned, adjacency and weights
    untouched; a negative target makes the loop pop more entries than the
    queue holds, and the call raises [IndexError], which comes from the
    pop on the queue once every edge has been removed. *)
Theorem prune_unchecked_target patterns (k : Z) graph flag (w : World) g0 :
  prune_base patterns graph = Ok (length (nodes g0), g0) → prunable g0 →
  ((Z.of_nat (num_edges g0) < k)%Z →
     ∃ w', pruned_hopfield shuffle patterns k graph flag w
           = Ok (set_node_attributes g0, w'))
  ∧ ((k < 0)%Z →
     pruned_hopfield shuffle patterns k graph flag w = Raise IndexError
     ∧ ∀ pq, queue_ok g0 pq →
         ∃ g1, repeat_n (num_edges g0) prune_step (g0, pq) = Ok (g1, [])
               ∧ num_edges g1 = 0
               ∧ prune_step (g1, []) = Raise IndexError).
Proof.
  intros Hbase Hpr.
  destruct (pruned_hopfield_run patterns k graph flag w g0 Hbase Hpr) as [Hrun Hfail].
  split.
  - intros Hk. replace (Z.to_nat (Z.of_nat (num_edges g0) - k)) with 0 in Hrun by lia.
    destruct Hrun as (g1 & w' & Hrun & _ & Hch & _); [lia|].
    inversion Hch; subst. eauto.
  - intros Hk. split; [apply Hfail; lia|].
    intros pq Hq. pose proof (queue_ok_length _ _ Hpr Hq) as Hlen.
    destruct (prune_turns (num_edges g0) g0 pq Hpr Hq) as (g1 & pq' & Hturns & Hpr1 & Hq1 & _ & Hl);
      [lia|].
    assert (pq' = []) as -> by (apply nil_length_inv; lia).
    exists g1. split_and!; [done| |done].
    by rewrite (queue_ok_length _ _ Hpr1 Hq1).
Qed.

End PruneFacts.

Lemma Demo_shuffle_perm A (l : list A) w : (Demo.shuffle A l w).1 ≡ₚ l.
Proof. apply reverse_Permutation. Qed.

Lemma prune_exact_witness :
  ∃ g1 w',
    pruned_hopfield Demo.shuffle Demo.patterns 3 None true () = Ok (set_node_attributes g1, w')
    ∧ removal_chain (num_edges Demo.dense - Z.to_nat 3) Demo.dense g1
    ∧ Z.of_nat (num_edges (set_node_attributes g1)) = 3%Z
    ∧ (3%Z = Z.of_nat (num_edges Demo.dense) →
       adj_matrix (set_node_attributes g1) = adj_matrix Demo.dense
       ∧ weights (set_node_attributes g1) = weights Demo.dense).
Proof.
  apply (prune_exact Demo.shuffle Demo_shuffle_perm Demo.patterns 3 true () 4).
  - reflexivity.
  - vm_compute. split; discriminate.
Defined.

Lemma prune_unchecked_target_witness :
  (∃ w', pruned_hopfield Demo.shuffle Demo.patterns 7 None true ()
         = Ok (set_node_attributes Demo.dense, w'))
  ∧ pruned_hopfield Demo.shuffle Demo.patterns (-1) None true () = Raise IndexError.
Proof.
  destruct (prune_base_trained Demo.patterns 4 eq_refl) as (Hbase & Hn & _ & Hpr).
  split.
  - apply (proj1 (prune_unchecked_target Demo.shuffle Demo_shuffle_perm Demo.patterns 7 None
                    true () Demo.dense Hbase Hpr)).
    vm_compute. reflexivity.
  - apply (proj2 (prune_unchecked_target Demo.shuffle Demo_shuffle_perm Demo.patterns (-1) None
                    true () Demo.dense Hbase Hpr)).
    reflexivity.
Defined.

(** C5, as stated, fails: with a target above the edge count (7 against
    6) [pruned_hopfield] returns the trained model instead of failing, and
    with a negative target the failure is an [IndexError]. *)
Lemma prune_over_target_returns :
  pruned_hopfield Demo.shuffle Demo.patterns 7 None true ()
  = Ok (set_node_attributes Demo.dense, ())
  ∧ pruned_hopfield Demo.shuffle Demo.patterns (-1) None true () = Raise IndexError.
Proof. split; vm_compute; reflexivity. Qed.

(** ** The structural invariant of the builders *)

Lemma make_edge_invariant i j g g' :
  make_edge i j g = Ok g' → structural_invariant g → structural_invariant g'.
Proof.
  intros (Hn & _ & _ & Hsa & Hsw & Ha & Hw)%make_edge_spec (Hsqa & Hsqw & Hsym & Hzero).
  unfold structural_invariant. rewrite Hn. split_and!; [by apply Hsa|by apply Hsw| |].
  - intros a b. rewrite !Ha. repeat case_bool_decide; try done; naive_solver.
  - intros a b. rewrite Ha. case_bool_decide as Hab; [done|].
    intros Hadj. rewrite Hw by done. by apply Hzero.
Qed.

Lemma lattice_edges_invariant N neighbors b g g' :
  lattice_edges N neighbors b g = Ok g' → structural_invariant g → structural_invariant g'.
Proof.
  unfold lattice_edges. intros Hrun Hinv. revert Hinv Hrun.
  apply for_each_inv. intros i h h' _ Hh.
  destruct (neighbors !! i) as [ni|]; simpl; [|done].
  revert Hh. apply for_each_inv. intros j u u' _ Hu Hbody.
  destruct b; [|by eapply make_edge_invariant].
  destruct (neighbors !! j) as [nj|]; simpl in Hbody; [|done].
  case_bool_decide; [by eapply make_edge_invariant|by simplify_eq].
Qed.

Lemma sbm_pair_shape {World : Type} (uniform : World → Q * World)
    edge_probs states i j N st st' :
  sbm_pair uniform edge_probs states i j st = Ok st' →
  square N st.1.1 ∧ (∀ a b, entry st.1.1 a b = entry st.1.1 b a) →
  square N st'.1.1 ∧ (∀ a b, entry st'.1.1 a b = entry st'.1.1 b a).
Proof.
  destruct st as [[adj cache] w]. unfold sbm_pair. intros H [Hsq Hsym].
  destruct (cached_pattern _ _ i cache) as [c1| |]; simpl in H; try done.
  destruct (cached_pattern _ _ j c1) as [c2| |]; simpl in H; try done.
  destruct (dict_get c2 i) as [pi| |]; simpl in H; try done.
  destruct (table_row edge_probs pi) as [[r row]| |]; simpl in H; try done.
  destruct (dict_get c2 j) as [pj| |]; simpl in H; try done.
  destruct (dict_get row pj) as [p| |]; simpl in H; try done.
  destruct (uniform w) as [u w1]. destruct (Qltb u p).
  - destruct (mset adj i j _) as [a1| |] eqn:E1; simpl in H; try done.
    destruct (mset a1 j i _) as [a2| |] eqn:E2; simpl in H; try done.
    simplify_eq. simpl in *. split.
    + eapply mset_square; [exact E2|]. eapply mset_square; eauto.
    + intros a b. rewrite !(mset_sym_entry _ _ _ _ _ _ E1 E2).
      repeat case_bool_decide; try done; naive_solver.
  - by simplify_eq.
Qed.

(** C3. Each topology builder returns a model that satisfies the
    structural invariant: square matrices, a symmetric adjacency matrix,
    and weight zero wherever the adjacency entry is zero.
    [pruned_hopfield] keeps it from the model it starts from (the trained,
    fully connected one, or a given one that satisfies it);
    [hopfield_sbm] and [hopfield_lattice] establish it. *)
Theorem builders_keep_invariant :
  (∀ (World : Type) (shuffle : ∀ A : Type, list A → World → list A * World)
     patterns edges graph flag (w : World) g w',
     (∀ g0, graph = Some g0 → structural_invariant g0) →
     pruned_hopfield shuffle patterns edges graph flag w = Ok (g, w') →
     structural_invariant g)
  ∧ (∀ (World : Type) (uniform : World → Q * World) edge_probs states n (w : World) g ep' w',
     hopfield_sbm uniform edge_probs states n w = Ok (g, ep', w') →
     structural_invariant g)
  ∧ (∀ states k intersection g,
     hopfield_lattice states k intersection = Ok g →
     structural_invariant g).
Proof.
  split_and!.
  - intros World shuffle patterns edges graph flag w g w' Hgraph. unfold pruned_hopfield.
    destruct (prune_base patterns graph) as [[N g0]| |] eqn:Hbase; simpl; try done.
    assert (structural_invariant g0) as Hinv0.
    { destruct graph as [g0'|]; simpl in Hbase.
      - simplify_eq. by apply Hgraph.
      - destruct (pattern_length patterns) as [N'| |] eqn:HN; simpl in Hbase; try done.
        simplify_eq. by destruct (prune_base_trained patterns N HN) as (_ & _ & ? & _). }
    destruct (prune_queue g0 N) as [pq0| |]; simpl; try done.
    destruct (if flag then shuffle _ pq0 w else (pq0, w)) as [pq1 w1].
    destruct (Heapq.heapify Entry_lt pq1) as [pq| |]; simpl; try done.
    destruct (prune_loop edges g0 pq) as [[g1 pq']| |] eqn:Hloop; simpl; try done.
    intros [= <- <-]. apply set_node_attributes_invariant.
    unfold prune_loop in Hloop.
    apply (repeat_n_inv (λ st, structural_invariant st.1) prune_step _) in Hloop; [done| |done].
    intros [h q] [h' q'] Hh (e & _ & Hrem & Hsa & Hsw)%prune_step_writes. simpl in *.
    eapply edge_removed_invariant; eauto.
  - intros World uniform edge_probs states n w g ep' w'. unfold hopfield_sbm.
    destruct (pattern_length states) as [N| |]; simpl; try done.
    destruct (adjust_probs _ edge_probs n) as [ep1| |]; simpl; try done.
    destruct (for_each (lower_pairs N) _ _) as [[[adj cache] w1]| |] eqn:Hloop; simpl; try done.
    intros [= <- <- <-].
    apply (for_each_inv (λ st, square N st.1.1 ∧ ∀ a b, entry st.1.1 a b = entry st.1.1 b a))
      in Hloop as [Hsq Hsym].
    + apply train_structural; simpl; [by rewrite length_replicate|done].
    + intros [i j] st st' _ Hst Hpair. by eapply sbm_pair_shape.
    + simpl. split; [apply tabulate_square|].
      intros a b. rewrite !tabulate_entry. repeat case_bool_decide; try done; lia.
  - intros states k b g. unfold hopfield_lattice.
    destruct (pattern_length states) as [N| |]; simpl; try done.
    destruct (nearest_neighbors _ k) as [neighbors| |]; simpl; try done.
    destruct (lattice_edges N neighbors b _) as [g1| |] eqn:Hloop; simpl; try done.
    intros [= <-]. apply set_node_attributes_invariant.
    eapply lattice_edges_invariant; [exact Hloop|].
    destruct (empty_graph_shape N states) as (Hn & Hsq & Hsym).
    apply train_structural; [by rewrite Hn|done].
Qed.

Lemma builders_keep_invariant_witness :
  (∃ g, pruned_hopfield Demo.shuffle Demo.patterns 3 None true () = Ok (g, ())
        ∧ structural_invariant g)
  ∧ (∃ g ep', hopfield_sbm Demo.uniform Demo.edge_probs Demo.states 3 () = Ok (g, ep', ())
              ∧ structural_invariant g)
  ∧ (∃ g, hopfield_lattice Demo.patterns 2 false = Ok g ∧ structural_invariant g).
Proof.
  destruct builders_keep_invariant as (Hprune & Hsbm & Hlattice).
  split_and!.
  - eexists. split; [vm_compute; reflexivity|].
    eapply (Hprune unit Demo.shuffle Demo.patterns 3%Z None true ()).
    + intros g0 Hg0. discriminate Hg0.
    + vm_compute. reflexivity.
  - eexists _, _. split; [vm_compute; reflexivity|].
    eapply (Hsbm unit Demo.uniform Demo.edge_probs Demo.states 3%Z ()).
    vm_compute. reflexivity.
  - eexists. split; [vm_compute; reflexivity|].
    eapply (Hlattice Demo.patterns 2%Z false). vm_compute. reflexivity.
Defined.

(** ** The model of [heapq] on concrete lists

    The values below are those CPython's [heapq] computes. *)

Example heapify_ints :
  Heapq.heapify Nat.ltb [5; 3; 8; 1; 9; 2; 7; 3; 1; 0]
  = Ok [0; 1; 2; 1; 3; 8; 7; 3; 5; 9].
Proof. vm_compute. reflexivity. Qed.

Example heappop_ints :
  Heapq.heappop Nat.ltb [0; 1; 2; 1; 3; 8; 7; 3; 5; 9]
  = Ok (0, [1; 1; 2; 3; 3; 8; 7; 9; 5]).
Proof. vm_compute. reflexivity. Qed.

Example heappop_empty : Heapq.heappop Nat.ltb [] = Raise IndexError.
Proof. reflexivity. Qed.

(** * Further properties of the search *)

Lemma repeat_n_total {S} (body : S → res S) :
  (∀ s, ∃ s', body s = Ok s') → ∀ n s, ∃ s', repeat_n n body s = Ok s'.
Proof.
  intros Hbody. induction n as [|n IH]; intros s; [by eexists|].
  destruct (Hbody s) as [s1 Hs1]. destruct (IH s1) as [s2 Hs2].
  exists s2. by rewrite repeat_n_S, Hs1.
Qed.

Lemma Zceil5_step (rc : Z) :
  (0 ≤ rc)%Z →
  Z.to_nat ((rc + 1 + 4) / 5)
  = Z.to_nat ((rc + 4) / 5) + (if bool_decide (rc `mod` 5 = 0)%Z then 1 else 0).
Proof.
  intros Hrc. pose proof (Z.div_mod rc 5 ltac:(lia)) as Hdm.
  pose proof (Z.mod_pos_bound rc 5 ltac:(lia)) as Hb.
  set (q := (rc / 5)%Z) in *. set (r := (rc `mod` 5)%Z) in *.
  assert (0 ≤ q)%Z by (subst q; apply Z.div_pos; lia).
  case_bool_decide as Hr.
  - assert ((rc + 1 + 4) / 5 = q + 1)%Z as ->.
    { symmetry. apply (Z.div_unique _ _ _ 0%Z); lia. }
    assert ((rc + 4) / 5 = q)%Z as ->.
    { symmetry. apply (Z.div_unique _ _ _ 4%Z); lia. }
    lia.
  - assert ((rc + 1 + 4) / 5 = q + 1)%Z as ->.
    { symmetry. apply (Z.div_unique _ _ _ (r + 0)%Z); lia. }
    assert ((rc + 4) / 5 = q + 1)%Z as ->.
    { symmetry. apply (Z.div_unique _ _ _ (r - 1)%Z); lia. }
    lia.
Qed.

Section SearchFacts.
Context {World : Type}.
Variable random_edges : nat → option Z → World → Graph * World.
Variable random_edge : HopfieldGraph → World → (nat * nat) * World.
Variable rewire : nat → nat → HopfieldGraph → World → HopfieldGraph * World.
Variable hopfield_performance : HopfieldGraph → World → Q * World.
Variable wiring_cost_energy : HopfieldGraph → Q.
Variable prop_in_group_edges : HopfieldGraph → Q.
Variable np_exp : Q → Q.
Variable np_binomial : Z → Q → World → Z * World.

Local Abbreviation the_score := (score hopfield_performance wiring_cost_energy).
Local Abbreviation the_start :=
  (initial_state random_edges hopfield_performance wiring_cost_energy).
Local Abbreviation the_warm_loop :=
  (warm_loop random_edges hopfield_performance wiring_cost_energy).
Local Abbreviation the_iteration :=
  (iteration random_edge rewire hopfield_performance wiring_cost_energy
     prop_in_group_edges np_exp np_binomial).
Local Abbreviation the_main_loop :=
  (main_loop random_edge rewire hopfield_performance wiring_cost_energy
     prop_in_group_edges np_exp np_binomial).
Local Abbreviation the_search :=
  (metropolis_hastings random_edges random_edge rewire hopfield_performance
     wiring_cost_energy prop_in_group_edges np_exp np_binomial).

Lemma accept_result curr prop beta (w : World) :
  accept np_exp np_binomial curr prop beta w = Ok (Qltb curr prop, w).
Proof. unfold accept, accept_decision. by destruct (Qltb curr prop). Qed.

(** The histories after one turn: one more performance, one more cost,
    and one more statistic when the turn number is a multiple of 5. *)
Lemma iteration_grows moves beta alpha save freq st st' :
  the_iteration moves beta alpha save freq st = Ok st' →
  s_run_count st' = (s_run_count st + 1)%Z
  ∧ length (s_perf_hist st') = S (length (s_perf_hist st))
  ∧ length (s_cost_hist st') = S (length (s_cost_hist st))
  ∧ length (s_in_group_hist st')
    = length (s_in_group_hist st)
      + (if bool_decide (s_run_count st `mod` 5 = 0)%Z then 1 else 0).
Proof.
  unfold iteration. intros H.
  destruct (repeat_n _ _ _) as [[prop w1]| |]; simpl in H; try done.
  destruct (the_score alpha prop None None w1) as [ps w2].
  rewrite accept_result in H. simpl in H.
  destruct (Qltb (s_curr_score st) ps).
  - destruct (hopfield_performance prop w2) as [cp w3].
    unfold score in *; simpl in *.
    destruct (Qltb (s_best_score st) _);
      (destruct save; [repeat case_bool_decide; try done|]); simplify_eq;
      simpl; repeat case_bool_decide; rewrite ?length_app; simpl;
      split_and!; try done; lia.
  - destruct (hopfield_performance (s_hop_graph st) w2) as [cp w3].
    unfold score in *; simpl in *.
    destruct (Qltb (s_best_score st) _);
      (destruct save; [repeat case_bool_decide; try done|]); simplify_eq;
      simpl; repeat case_bool_decide; rewrite ?length_app; simpl;
      split_and!; try done; lia.
Qed.

Lemma iteration_total moves beta alpha freq st :
  ∃ st', the_iteration moves beta alpha false freq st = Ok st'.
Proof.
  unfold iteration.
  destruct (repeat_n_total
              (λ '(prop, w), let '(i, j, w0) := random_edge (s_hop_graph st) w in
                             Ok (rewire i j prop w0))
              ltac:(intros [p w]; destruct (random_edge (s_hop_graph st) w) as [[i j] w0];
                    by eexists)
              (Z.to_nat moves) (s_hop_graph st, s_world st)) as [[prop w1] ->].
  simpl. destruct (the_score alpha prop None None w1) as [ps w2].
  rewrite accept_result. simpl.
  destruct (Qltb (s_curr_score st) ps).
  - destruct (hopfield_performance prop w2) as [cp w3].
    unfold score in *; simpl in *.
    destruct (Qltb (s_best_score st) _); by eexists.
  - destruct (hopfield_performance (s_hop_graph st) w2) as [cp w3].
    unfold score in *; simpl in *.
    destruct (Qltb (s_best_score st) _); by eexists.
Qed.

(** The main loop without snapshots runs to the end of its budget. *)
Lemma main_loop_runs fuel : ∀ max_iter moves beta alpha freq st,
  (0 ≤ s_run_count st)%Z →
  Z.to_nat (max_iter - s_run_count st) ≤ fuel →
  length (s_perf_hist st) = Z.to_nat (s_run_count st) →
  length (s_cost_hist st) = Z.to_nat (s_run_count st) →
  length (s_in_group_hist st) = Z.to_nat ((s_run_count st + 4) / 5) →
  ∃ st', the_main_loop fuel max_iter moves beta alpha false freq st = Ok st'
         ∧ s_run_count st' = Z.max max_iter (s_run_count st)
         ∧ length (s_perf_hist st') = Z.to_nat (s_run_count st')
         ∧ length (s_cost_hist st') = Z.to_nat (s_run_count st')
         ∧ length (s_in_group_hist st') = Z.to_nat ((s_run_count st' + 4) / 5).
Proof.
  induction fuel as [|fuel IH]; intros max_iter moves beta alpha freq st Hrc Hfuel Hp Hc Hg.
  - exists st. simpl. rewrite bool_decide_eq_false_2 by lia.
    split_and!; [done|lia|done..].
  - simpl. case_bool_decide as Hlt.
    + destruct (iteration_total moves beta alpha freq st) as [st1 Hst1].
      rewrite Hst1. simpl.
      destruct (iteration_grows _ _ _ _ _ _ _ Hst1) as (Hrc1 & Hp1 & Hc1 & Hg1).
      destruct (IH max_iter moves beta alpha freq st1) as (st2 & Hrun & Hrc2 & Hrest);
        [lia|lia|lia|lia| |].
      { rewrite Hg1, Hg, Hrc1. symmetry. by apply Zceil5_step. }
      exists st2. split_and!; [done|lia|apply Hrest..].
    + exists st. split_and!; [done|lia|done..].
Qed.

(** X1. Without snapshots and with a budget [max_iter >= 0], the search
    returns as soon as the warm start does: the performance and cost
    histories hold one entry per turn, [max_iter] in all, and the in-group
    history one entry per started block of five turns. *)
Theorem search_history_lengths fuel patterns num_edges (max_iter : Z) moves beta hop_graph
    alpha freq (w : World) g s w1 :
  (0 ≤ max_iter)%Z →
  the_start fuel alpha patterns num_edges hop_graph w = Ok (g, s, w1) →
  ∃ best perf_hist cost_hist in_group_hist w2,
    the_search fuel patterns num_edges max_iter moves beta hop_graph alpha false freq w
    = Ok (best, (perf_hist, cost_hist, in_group_hist), w2)
    ∧ length perf_hist = Z.to_nat max_iter
    ∧ length cost_hist = Z.to_nat max_iter
    ∧ length in_group_hist = Z.to_nat ((max_iter + 4) / 5).
Proof.
  intros Hmax Hstart. unfold metropolis_hastings. rewrite Hstart. simpl.
  destruct (main_loop_runs (Z.to_nat max_iter) max_iter moves beta alpha freq
              (mkSearch g s g s 0 0 [] [] [] w1))
    as (st & -> & Hrc & Hp & Hc & Hg); simpl; try done; try lia.
  simpl in Hrc. rewrite Hrc in Hp, Hc, Hg.
  replace (Z.max max_iter 0) with max_iter in * by lia.
  simpl. by eexists _, _, _, _, _.
Qed.

(** X2. A budget below zero is a budget of zero: the loop runs no turn
    and the warm-start model comes back with empty histories. *)
Theorem search_negative_budget fuel patterns num_edges (max_iter : Z) moves beta hop_graph
    alpha save freq (w : World) g s w1 :
  (max_iter ≤ 0)%Z →
  the_start fuel alpha patterns num_edges hop_graph w = Ok (g, s, w1) →
  the_search fuel patterns num_edges max_iter moves beta hop_graph alpha save freq w
  = Ok (g, ([], [], []), w1).
Proof.
  intros Hmax Hstart. unfold metropolis_hastings. rewrite Hstart. simpl.
  replace (Z.to_nat max_iter) with 0 by lia. simpl.
  by rewrite bool_decide_eq_false_2 by lia.
Qed.

Lemma iteration_no_move moves beta alpha save freq st st' :
  (moves ≤ 0)%Z →
  the_iteration moves beta alpha save freq st = Ok st' →
  s_hop_graph st' = s_hop_graph st
  ∧ (s_best_graph st = s_hop_graph st → s_best_graph st' = s_hop_graph st).
Proof.
  intros Hm. unfold iteration. replace (Z.to_nat moves) with 0 by lia. simpl.
  destruct (the_score alpha _ None None _) as [ps w2].
  rewrite accept_result. simpl. intros H.
  destruct (Qltb (s_curr_score st) ps);
    destruct (hopfield_performance (s_hop_graph st) w2) as [cp w3];
    unfold score in *; simpl in *;
    destruct (Qltb (s_best_score st) _);
    (destruct save; [repeat case_bool_decide; try done|]); by simplify_eq.
Qed.

(** X3. With [moves_per_iter <= 0] no proposal differs from the current
    model, so whatever the budget and the scores the search returns the
    model it started from. *)
Theorem search_without_moves fuel patterns num_edges max_iter (moves : Z) beta hop_graph
    alpha save freq (w : World) g s w1 best hist w2 :
  (moves ≤ 0)%Z →
  the_start fuel alpha patterns num_edges hop_graph w = Ok (g, s, w1) →
  the_search fuel patterns num_edges max_iter moves beta hop_graph alpha save freq w
  = Ok (best, hist, w2) →
  best = g.
Proof.
  intros Hm Hstart. unfold metropolis_hastings. rewrite Hstart. simpl.
  destruct (the_main_loop _ _ _ _ _ _ _ _) as [st| |] eqn:Hloop; simpl; try done.
  intros [= <- _ _].
  assert (∀ n st0 st1,
            the_main_loop n max_iter moves beta alpha save freq st0 = Ok st1 →
            s_hop_graph st0 = g → s_best_graph st0 = g →
            s_best_graph st1 = g) as Hinv.
  { clear -Hm. induction n as [|n IH]; intros st0 st1 Hrun Hh Hb; simpl in Hrun.
    - case_bool_decide; [done|]. by simplify_eq.
    - case_bool_decide; [|by simplify_eq].
      destruct (the_iteration _ _ _ _ _ st0) as [st'| |] eqn:Hit; simpl in Hrun; try done.
      destruct (iteration_no_move _ _ _ _ _ _ _ Hm Hit) as [Hh' Hb'].
      eapply IH; [exact Hrun|congruence|]. rewrite Hb'; congruence. }
  by eapply Hinv.
Qed.

(** The warm-start loop answers a score that is not below the floor. *)
Lemma warm_loop_floor fuel : ∀ alpha patterns num_edges g s (w : World) g' s' w',
  the_warm_loop fuel alpha patterns num_edges g s w = Ok (g', s', w') →
  ¬ (s' < 4 # 10)%Q.
Proof.
  induction fuel as [|fuel IH]; intros alpha patterns num_edges g s w g' s' w' H; simpl in H.
  - destruct (Qltb s (4 # 10)) eqn:Hs; [done|]. simplify_eq.
    by rewrite <- Qltb_lt, Hs.
  - destruct (Qltb s (4 # 10)) eqn:Hs.
    + destruct (random_model random_edges patterns num_edges w) as [[g1 w1]| |];
        simpl in H; try done.
      destruct (the_score alpha g1 None None w1) as [s1 w2]. by eapply IH.
    + simplify_eq. by rewrite <- Qltb_lt, Hs.
Qed.

(** X4. Whatever model is supplied, the search starts its main loop from
    a score that is not below 0.4. *)
Theorem start_score_floor fuel alpha patterns num_edges hop_graph (w : World) g s w' :
  the_start fuel alpha patterns num_edges hop_graph w = Ok (g, s, w') →
  ¬ (s < 4 # 10)%Q.
Proof.
  unfold initial_state. intros H.
  destruct (match hop_graph with Some g0 => _ | None => _ end) as [[g0 w0]| |];
    simpl in H; try done.
  destruct (the_score alpha g0 None None w0) as [s0 w1]. by eapply warm_loop_floor.
Qed.

(** X5. Without patterns the search cannot build a random model: it
    raises [TypeError] when no model is supplied, and also when the
    supplied model scores below 0.4. *)
Theorem search_needs_patterns fuel num_edges max_iter moves beta alpha save freq (w : World) :
  the_search fuel None num_edges max_iter moves beta None alpha save freq w = Raise TypeError
  ∧ ∀ g s w1, the_score alpha g None None w = (s, w1) → (s < 4 # 10)%Q →
      the_search (S fuel) None num_edges max_iter moves beta (Some g) alpha save freq w
      = Raise TypeError.
Proof.
  split; [done|]. intros g s w1 Hs Hlt.
  unfold metropolis_hastings, initial_state. simpl. rewrite Hs. simpl.
  apply Qltb_lt in Hlt. by rewrite Hlt.
Qed.

End SearchFacts.

Lemma search_history_lengths_witness :
  ∃ best perf_hist cost_hist in_group_hist w2,
    Demo.metropolis_hastings 0 (Some Demo.patterns) (Some 0%Z) 7 1 (3 # 10)
      (Some Demo.sparse) (1 # 2) false 10000 ()
    = Ok (best, (perf_hist, cost_hist, in_group_hist), w2)
    ∧ length perf_hist = Z.to_nat 7
    ∧ length cost_hist = Z.to_nat 7
    ∧ length in_group_hist = Z.to_nat ((7 + 4) / 5).
Proof.
  eapply (search_history_lengths Demo.random_edges Demo.random_edge Demo.rewire
            Demo.hopfield_performance Demo.wiring_cost_energy Demo.prop_in_group_edges
            Demo.np_exp Demo.np_binomial).
  - lia.
  - vm_compute. reflexivity.
Defined.

Lemma search_negative_budget_witness :
  Demo.metropolis_hastings 0 (Some Demo.patterns) (Some 0%Z) (-3) 1 (3 # 10)
    (Some Demo.sparse) (1 # 2) true 0 ()
  = Ok (Demo.sparse, ([], [], []), ()).
Proof.
  eapply (search_negative_budget Demo.random_edges Demo.random_edge Demo.rewire
            Demo.hopfield_performance Demo.wiring_cost_energy Demo.prop_in_group_edges
            Demo.np_exp Demo.np_binomial).
  - lia.
  - vm_compute. reflexivity.
Defined.

Lemma search_without_moves_witness :
  ∃ hist,
    Demo.metropolis_hastings 0 (Some Demo.patterns) (Some 0%Z) 3 0 (3 # 10)
      (Some Demo.sparse) (1 # 2) false 10000 ()
    = Ok (Demo.sparse, hist, ()).
Proof.
  assert (∃ best hist, Demo.metropolis_hastings 0 (Some Demo.patterns) (Some 0%Z) 3 0
                         (3 # 10) (Some Demo.sparse) (1 # 2) false 10000 ()
                       = Ok (best, hist, ())) as (best & hist & Hrun).
  { eexists _, _. vm_compute. reflexivity. }
  exists hist. rewrite Hrun. do 3 f_equal.
  eapply (search_without_moves Demo.random_edges Demo.random_edge Demo.rewire
            Demo.hopfield_performance Demo.wiring_cost_energy Demo.prop_in_group_edges
            Demo.np_exp Demo.np_binomial 0 (Some Demo.patterns) (Some 0%Z) 3 0 (3 # 10)
            (Some Demo.sparse) (1 # 2) false 10000 ()); [lia| |exact Hrun].
  vm_compute. reflexivity.
Defined.

Lemma start_score_floor_witness :
  ∃ g s, Demo.initial_state 1 (1 # 2) (Some Demo.patterns) (Some 0%Z) (Some Demo.dense) ()
         = Ok (g, s, ())
         ∧ ¬ (s < 4 # 10)%Q.
Proof.
  eexists _, _. split; [vm_compute; reflexivity|].
  eapply (start_score_floor Demo.random_edges Demo.hopfield_performance
            Demo.wiring_cost_energy 1 (1 # 2) (Some Demo.patterns) (Some 0%Z)
            (Some Demo.dense) ()).
  vm_compute. reflexivity.
Defined.

Lemma search_needs_patterns_witness :
  Demo.metropolis_hastings 1 None (Some 0%Z) 5 1 (3 # 10) (Some Demo.dense) (1 # 2)
    false 10000 ()
  = Raise TypeError.
Proof.
  eapply (proj2 (search_needs_patterns Demo.random_edges Demo.random_edge Demo.rewire
                   Demo.hopfield_performance Demo.wiring_cost_energy
                   Demo.prop_in_group_edges Demo.np_exp Demo.np_binomial
                   0 (Some 0%Z) 5 1 (3 # 10) (1 # 2) false 10000 ())).
  - vm_compute. reflexivity.
  - reflexivity.
Defined.

(** * Further properties of the builders *)

(** What [n] removals of a smallest edge leave: a subgraph in which the
    kept edges have their weights, each at least as strong as every edge
    that went. *)
Lemma removal_chain_strongest n g g' :
  removal_chain n g g' →
  edge_subset g' g
  ∧ (∀ a b, entry (adj_matrix g') a b = Some 1%Z →
            entry (weights g') a b = entry (weights g) a b)
  ∧ (∀ i j i' j' w w', j < i → j' < i' →
       entry (adj_matrix g) i j = Some 1%Z → entry (adj_matrix g') i j ≠ Some 1%Z →
       entry (adj_matrix g') i' j' = Some 1%Z →
       entry (weights g) i j = Some w → entry (weights g) i' j' = Some w' →
       (Qabs w <= Qabs w')%Q).
Proof.
  induction 1 as [g|n g g1 g' Hrem Hchain (IHsub & IHw & IHmin)].
  { split_and!; [by intros ??|done|]. intros; done. }
  destruct Hrem as (i0 & j0 & w0 & Hlt0 & Hadj0 & Hw0 & Hmin0 & _ & _ & _ & Ha & Hw).
  assert (edge_subset g1 g) as Hsub1.
  { intros a b. rewrite Ha. by case_bool_decide. }
  assert (∀ a b, entry (adj_matrix g1) a b = Some 1%Z →
                 entry (weights g1) a b = entry (weights g) a b) as Hw1.
  { intros a b. rewrite Ha, Hw. by case_bool_decide. }
  split_and!.
  - intros a b Hab. by apply Hsub1, IHsub.
  - intros a b Hab. rewrite IHw by done. by apply Hw1, IHsub.
  - intros i j i' j' w w' Hij Hij' Hadj Hgone Hkept Hwij Hwij'.
    destruct (decide ((i, j) = (i0, j0))) as [[= -> ->]|Hne].
    + rewrite Hw0 in Hwij. simplify_eq.
      apply (Hmin0 i' j'); [done| |done]. by apply Hsub1, IHsub.
    + assert (entry (adj_matrix g1) i j = Some 1%Z) as Hadj1.
      { rewrite Ha. rewrite bool_decide_eq_false_2; [done|].
        intros [[-> ->]|[-> ->]]; [done|lia]. }
      apply (IHmin i j i' j'); try done.
      * by rewrite Hw1.
      * rewrite Hw1; [done|]. by apply IHsub.
Qed.

Section PruneMore.
Context {World : Type}.
Variable shuffle : ∀ A : Type, list A → World → list A * World.
Hypothesis shuffle_perm : ∀ A (l : list A) w, (shuffle A l w).1 ≡ₚ l.

(** X6. From a prunable base model, given or trained, and for a target
    [k] between 0 and its edge count, [pruned_hopfield] returns a model
    with exactly [k] edges, all of them edges of the base model with the
    weights they had there, and no removed edge is stronger than a kept
    one: the result holds [k] edges of largest magnitude. *)
Theorem prune_keeps_strongest patterns (k : Z) graph flag (w : World) g0 :
  prune_base patterns graph = Ok (length (nodes g0), g0) → prunable g0 →
  (0 ≤ k ≤ Z.of_nat (num_edges g0))%Z →
  ∃ g w',
    pruned_hopfield shuffle patterns k graph flag w = Ok (g, w')
    ∧ Z.of_nat (num_edges g) = k
    ∧ edge_subset g g0
    ∧ (∀ a b, entry (adj_matrix g) a b = Some 1%Z →
              entry (weights g) a b = entry (weights g0) a b)
    ∧ (∀ i j i' j' x x', j < i → j' < i' →
         entry (adj_matrix g0) i j = Some 1%Z → entry (adj_matrix g) i j ≠ Some 1%Z →
         entry (adj_matrix g) i' j' = Some 1%Z →
         entry (weights g0) i j = Some x → entry (weights g0) i' j' = Some x' →
         (Qabs x <= Qabs x')%Q).
Proof.
  intros Hbase Hpr Hk.
  destruct (pruned_hopfield_run shuffle shuffle_perm patterns k graph flag w g0 Hbase Hpr)
    as [Hrun _].
  destruct Hrun as (g1 & w' & Hrun & _ & Hchain & Hcount); [lia|].
  destruct (removal_chain_strongest _ _ _ Hchain) as (Hsub & Hw & Hmin).
  exists (set_node_attributes g1), w'.
  split_and!; [done| |done..].
  rewrite set_node_attributes_num_edges. lia.
Qed.

End PruneMore.

Lemma prune_keeps_strongest_witness :
  ∃ g w',
    pruned_hopfield Demo.shuffle Demo.patterns 2 None true () = Ok (g, w')
    ∧ Z.of_nat (num_edges g) = 2%Z
    ∧ edge_subset g Demo.dense.
Proof.
  destruct (prune_base_trained Demo.patterns 4 eq_refl) as (Hbase & Hn & _ & Hpr).
  destruct (prune_keeps_strongest Demo.shuffle Demo_shuffle_perm Demo.patterns 2 None true ()
              Demo.dense Hbase Hpr) as (g & w' & Hrun & Hk & Hsub & _).
  - vm_compute. split; discriminate.
  - exists g, w'. split_and!; [exact Hrun|exact Hk|exact Hsub].
Defined.


(** ** Nearest neighbours *)

Lemma mapM_Ok {A B} (f : A → res B) (g : A → B) (l : list A) :
  (∀ x, x ∈ l → f x = Ok (g x)) → mapM f l = Ok (g <$> l).
Proof.
  induction l as [|x l IH]; intros Hf; [done|].
  simpl. rewrite Hf by left. simpl. rewrite IH by (intros; apply Hf; by right). done.
Qed.

(** Lines 205-208: one entry per node, [i] included. *)
Lemma neighbor_queue g i :
  square (length (nodes g)) (full_weights g) → i < length (nodes g) →
  ∃ pq, for_each (seq 0 (length (nodes g)))
          (λ j pq, ij_weight ← mget (full_weights g) i j;
                   Ok (pq ++ [mkEntry j (- Qabs ij_weight)%Q])) []
        = Ok pq
        ∧ item <$> pq = seq 0 (length (nodes g))
        ∧ ∀ e, e ∈ pq → ∃ x, entry (full_weights g) i (item e) = Some x
                              ∧ priority e = (- Qabs x)%Q.
Proof.
  intros Hsq Hi.
  set (f := λ j, match entry (full_weights g) i j with
                 | Some x => [mkEntry j (- Qabs x)%Q]
                 | None => []
                 end).
  exists (seq 0 (length (nodes g)) ≫= f). split_and!.
  - rewrite (for_each_collect _ f); [done|].
    intros j acc Hj%elem_of_seq. subst f. simpl.
    destruct (square_entry _ _ i j Hsq) as [x Hx]; [lia..|].
    rewrite Hx. by rewrite (proj2 (mget_entry _ _ _ _) Hx).
  - assert (∀ l, (∀ j, j ∈ l → j < length (nodes g)) → item <$> (l ≫= f) = l) as Hitems.
    { induction l as [|j l IH]; intros Hl; [done|].
      rewrite bind_cons, fmap_app, IH by (intros; apply Hl; by right).
      subst f. simpl. destruct (square_entry _ _ i j Hsq) as [x ->]; [lia| |done].
      apply Hl. by left. }
    apply Hitems. intros j Hj%elem_of_seq. lia.
  - intros e (j & He & Hj)%list_elem_of_bind. subst f. simpl in He.
    destruct (entry (full_weights g) i j) as [x|] eqn:Hx; [|by apply elem_of_nil in He].
    apply list_elem_of_singleton in He as ->. simpl. eauto.
Qed.

Lemma picking_step pq0 pq neighbors :
  NoDup (item <$> pq0) → picking pq0 pq neighbors → pq ≠ [] →
  ∃ r pq', Heapq.heappop Entry_lt pq = Ok (r, pq')
           ∧ picking pq0 pq' (neighbors ∪ {[item r]})
           ∧ length pq = S (length pq').
Proof.
  intros Hnd0 (Hheap & Hnd & Hsub & Hpicked & Hcover & Hsize & Hle) Hne.
  destruct (heappop_spec Entry_lt Entry_lt_irrefl Entry_lt_asym Entry_le_trans pq Hne Hheap)
    as (r & pq' & Hpop & Hperm & Hheap' & Hmin).
  exists r, pq'. split; [done|].
  assert (r ∈ pq) as Hr by (rewrite Hperm; by left).
  assert (NoDup (item r :: (item <$> pq'))) as Hnd'.
  { rewrite <- fmap_cons, <- Hperm. done. }
  apply NoDup_cons in Hnd' as [Hfresh Hnd'].
  assert (∀ e, e ∈ pq' → e ∈ pq) as Hsub' by (intros e He; rewrite Hperm; by right).
  assert (item r ∉ neighbors) as Hnew.
  { intros Hin. destruct (Hpicked _ Hin) as [_ Hout]. apply Hout.
    by apply list_elem_of_fmap_2. }
  split; [|by rewrite Hperm].
  split_and!; [done|done|by auto| | | |].
  - intros j [Hj|Hj%elem_of_singleton]%elem_of_union.
    + destruct (Hpicked _ Hj) as [Hin Hout]. split; [done|].
      intros (e & -> & He)%list_elem_of_fmap. apply Hout.
      by apply list_elem_of_fmap_2, Hsub'.
    + subst j. split; [|done]. by apply list_elem_of_fmap_2, Hsub.
  - intros e He. destruct (Hcover e He) as [Hin|Hin]; [left; set_solver|].
    rewrite Hperm in Hin. apply elem_of_cons in Hin as [->|Hin]; [left; set_solver|by right].
  - rewrite size_union by set_solver. rewrite size_singleton.
    rewrite Hperm in Hsize. simpl in Hsize. lia.
  - intros e e' He [Hin|Hin%elem_of_singleton]%elem_of_union He'.
    + by apply (Hle e e'); auto.
    + assert (e = r) as ->.
      { apply list_elem_of_lookup in He as [a Ha].
        destruct (list_elem_of_lookup_1 _ _ (Hsub _ Hr)) as [b Hb].
        assert (a = b) as ->; [|congruence].
        eapply NoDup_lookup; [exact Hnd0| |].
        - by rewrite list_lookup_fmap, Ha.
        - rewrite list_lookup_fmap, Hb. simpl. by rewrite Hin. }
      apply Entry_le_priority. apply Hmin. by apply Hsub'.
Qed.

Lemma picking_turns pq0 n : ∀ pq neighbors,
  NoDup (item <$> pq0) → picking pq0 pq neighbors → n ≤ length pq →
  ∃ pq' neighbors',
    repeat_n n (λ '(pq, neighbors),
                  '(neighbor, pq) ← Heapq.heappop Entry_lt pq;
                  Ok (pq, neighbors ∪ {[item neighbor]})) (pq, neighbors)
    = Ok (pq', neighbors')
    ∧ picking pq0 pq' neighbors' ∧ length pq = n + length pq'.
Proof.
  induction n as [|n IH]; intros pq neighbors Hnd Hpick Hn.
  { by exists pq, neighbors. }
  destruct (picking_step pq0 pq neighbors Hnd Hpick) as (r & pq1 & Hpop & Hpick1 & Hlen).
  { intros ->. simpl in Hn. lia. }
  destruct (IH pq1 (neighbors ∪ {[item r]}) Hnd Hpick1) as (pq2 & S2 & Hrun & Hpick2 & Hlen2);
    [lia|].
  exists pq2, S2. rewrite repeat_n_S, Hpop. simpl. split_and!; [done|done|lia].
Qed.

Lemma picking_exhaust pq0 n : ∀ pq neighbors,
  NoDup (item <$> pq0) → picking pq0 pq neighbors → length pq < n →
  repeat_n n (λ '(pq, neighbors),
                '(neighbor, pq) ← Heapq.heappop Entry_lt pq;
                Ok (pq, neighbors ∪ {[item neighbor]})) (pq, neighbors)
  = Raise IndexError.
Proof.
  induction n as [|n IH]; intros pq neighbors Hnd Hpick Hn; [lia|].
  rewrite repeat_n_S. destruct pq as [|e pq]; [done|].
  destruct (picking_step pq0 (e :: pq) neighbors Hnd Hpick) as (r & pq1 & Hpop & Hpick1 & Hlen);
    [done|].
  rewrite Hpop. simpl. apply IH; [done..|]. simpl in Hlen, Hn. lia.
Qed.

Lemma picking_start pq0 :
  Heapq.is_heap Entry_lt pq0 → NoDup (item <$> pq0) → picking pq0 pq0 ∅.
Proof.
  intros Hheap Hnd. split_and!; try done; try set_solver; auto.
Qed.

(** [node_neighbors] on a square weight table: for [0 <= k <= N] a set
    of [k] nodes below [N], none of the nodes left out being closer to
    [i] than a chosen one; for [k > N] the queue runs empty. *)
Lemma node_neighbors_spec g (k : Z) i :
  square (length (nodes g)) (full_weights g) → i < length (nodes g) →
  ((0 ≤ k ≤ Z.of_nat (length (nodes g)))%Z →
     ∃ neighbors, node_neighbors g k i = Ok neighbors
       ∧ size neighbors = Z.to_nat k
       ∧ (∀ j, j ∈ neighbors → j < length (nodes g))
       ∧ (∀ j j' x x', j ∈ neighbors → j' ∉ neighbors →
            entry (full_weights g) i j = Some x → entry (full_weights g) i j' = Some x' →
            (Qabs x' <= Qabs x)%Q))
  ∧ ((Z.of_nat (length (nodes g)) < k)%Z → node_neighbors g k i = Raise IndexError).
Proof.
  intros Hsq Hi. unfold node_neighbors.
  destruct (neighbor_queue g i Hsq Hi) as (cand & -> & Hitems & Hprio). simpl.
  destruct (heapify_spec Entry_lt Entry_lt_irrefl Entry_lt_asym Entry_le_trans cand)
    as (pq0 & -> & Hheap & Hperm). simpl.
  assert (item <$> pq0 ≡ₚ seq 0 (length (nodes g))) as Hitems0 by (by rewrite Hperm, Hitems).
  assert (NoDup (item <$> pq0)) as Hnd0 by (rewrite Hitems0; apply NoDup_seq).
  assert (length pq0 = length (nodes g)) as Hlen0.
  { rewrite <- (length_fmap item), Hitems0. apply length_seq. }
  pose proof (picking_start pq0 Hheap Hnd0) as Hstart.
  split.
  - intros Hk.
    destruct (picking_turns pq0 (Z.to_nat k) pq0 ∅ Hnd0 Hstart)
      as (pq' & S' & -> & Hpick & Hlen); [lia|].
    simpl. exists S'. split; [done|].
    destruct Hpick as (_ & _ & Hsub & Hpicked & Hcover & Hsize & Hle).
    split_and!.
    + lia.
    + intros j Hj. destruct (Hpicked j Hj) as [Hin _].
      rewrite Hitems0 in Hin. apply elem_of_seq in Hin. lia.
    + intros j j' x x' Hj Hj' Hx Hx'.
      destruct (Hpicked j Hj) as [(e & -> & He)%list_elem_of_fmap _].
      assert (j' ∈ item <$> pq0) as (e' & -> & He')%list_elem_of_fmap.
      { rewrite Hitems0. apply elem_of_seq.
        destruct (square_entry_lt _ _ _ _ _ Hsq Hx'). lia. }
      destruct (Hcover e' He') as [?|Hq]; [done|].
      pose proof (Hle e e' He Hj Hq) as Hpe.
      destruct (Hprio e) as (y & Hy & Hpy); [by rewrite <- Hperm|].
      destruct (Hprio e') as (y' & Hy' & Hpy'); [by rewrite <- Hperm|].
      rewrite Hx in Hy. rewrite Hx' in Hy'. simplify_eq.
      rewrite Hpy, Hpy' in Hpe.
      apply Qopp_le_compat in Hpe. by rewrite !Qopp_involutive in Hpe.
  - intros Hk. rewrite (picking_exhaust pq0 (Z.to_nat k) pq0 ∅ Hnd0 Hstart); [done|lia].
Qed.


(** ** The edges of the lattice *)

(** A loop whose turns only add to a set adds the union of what the
    turns add. *)
Lemma for_each_union {A S P} (E : S → P → Prop) (W : A → P → Prop) (xs : list A)
    (body : A → S → res S) :
  (∀ x s s', x ∈ xs → body x s = Ok s' → ∀ p, E s' p ↔ E s p ∨ W x p) →
  ∀ s s', for_each xs body s = Ok s' →
    ∀ p, E s' p ↔ E s p ∨ ∃ x, x ∈ xs ∧ W x p.
Proof.
  induction xs as [|x xs IH]; intros Hbody s s' Hrun p; simpl in Hrun.
  - simplify_eq. split; [by left|]. intros [?|(x & Hx & _)]; [done|]. by apply elem_of_nil in Hx.
  - destruct (body x s) as [s1| |] eqn:Hs1; simpl in Hrun; try done.
    rewrite (IH (λ y u u' Hy, Hbody y u u' (list_elem_of_further _ _ _ Hy)) _ _ Hrun p).
    rewrite (Hbody x s s1 ltac:(left) Hs1 p). split.
    + intros [[?|?]|(y & Hy & ?)]; [by left|right; exists x; split; [left|done]|].
      right. exists y. split; [by right|done].
    + intros [?|(y & [->|Hy]%elem_of_cons & ?)]; [by left; left|by left; right|].
      right. by exists y.
Qed.

Lemma make_edge_adds i j g g' :
  make_edge i j g = Ok g' →
  ∀ p : nat * nat, entry (adj_matrix g') p.1 p.2 = Some 1%Z
    ↔ entry (adj_matrix g) p.1 p.2 = Some 1%Z ∨ (p = (i, j) ∨ p = (j, i)).
Proof.
  intros (_ & _ & _ & _ & _ & Ha & _)%make_edge_spec [a c]. simpl. rewrite Ha.
  case_bool_decide as Hp; split; try naive_solver.
Qed.

(** The loop of lines 231-237 puts a one exactly at the pairs [(i, j)]
    and [(j, i)] for which [j] was chosen for a node [i < N] and, when
    [intersection] is set, [i] was chosen for [j] as well. *)
Lemma lattice_edges_ones N neighbors intersection g0 g :
  lattice_edges N neighbors intersection g0 = Ok g →
  ∀ a c, entry (adj_matrix g) a c = Some 1%Z
    ↔ entry (adj_matrix g0) a c = Some 1%Z
      ∨ ∃ i j, i < N ∧ chosen neighbors i j
               ∧ (intersection = true → chosen neighbors j i)
               ∧ ((a = i ∧ c = j) ∨ (a = j ∧ c = i)).
Proof.
  unfold lattice_edges. intros Hrun a c.
  set (E := λ (g : HopfieldGraph) (p : nat * nat), entry (adj_matrix g) p.1 p.2 = Some 1%Z).
  set (W := λ i (p : nat * nat),
         ∃ j, chosen neighbors i j ∧ (intersection = true → chosen neighbors j i)
              ∧ (p = (i, j) ∨ p = (j, i))).
  assert (E g (a, c) ↔ E g0 (a, c) ∨ ∃ i, i ∈ seq 0 N ∧ W i (a, c)) as Hiff.
  { refine (for_each_union E W _ _ _ _ _ Hrun (a, c)).
    clear. intros i g g' _ Hbody p.
    destruct (neighbors !! i) as [ni|] eqn:Hni; simpl in Hbody; [|done].
    set (V := λ j (p : nat * nat),
           (intersection = true → chosen neighbors j i) ∧ (p = (i, j) ∨ p = (j, i))).
    assert (E g' p ↔ E g p ∨ ∃ j, j ∈ elements ni ∧ V j p) as Hin.
    { refine (for_each_union E V _ _ _ _ _ Hbody p).
      clear Hbody. intros j u u' _ Hstep q. subst E V. simpl. destruct intersection.
      - destruct (neighbors !! j) as [nj|] eqn:Hnj; simpl in Hstep; [|done].
        case_bool_decide as Hmut.
        + rewrite (make_edge_adds _ _ _ _ Hstep q). split; [|naive_solver].
          intros [?|?]; [by left|right]. split; [|done]. intros _. by exists nj.
        + simplify_eq. split; [by left|]. intros [?|[Hch _]]; [done|].
          destruct (Hch eq_refl) as (nj' & ? & ?). by simplify_eq.
      - rewrite (make_edge_adds _ _ _ _ Hstep q). naive_solver. }
    rewrite Hin. subst W V. simpl. split; (intros [?|Hw]; [by left|right]).
    - destruct Hw as (j & Hj%elem_of_elements & ? & ?). exists j.
      split_and!; [by exists ni|done..].
    - destruct Hw as (j & (ni' & ? & Hj) & ? & ?). simplify_eq.
      exists j. split; [by apply elem_of_elements|]. by split. }
  subst E W. simpl in Hiff. rewrite Hiff.
  split; (intros [?|Hw]; [by left|right]).
  - destruct Hw as (i & Hi%elem_of_seq & j & ? & ? & Hp). exists i, j.
    split_and!; [lia|done|done|naive_solver].
  - destruct Hw as (i & j & Hi & ? & ? & Hp). exists i. split; [apply elem_of_seq; lia|].
    exists j. split_and!; [done|done|naive_solver].
Qed.

Lemma trained_empty_adj N states a c :
  entry (adj_matrix (train (HopfieldGraph_init (empty_graph N) states))) a c ≠ Some 1%Z.
Proof. simpl. rewrite tabulate_entry. by case_bool_decide. Qed.

(** X8. The ones of the adjacency matrix [hopfield_lattice] returns are
    the pairs of a node and one of its chosen neighbours, in both
    directions, restricted to mutual choices when [intersection] is set. *)
Theorem hopfield_lattice_edges states k intersection g :
  hopfield_lattice states k intersection = Ok g →
  ∃ N neighbors,
    pattern_length states = Ok N
    ∧ nearest_neighbors (train (HopfieldGraph_init (empty_graph N) states)) k = Ok neighbors
    ∧ ∀ a c, entry (adj_matrix g) a c = Some 1%Z
        ↔ ∃ i j, i < N ∧ chosen neighbors i j
                 ∧ (intersection = true → chosen neighbors j i)
                 ∧ ((a = i ∧ c = j) ∨ (a = j ∧ c = i)).
Proof.
  unfold hopfield_lattice.
  destruct (pattern_length states) as [N| |] eqn:HN; simpl; try done.
  destruct (nearest_neighbors _ k) as [neighbors| |] eqn:Hnb; simpl; try done.
  destruct (lattice_edges N neighbors intersection _) as [g1| |] eqn:Hloop; simpl; try done.
  intros [= <-]. exists N, neighbors. split_and!; [done..|].
  intros a c. simpl. rewrite (lattice_edges_ones _ _ _ _ _ Hloop a c).
  split; [|by right]. intros [Hold|?]; [|done]. by apply trained_empty_adj in Hold.
Qed.

Lemma hopfield_lattice_edges_witness :
  ∃ g, hopfield_lattice Demo.patterns 1 true = Ok g
       ∧ ∃ N neighbors,
           pattern_length Demo.patterns = Ok N
           ∧ nearest_neighbors (train (HopfieldGraph_init (empty_graph N) Demo.patterns)) 1
             = Ok neighbors
           ∧ ∀ a c, entry (adj_matrix g) a c = Some 1%Z
               ↔ ∃ i j, i < N ∧ chosen neighbors i j
                        ∧ (true = true → chosen neighbors j i)
                        ∧ ((a = i ∧ c = j) ∨ (a = j ∧ c = i)).
Proof.
  eexists. split; [vm_compute; reflexivity|].
  apply (hopfield_lattice_edges Demo.patterns 1 true). vm_compute. reflexivity.
Defined.

(** ** The range of the neighbour count *)

Lemma mapM_total {A B} (P : A → B → Prop) (f : A → res B) (l : list A) :
  (∀ x, x ∈ l → ∃ y, f x = Ok y ∧ P x y) →
  ∃ l', mapM f l = Ok l' ∧ Forall2 P l l'.
Proof.
  induction l as [|x l IH]; intros Hf.
  { exists []. split; [done|constructor]. }
  destruct (Hf x) as (y & Hy & HP); [left|].
  destruct IH as (l' & Hl' & Hall); [intros; apply Hf; by right|].
  exists (y :: l'). simpl. rewrite Hy. simpl. rewrite Hl'. simpl.
  split; [done|by constructor].
Qed.

Lemma for_each_total {A S} (P : S → Prop) (xs : list A) (body : A → S → res S) :
  (∀ x s, x ∈ xs → P s → ∃ s', body x s = Ok s' ∧ P s') →
  ∀ s, P s → ∃ s', for_each xs body s = Ok s' ∧ P s'.
Proof.
  induction xs as [|x xs IH]; intros Hbody s Hs; [by exists s|].
  destruct (Hbody x s) as (s1 & Hs1 & HP1); [left|done|].
  destruct (IH (λ y u Hy, Hbody y u (list_elem_of_further _ _ _ Hy)) s1 HP1) as (s' & Hrun & HP').
  exists s'. simpl. rewrite Hs1. simpl. done.
Qed.

Lemma filter_none {A} (P : A → Prop) `{∀ x, Decision (P x)} (l : list A) :
  (∀ x, x ∈ l → ¬ P x) → filter P l = [].
Proof.
  induction l as [|x l IH]; intros Hl; [done|].
  rewrite filter_cons_False by (apply Hl; left). apply IH. intros y Hy. apply Hl. by right.
Qed.

Lemma node_neighbors_clamp g (k : Z) i :
  node_neighbors g k i = node_neighbors g (Z.of_nat (Z.to_nat k)) i.
Proof. unfold node_neighbors. by rewrite Nat2Z.id. Qed.

(** X7. On a square weight table of [N] rows and for [0 <= k <= N],
    [nearest_neighbors] answers one set per node, each of exactly [k]
    nodes below [N], and no node left out of the set of [i] has a weight
    to [i] of larger magnitude than a chosen one.  For [k > N >= 1] the
    queue runs empty and the call raises [IndexError]. *)
Theorem nearest_neighbors_top_k g (k : Z) :
  square (length (nodes g)) (full_weights g) →
  ((0 ≤ k ≤ Z.of_nat (length (nodes g)))%Z →
     ∃ neighbors, nearest_neighbors g k = Ok neighbors
       ∧ length neighbors = length (nodes g)
       ∧ ∀ i ni, neighbors !! i = Some ni →
           size ni = Z.to_nat k
           ∧ (∀ j, j ∈ ni → j < length (nodes g))
           ∧ (∀ j j' x x', j ∈ ni → j' ∉ ni →
                entry (full_weights g) i j = Some x →
                entry (full_weights g) i j' = Some x' →
                (Qabs x' <= Qabs x)%Q))
  ∧ ((Z.of_nat (length (nodes g)) < k)%Z → 0 < length (nodes g) →
       nearest_neighbors g k = Raise IndexError).
Proof.
  intros Hsq. unfold nearest_neighbors. split.
  - intros Hk.
    destruct (mapM_total
      (λ i ni, size ni = Z.to_nat k
         ∧ (∀ j, j ∈ ni → j < length (nodes g))
         ∧ (∀ j j' x x', j ∈ ni → j' ∉ ni →
              entry (full_weights g) i j = Some x →
              entry (full_weights g) i j' = Some x' →
              (Qabs x' <= Qabs x)%Q))
      (node_neighbors g k) (seq 0 (length (nodes g)))) as (neighbors & Hrun & Hall).
    { intros i Hi%elem_of_seq.
      destruct (node_neighbors_spec g k i Hsq) as [Hin _]; [lia|].
      destruct (Hin Hk) as (ni & ? & ?). by exists ni. }
    exists neighbors. split; [done|]. split.
    { apply Forall2_length in Hall. by rewrite length_seq in Hall. }
    intros i ni Hni.
    destruct (Forall2_lookup_r _ _ _ _ _ Hall Hni) as (i' & Hi' & HP).
    apply lookup_seq in Hi' as [-> _]. done.
  - intros Hk HN. destruct (length (nodes g)) as [|N] eqn:HlenN; [lia|].
    simpl. destruct (node_neighbors_spec g k 0 ltac:(by rewrite HlenN)) as [_ Hout]; [lia|].
    rewrite Hout; [done|lia].
Qed.

Lemma nearest_neighbors_top_k_witness :
  ∃ neighbors, nearest_neighbors Demo.sparse 2 = Ok neighbors
    ∧ length neighbors = 4
    ∧ ∀ i ni, neighbors !! i = Some ni → size ni = 2.
Proof.
  destruct (nearest_neighbors_top_k Demo.sparse 2 (tabulate_square 4 _)) as [Hin _].
  destruct Hin as (neighbors & Hrun & Hlen & Hall); [simpl; lia|].
  exists neighbors. split_and!; [done..|].
  intros i ni Hni. by destruct (Hall i ni Hni).
Defined.

Lemma make_edge_total N i j g :
  square N (adj_matrix g) → square N (weights g) → i < N → j < N →
  ∃ g', make_edge i j g = Ok g'.
Proof.
  intros Ha Hw Hi Hj. unfold make_edge, train_edge.
  destruct (mset_is_Ok (adj_matrix g) i j 1%Z) as [a1 Ha1]; [by eapply square_entry|].
  pose proof (mset_square _ _ _ _ _ _ Ha1 Ha) as Hsq1.
  destruct (mset_is_Ok a1 j i 1%Z) as [a2 Ha2]; [by eapply square_entry|].
  rewrite Ha1. simpl. rewrite Ha2. simpl.
  destruct (mset_is_Ok (weights g) i j
              (trained_weight (stored_states g) a2 i j)) as [w1 Hw1]; [by eapply square_entry|].
  pose proof (mset_square _ _ _ _ _ _ Hw1 Hw) as Hsqw.
  destruct (mset_is_Ok w1 j i
              (trained_weight (stored_states g) a2 i j)) as [w2 Hw2]; [by eapply square_entry|].
  rewrite Hw1. simpl. rewrite Hw2. simpl. eauto.
Qed.

(** The loop of lines 231-237 runs through when every node has its set
    of neighbours and the sets hold nodes of the graph. *)
Lemma lattice_edges_total N neighbors b g :
  length neighbors = N →
  (∀ i ni j, neighbors !! i = Some ni → j ∈ ni → j < N) →
  square N (adj_matrix g) → square N (weights g) →
  ∃ g', lattice_edges N neighbors b g = Ok g'.
Proof.
  intros Hlen Hin Ha Hw. unfold lattice_edges.
  destruct (for_each_total
    (λ g : HopfieldGraph, square N (adj_matrix g) ∧ square N (weights g)) (seq 0 N)
    (λ i g,
      ni ← match neighbors !! i with
           | Some ni => Ok ni
           | None => Raise IndexError
           end;
      for_each (elements ni) (λ j g,
        if b then
          nj ← match neighbors !! j with
               | Some nj => Ok nj
               | None => Raise IndexError
               end;
          if bool_decide (i ∈ (nj : gset nat)) then make_edge i j g else Ok g
        else make_edge i j g) g)) with g as (g' & Hrun & _); [|done|by exists g'].
  intros i s Hi%elem_of_seq Hs.
  destruct (lookup_lt_is_Some_2 neighbors i) as [ni Hni]; [lia|].
  rewrite Hni. simpl.
  apply for_each_total; [|done].
  intros j u Hj%elem_of_elements [Hua Huw].
  pose proof (Hin i ni j Hni Hj) as HjN.
  assert (∃ u', make_edge i j u = Ok u'
                ∧ square N (adj_matrix u') ∧ square N (weights u')) as Hmake.
  { destruct (make_edge_total N i j u) as [u' Hu']; [done|done|lia|done|].
    exists u'. split; [done|].
    destruct (make_edge_spec _ _ _ _ Hu') as (_ & _ & _ & Hsa & Hsw & _). auto. }
  destruct b; [|done].
  destruct (lookup_lt_is_Some_2 neighbors j) as [nj Hnj]; [lia|].
  rewrite Hnj. simpl. case_bool_decide; [done|]. by exists u.
Qed.

(** X9. For stored patterns over [N] nodes, [hopfield_lattice] returns a
    model on [N] nodes for every neighbour count [k <= N], without edges
    when [k <= 0]; for [k > N >= 1] it raises [IndexError]. *)
Theorem hopfield_lattice_range states (k : Z) intersection N :
  pattern_length states = Ok N →
  ((k ≤ Z.of_nat N)%Z →
     ∃ g, hopfield_lattice states k intersection = Ok g
          ∧ length (nodes g) = N
          ∧ ((k ≤ 0)%Z → num_edges g = 0))
  ∧ ((Z.of_nat N < k)%Z → 0 < N →
       hopfield_lattice states k intersection = Raise IndexError).
Proof.
  intros HN. unfold hopfield_lattice. rewrite HN. simpl.
  set (g0 := train (HopfieldGraph_init (empty_graph N) states)).
  assert (length (nodes g0) = N) as Hnodes by (simpl; apply length_replicate).
  assert (square (length (nodes g0)) (full_weights g0)) as Hfull by apply tabulate_square.
  assert (square N (adj_matrix g0)) as Ha by apply tabulate_square.
  assert (square N (weights g0)) as Hw.
  { simpl. rewrite length_replicate. apply tabulate_square. }
  split.
  - intros Hk.
    destruct (mapM_total
      (λ (i : nat) (ni : gset nat), size ni = Z.to_nat k ∧ ∀ j, j ∈ ni → j < N)
      (node_neighbors g0 k) (seq 0 (length (nodes g0)))) as (neighbors & Hnb & Hall).
    { intros i Hi%elem_of_seq. rewrite node_neighbors_clamp.
      destruct (node_neighbors_spec g0 (Z.of_nat (Z.to_nat k)) i Hfull) as [Hin _]; [lia|].
      destruct Hin as (ni & Hni & Hsize & Hlt & _); [lia|].
      exists ni. rewrite Nat2Z.id in Hsize. rewrite Hnodes in Hlt. done. }
    unfold nearest_neighbors. rewrite Hnb. simpl.
    assert (∀ i ni, neighbors !! i = Some ni →
              size ni = Z.to_nat k ∧ ∀ j, j ∈ ni → j < N) as Hsets.
    { intros i ni Hni. by destruct (Forall2_lookup_r _ _ _ _ _ Hall Hni) as (? & _ & ?). }
    destruct (lattice_edges_total N neighbors intersection g0) as [g1 Hg1]; [|naive_solver|done..|].
    { apply Forall2_length in Hall. rewrite length_seq in Hall. lia. }
    rewrite Hg1. simpl. eexists. split; [done|]. split.
    { simpl. rewrite length_imap. by rewrite (lattice_edges_nodes _ _ _ _ _ Hg1). }
    intros Hk0. rewrite set_node_attributes_num_edges. unfold num_edges.
    rewrite filter_none; [done|].
    intros [a c] _ Hone. simpl in Hone.
    apply (lattice_edges_ones _ _ _ _ _ Hg1) in Hone as [Hold|(i & j & _ & Hch & _)].
    + by apply trained_empty_adj in Hold.
    + destruct Hch as (ni & Hni & Hj). destruct (Hsets i ni Hni) as (Hsize & _).
      assert (size ni = 0) as Hzero by lia.
      apply size_empty_inv in Hzero. set_solver.
  - intros Hk HposN. unfold nearest_neighbors. rewrite Hnodes.
    destruct N as [|N]; [lia|]. simpl.
    destruct (node_neighbors_spec g0 k 0 Hfull) as [_ Hout]; [lia|].
    rewrite Hout; [done|lia].
Qed.

Lemma hopfield_lattice_range_witness :
  (∃ g, hopfield_lattice Demo.patterns 0 false = Ok g
        ∧ length (nodes g) = 4 ∧ num_edges g = 0)
  ∧ hopfield_lattice Demo.patterns 5 false = Raise IndexError.
Proof.
  destruct (hopfield_lattice_range Demo.patterns 0 false 4 eq_refl) as [Hin _].
  destruct (hopfield_lattice_range Demo.patterns 5 false 4 eq_refl) as [_ Hout].
  split.
  - destruct Hin as (g & Hrun & Hlen & Hzero); [lia|].
    exists g. split_and!; [done..|]. by apply Hzero.
  - apply Hout; lia.
Defined.

(** * Further properties of the block model *)

(** One turn of the loop of lines 162-179 changes at most the entries
    [(i, j)] and [(j, i)], and only to a one. *)
Lemma sbm_pair_entries {World : Type} (uniform : World → Q * World)
    edge_probs states i j st st' :
  sbm_pair uniform edge_probs states i j st = Ok st' →
  ∀ a b, entry st'.1.1 a b = entry st.1.1 a b
         ∨ (entry st'.1.1 a b = Some 1%Z ∧ ((a = i ∧ b = j) ∨ (a = j ∧ b = i))).
Proof.
  destruct st as [[adj cache] w]. unfold sbm_pair. intros H a b.
  destruct (cached_pattern _ _ i cache) as [c1| |]; simpl in H; try done.
  destruct (cached_pattern _ _ j c1) as [c2| |]; simpl in H; try done.
  destruct (dict_get c2 i) as [pi| |]; simpl in H; try done.
  destruct (table_row edge_probs pi) as [[r row]| |]; simpl in H; try done.
  destruct (dict_get c2 j) as [pj| |]; simpl in H; try done.
  destruct (dict_get row pj) as [p| |]; simpl in H; try done.
  destruct (uniform w) as [u w1]. destruct (Qltb u p).
  - destruct (mset adj i j _) as [a1| |] eqn:E1; simpl in H; try done.
    destruct (mset a1 j i _) as [a2| |] eqn:E2; simpl in H; try done.
    simplify_eq. simpl.
    rewrite (mset_entry _ _ _ _ _ E2), (mset_entry _ _ _ _ _ E1).
    repeat case_bool_decide; naive_solver.
  - simplify_eq. by left.
Qed.

(** X10. The graph [hopfield_sbm] returns is simple: every entry of its
    adjacency matrix is 0 or 1 and the diagonal is zero, whatever the
    table and the draws. *)
Theorem hopfield_sbm_simple {World : Type} (uniform : World → Q * World)
    edge_probs states n (w : World) g ep' w' :
  hopfield_sbm uniform edge_probs states n w = Ok (g, ep', w') →
  ∀ a b x, entry (adj_matrix g) a b = Some x →
           (x = 0%Z ∨ x = 1%Z) ∧ (a = b → x = 0%Z).
Proof.
  unfold hopfield_sbm.
  destruct (pattern_length states) as [N| |]; simpl; try done.
  destruct (adjust_probs _ _ _) as [ep1| |]; simpl; try done.
  destruct (for_each _ _ _) as [[[adj cache] w1]| |] eqn:Hloop; simpl; try done.
  intros [= <- <- <-]. simpl.
  refine (for_each_inv
    (λ st : list (list Z) * gmap nat string * World,
       ∀ a b x, entry st.1.1 a b = Some x → (x = 0%Z ∨ x = 1%Z) ∧ (a = b → x = 0%Z))
    _ _ _ _ (adj, cache, w1) _ Hloop).
  - intros [i j] st st' Hij%elem_of_lower_pairs Hst Hstep a b x Hx. simpl in Hstep.
    destruct (sbm_pair_entries _ _ _ _ _ _ _ Hstep a b) as [Hsame|[Hone Hpos]].
    + apply Hst. by rewrite <- Hsame.
    + rewrite Hone in Hx. simplify_eq. split; [by right|]. lia.
  - intros a b x. simpl. rewrite tabulate_entry. case_bool_decide; [|done].
    intros [= <-]. split; [by left|done].
Qed.

Lemma hopfield_sbm_simple_witness :
  ∃ g ep',
    hopfield_sbm Demo.uniform Demo.edge_probs Demo.states 2 () = Ok (g, ep', ())
    ∧ num_edges g = 2
    ∧ ∀ a b x, entry (adj_matrix g) a b = Some x →
               (x = 0%Z ∨ x = 1%Z) ∧ (a = b → x = 0%Z).
Proof.
  eexists _, _. split; [vm_compute; reflexivity|].
  split; [vm_compute; reflexivity|].
  eapply (hopfield_sbm_simple Demo.uniform Demo.edge_probs Demo.states 2 ()).
  vm_compute. reflexivity.
Defined.

Lemma pair_probability_prob edge_probs states i j p :
  pair_probability edge_probs states i j = Ok p →
  ∃ s1 s2, prob edge_probs s1 s2 = Some p.
Proof.
  unfold pair_probability, prob, cell.
  destruct (node_pattern states i) as [si| |]; simpl; try done.
  destruct (node_pattern states j) as [sj| |]; simpl; try done.
  destruct (table_row edge_probs _) as [[r row]| |] eqn:Hrow; simpl; try done.
  apply table_row_spec in Hrow as [Hr Hrow]. unfold dict_get.
  destruct (row !! oriented (row_of edge_probs) sj) as [q|] eqn:Hq; simpl; try done.
  intros [= <-].
  exists (oriented (row_of edge_probs) si), (oriented (row_of edge_probs) sj).
  rewrite Hr. simpl. by rewrite Hrow.
Qed.

Lemma sharing_pos edge_probs s :
  is_Some (row_of edge_probs !! s) → 0 < sharing edge_probs s.
Proof.
  intros [r Hr]. unfold sharing, bound_to. rewrite Hr.
  assert (s ∈ filter (λ s' : string, row_of edge_probs !! s' = Some r)
                     (keys (row_of edge_probs))) as Hin.
  { apply list_elem_of_filter. split; [done|]. apply elem_of_keys. eauto. }
  destruct (filter _ _); [by apply elem_of_nil in Hin|simpl; lia].
Qed.

(** X11. Asked for zero edges, with a table whose inner keys are all
    outer keys and draws that are never negative, [hopfield_sbm] returns
    the model without edges: every probability is rescaled to zero. *)
Theorem hopfield_sbm_zero_target {World : Type} (uniform : World → Q * World)
    edge_probs states (w : World) g ep' w' :
  closed edge_probs →
  (∀ w0, (0 <= (uniform w0).1)%Q) →
  hopfield_sbm uniform edge_probs states 0 w = Ok (g, ep', w') →
  num_edges g = 0
  ∧ (∀ a b, entry (adj_matrix g) a b ≠ Some 1%Z)
  ∧ (∀ s1 s2 p, prob ep' s1 s2 = Some p → (p == 0)%Q).
Proof.
  intros Htable Hdraw. unfold hopfield_sbm.
  destruct (pattern_length states) as [N| |]; simpl; try done.
  unfold adjust_probs.
  destruct (node_groups _) as [groups| |]; simpl; try done.
  destruct (expected_edges groups edge_probs) as [expected| |]; simpl; try done.
  unfold adjustment_ratio. destruct (Qeq_bool expected 0); simpl; [done|].
  destruct (rescale _ edge_probs) as [ep1| |] eqn:Hres; simpl; try done.
  destruct (for_each _ _ _) as [[[adj cache] w1]| |] eqn:Hloop; simpl; try done.
  intros [= <- <- <-].
  assert (∀ s1 s2 p, prob ep1 s1 s2 = Some p → (p == 0)%Q) as Hzero.
  { intros s1 s2 p. rewrite (proj2 (rescale_spec _ _ _ Hres)). case_bool_decide as Hk.
    - destruct (prob edge_probs s1 s2) as [q|] eqn:Hq; simpl; [|done]. intros [= <-].
      assert (0 < sharing edge_probs s1) as Hpos.
      { apply sharing_pos. unfold prob in Hq.
        by destruct (row_of edge_probs !! s1). }
      destruct (sharing edge_probs s1) as [|m]; [lia|]. simpl.
      unfold Qdiv. change (inject_Z (2 * 0)) with 0%Q. ring.
    - intros Hp. exfalso. apply Hk. apply (Htable s1 s2). by rewrite Hp. }
  assert (adj = tabulate N (λ _ _, 0%Z) ∧ cache_ok ep1 states cache) as Hinv;
    [|clear Hloop].
  { refine (for_each_inv
      (λ st : list (list Z) * gmap nat string * World,
         st.1.1 = tabulate N (λ _ _, 0%Z) ∧ cache_ok ep1 states st.1.2)
      _ _ _ _ (adj, cache, w1) _ Hloop).
    - intros [i j] [[adj0 cache0] w0] [[adj1 cache1] w2] _ [Hadj Hcache] Hstep.
      simpl in Hadj, Hcache, Hstep.
      destruct (sbm_pair_draw _ _ _ _ _ _ _ _ _ _ _ Hcache Hstep)
        as (Hcache' & _ & p & Hp & Hdrawn).
      destruct (pair_probability_prob _ _ _ _ _ Hp) as (s1 & s2 & Hs).
      assert (Qltb (uniform w0).1 p = false) as Hno.
      { apply Qltb_ge. rewrite (Hzero _ _ _ Hs). apply Hdraw. }
      rewrite Hno in Hdrawn. simpl. by subst.
    - split; [done|]. intros k v Hk. simpl in Hk. by rewrite lookup_empty in Hk. }
  destruct Hinv as [-> _].
  -
    assert (∀ a b, entry (tabulate N (λ _ _ : nat, 0%Z)) a b ≠ Some 1%Z) as Hnone.
  { intros a b. rewrite tabulate_entry. by case_bool_decide. }
  split_and!; [|done..].
  unfold num_edges. rewrite filter_none; [done|]. intros [a b] _. simpl. apply Hnone.
Qed.

Lemma hopfield_sbm_zero_target_witness :
  ∃ g ep',
    hopfield_sbm Demo.uniform Demo.edge_probs Demo.states 0 () = Ok (g, ep', ())
    ∧ num_edges g = 0
    ∧ (∀ a b, entry (adj_matrix g) a b ≠ Some 1%Z)
    ∧ (∀ s1 s2 p, prob ep' s1 s2 = Some p → (p == 0)%Q).
Proof.
  eexists _, _. split; [vm_compute; reflexivity|].
  eapply (hopfield_sbm_zero_target Demo.uniform Demo.edge_probs Demo.states ()).
  - exact Demo_edge_probs_closed.
  - intros w0. vm_compute. discriminate.
  - vm_compute. reflexivity.
Defined.

Lemma expected_edges_zero groups edge_probs e :
  (∀ s1 s2 p, prob edge_probs s1 s2 = Some p → (p == 0)%Q) →
  expected_edges groups edge_probs = Ok e → (e == 0)%Q.
Proof.
  intros Hzero. unfold expected_edges.
  destruct (for_each _ _ _) as [[cp e']| |] eqn:Hloop; simpl; try done.
  intros [= <-].
  refine (for_each_inv (λ st : gset (string * string) * Q, (st.2 == 0)%Q)
            _ _ _ _ (cp, e') _ Hloop); [|done].
  clear Hloop. intros str1 st st' _ Hst Hinner.
  refine (for_each_inv (λ st : gset (string * string) * Q, (st.2 == 0)%Q)
            _ _ _ _ st' Hst Hinner).
  clear Hinner Hst. intros str2 [cp2 e2] st2 _ He Hstep. simpl in He.
  unfold expected_step in Hstep.
  case_bool_decide; [by simplify_eq|].
  destruct (dict_get groups (oriented groups str1)) as [g1| |]; simpl in Hstep; try done.
  destruct (dict_get groups (oriented groups str2)) as [g2| |]; simpl in Hstep; try done.
  destruct (table_row edge_probs str1) as [[r row]| |] eqn:Hrow; simpl in Hstep; try done.
  apply table_row_spec in Hrow as [Hr Hrow]. unfold dict_get in Hstep.
  destruct (row !! str2) as [p|] eqn:Hp; simpl in Hstep; try done.
  simplify_eq. simpl. rewrite He, (Hzero str1 str2 p); [ring|].
  unfold prob, cell. rewrite Hr. simpl. by rewrite Hrow.
Qed.

(** X12. A table whose probabilities are all zero is never accepted:
    [hopfield_sbm] returns no model, and once the groups and the expected
    count are computed the division of line 147 raises
    [ZeroDivisionError]. *)
Theorem hopfield_sbm_zero_table {World : Type} (uniform : World → Q * World)
    edge_probs states n (w : World) :
  (∀ s1 s2 p, prob edge_probs s1 s2 = Some p → (p == 0)%Q) →
  (∀ r, hopfield_sbm uniform edge_probs states n w ≠ Ok r)
  ∧ (∀ N groups e,
       pattern_length states = Ok N →
       node_groups (HopfieldGraph_init (empty_graph N) states) = Ok groups →
       expected_edges groups edge_probs = Ok e →
       hopfield_sbm uniform edge_probs states n w = Raise ZeroDivisionError).
Proof.
  intros Hzero.
  assert (∀ N groups e,
       pattern_length states = Ok N →
       node_groups (HopfieldGraph_init (empty_graph N) states) = Ok groups →
       expected_edges groups edge_probs = Ok e →
       hopfield_sbm uniform edge_probs states n w = Raise ZeroDivisionError) as Hraise.
  { intros N groups e HN Hg He. unfold hopfield_sbm, adjust_probs.
    rewrite HN. simpl. rewrite Hg. simpl. rewrite He. simpl.
    unfold adjustment_ratio.
    rewrite (proj2 (Qeq_bool_iff e 0) (expected_edges_zero _ _ _ Hzero He)). done. }
  split; [|exact Hraise].
  intros r Hr. unfold hopfield_sbm, adjust_probs in Hr.
  destruct (pattern_length states) as [N| |] eqn:HN; simpl in Hr; try done.
  destruct (node_groups _) as [groups| |] eqn:Hg; simpl in Hr; try done.
  destruct (expected_edges groups edge_probs) as [e| |] eqn:He; simpl in Hr; try done.
  unfold adjustment_ratio in Hr.
  rewrite (proj2 (Qeq_bool_iff e 0) (expected_edges_zero _ _ _ Hzero He)) in Hr. done.
Qed.

Lemma hopfield_sbm_zero_table_witness :
  hopfield_sbm Demo.uniform
    (mkTable {[ "11" := 0; "10" := 1 ]}
             {[ 0 := {[ "11" := 0%Q; "10" := 0%Q ]};
                1 := {[ "11" := 0%Q; "10" := 0%Q ]} ]})
    Demo.states 2 ()
  = Raise ZeroDivisionError.
Proof.
  eapply (hopfield_sbm_zero_table Demo.uniform _ Demo.states 2 ()).
  - intros s1 s2 p Hp. unfold prob, cell in Hp. simpl in Hp.
    destruct (_ !! s1) as [r|] eqn:Hr; simpl in Hp; [|done].
    destruct (_ !! r) as [row|] eqn:Hrow; simpl in Hp; [|done].
    apply lookup_insert_Some in Hrow as [[_ <-]|[_ [_ <-]%lookup_singleton_Some]];
      apply lookup_insert_Some in Hp as [[_ <-]|[_ [_ <-]%lookup_singleton_Some]]; done.
  - reflexivity.
  - vm_compute. reflexivity.
  - vm_compute. reflexivity.
Defined.

(** * The wiring cost *)


(** The loop of lines 45-46 appends [state[i]] to the rows below
    [length state]. *)
Lemma append_state_run (state : list Z) (L : nat) : ∀ rows : list (list Z),
  L ≤ length state → L ≤ length rows →
  ∃ rows', for_each (seq 0 L) (λ i res,
             match res !! i, state !! i with
             | Some row, Some b => Ok (<[i := row ++ [b]]> res)
             | _, _ => Raise IndexError
             end) rows = Ok rows'
    ∧ length rows' = length rows
    ∧ ∀ i, rows' !! i
           = (λ row, if bool_decide (i < L) then row ++ option_list (state !! i) else row)
             <$> rows !! i.
Proof.
  induction L as [|L IH]; intros rows Hstate Hrows.
  { exists rows. split_and!; [done..|]. intros i. by destruct (rows !! i). }
  destruct (IH rows) as (rows1 & Hrun & Hlen & Hget); [lia..|].
  destruct (lookup_lt_is_Some_2 rows L) as [row Hrow]; [lia|].
  destruct (lookup_lt_is_Some_2 state L) as [b Hb]; [lia|].
  exists (<[L := row ++ [b]]> rows1).
  rewrite seq_S, for_each_app, Hrun. simpl.
  rewrite Hget, Hrow. simpl. rewrite bool_decide_eq_false_2 by lia. rewrite Hb.
  split_and!; [done|by rewrite length_insert|].
  intros i. destruct (decide (i = L)) as [->|Hne].
  - rewrite list_lookup_insert_eq by lia. rewrite Hrow. simpl.
    rewrite bool_decide_eq_true_2 by lia. by rewrite Hb.
  - rewrite list_lookup_insert_ne by done. rewrite Hget.
    destruct (rows !! i); simpl; [|done].
    repeat case_bool_decide; try done; lia.
Qed.

Lemma append_state_overflow (state : list Z) (rows : list (list Z)) :
  length rows < length state →
  for_each (seq 0 (length state)) (λ i res,
    match res !! i, state !! i with
    | Some row, Some b => Ok (<[i := row ++ [b]]> res)
    | _, _ => Raise IndexError
    end) rows = Raise IndexError.
Proof.
  intros Hlt.
  replace (length state) with (length rows + S (length state - S (length rows))) by lia.
  rewrite seq_app, for_each_app.
  destruct (append_state_run state (length rows) rows) as (rows1 & -> & Hlen & _); [lia..|].
  simpl. rewrite (lookup_ge_None_2 rows1) by lia. done.
Qed.

(** The loops of lines 44-46 on rows that are long enough. *)
Lemma append_states_run (states : list (list Z)) : ∀ rows : list (list Z),
  (∀ state, state ∈ states → length state ≤ length rows) →
  ∃ rows', for_each states (λ state res,
             for_each (seq 0 (length state)) (λ i res,
               match res !! i, state !! i with
               | Some row, Some b => Ok (<[i := row ++ [b]]> res)
               | _, _ => Raise IndexError
               end) res) rows = Ok rows'
    ∧ length rows' = length rows
    ∧ ∀ i, rows' !! i = (λ row, row ++ omap (.!! i) states) <$> rows !! i.
Proof.
  induction states as [|state states IH]; intros rows Hlen.
  { exists rows. split_and!; [done..|]. intros i. simpl.
    destruct (rows !! i); simpl; [|done]. by rewrite app_nil_r. }
  destruct (append_state_run state (length state) rows) as (rows1 & Hrun1 & Hlen1 & Hget1);
    [lia|apply Hlen; left|].
  destruct (IH rows1) as (rows' & Hrun & Hlen' & Hget).
  { intros st Hst. rewrite Hlen1. apply Hlen. by right. }
  exists rows'. simpl. rewrite Hrun1. simpl.
  split_and!; [done|lia|].
  intros i. rewrite Hget, Hget1. destruct (rows !! i) as [row|]; simpl; [|done].
  f_equal. destruct (state !! i) as [b|] eqn:Hb; simpl.
  - rewrite bool_decide_eq_true_2 by (by eapply lookup_lt_Some). by rewrite <- app_assoc.
  - case_bool_decide; [|done]. by rewrite app_nil_r.
Qed.

Lemma node_bit_strings_ok g :
  (∀ state, state ∈ stored_states g → length state ≤ length (nodes g)) →
  WiringCost.node_bit_strings g
  = Ok ((λ i, omap (.!! i) (stored_states g)) <$> seq 0 (length (nodes g))).
Proof.
  intros Hlen. unfold WiringCost.node_bit_strings.
  destruct (append_states_run (stored_states g) (replicate (length (nodes g)) []))
    as (rows & -> & Hrows & Hget).
  { intros state Hstate. rewrite length_replicate. by apply Hlen. }
  f_equal. apply list_eq. intros i. rewrite Hget, list_lookup_fmap.
  rewrite length_replicate in Hrows.
  destruct (decide (i < length (nodes g))) as [Hi|Hi].
  - rewrite lookup_replicate_2 by done. by rewrite lookup_seq_lt.
  - rewrite (proj1 (lookup_replicate_None _ _ _)) by lia. rewrite lookup_seq_ge by lia. done.
Qed.

Lemma node_bit_strings_overflow g :
  (∃ state, state ∈ stored_states g ∧ length (nodes g) < length state) →
  WiringCost.node_bit_strings g = Raise IndexError.
Proof.
  unfold WiringCost.node_bit_strings.
  assert (∀ (states : list (list Z)) (rows : list (list Z)),
    (∃ state, state ∈ states ∧ length rows < length state) →
    for_each states (λ state res,
      for_each (seq 0 (length state)) (λ i res,
        match res !! i, state !! i with
        | Some row, Some b => Ok (<[i := row ++ [b]]> res)
        | _, _ => Raise IndexError
        end) res) rows = Raise IndexError) as Hover.
  { induction states as [|state states IH]; intros rows (st & Hst & Hlt).
    { by apply elem_of_nil in Hst. }
    simpl. destruct (decide (length rows < length state)) as [Hbig|Hsmall].
    - by rewrite append_state_overflow.
    - destruct (append_state_run state (length state) rows) as (rows1 & -> & Hlen1 & _);
        [lia..|].
      simpl. apply IH. exists st. rewrite Hlen1.
      apply elem_of_cons in Hst as [->|Hst]; [lia|done]. }
  intros (st & Hst & Hlt). apply Hover. exists st. by rewrite length_replicate.
Qed.

(** X13. [node_bit_strings] gives one row per node, the row of node [i]
    listing bit [i] of each stored state that has one, in the order of
    the states; a stored state longer than the node count makes it
    raise [IndexError]. *)
Theorem node_bit_strings_columns g :
  ((∀ state, state ∈ stored_states g → length state ≤ length (nodes g)) →
     WiringCost.node_bit_strings g
     = Ok ((λ i, omap (.!! i) (stored_states g)) <$> seq 0 (length (nodes g))))
  ∧ ((∃ state, state ∈ stored_states g ∧ length (nodes g) < length state) →
     WiringCost.node_bit_strings g = Raise IndexError).
Proof. split; [apply node_bit_strings_ok|apply node_bit_strings_overflow]. Qed.

Lemma node_bit_strings_columns_witness :
  WiringCost.node_bit_strings Demo.sparse = Ok [[1; 0]; [0; 1]; [1; 0]; [0; 1]]%Z
  ∧ WiringCost.node_bit_strings (train (HopfieldGraph_init (empty_graph 3) Demo.patterns))
    = Raise IndexError.
Proof.
  split.
  - apply (proj1 (node_bit_strings_columns Demo.sparse)).
    intros state Hstate. simpl in Hstate. simpl.
    repeat (apply elem_of_cons in Hstate as [->|Hstate]; [simpl; lia|]).
    by apply elem_of_nil in Hstate.
  - apply (proj2 (node_bit_strings_columns
                    (train (HopfieldGraph_init (empty_graph 3) Demo.patterns)))).
    exists [1; 0; 1; 0]%Z. split; [left|simpl; lia].
Defined.

(** X14. When every stored state has one bit per node, the rows of
    [node_bit_strings] are the transpose of the stored states, and the
    row of node [i] spells the signature [hopfield_sbm] groups it by. *)
Theorem node_bit_strings_signature g :
  (∀ state, state ∈ stored_states g → length state = length (nodes g)) →
  ∃ rows, WiringCost.node_bit_strings g = Ok rows
    ∧ length rows = length (nodes g)
    ∧ ∀ i row, rows !! i = Some row →
        length row = length (stored_states g)
        ∧ (∀ k, row !! k = stored_states g !! k ≫= (.!! i))
        ∧ node_pattern (stored_states g) i = Ok (bit_list_to_string row).
Proof.
  intros Hlen. eexists. split.
  { apply node_bit_strings_ok. intros state Hstate. by rewrite (Hlen _ Hstate). }
  split; [by rewrite length_fmap, length_seq|].
  intros i row. rewrite list_lookup_fmap.
  destruct (seq 0 (length (nodes g)) !! i) as [i'|] eqn:Hi; simpl; [|done].
  apply lookup_seq in Hi as [-> Hi]. simpl. intros [= <-].
  revert Hlen. generalize (stored_states g). intros states Hlen.
  assert (mapM (λ state : list Z,
                  match state !! i with
                  | Some b => Ok b
                  | None => Raise IndexError
                  end) states = Ok (omap (.!! i) states)
          ∧ length (omap (.!! i) states) = length states
          ∧ ∀ k, omap (.!! i) states !! k = states !! k ≫= (.!! i)) as (Hmap & Hl & Hk).
  { induction states as [|state states IH]; [done|].
    destruct (lookup_lt_is_Some_2 state i) as [b Hb].
    { rewrite (Hlen state) by left. done. }
    destruct IH as (IHmap & IHl & IHk); [intros; apply Hlen; by right|].
    simpl. rewrite Hb. simpl. rewrite IHmap. simpl. split_and!; [done|by f_equal|].
    intros [|k]; simpl; [by rewrite Hb|apply IHk]. }
  split_and!; [done..|]. unfold node_pattern. by rewrite Hmap.
Qed.

Lemma node_bit_strings_signature_witness :
  ∃ rows, WiringCost.node_bit_strings Demo.sparse = Ok rows
    ∧ length rows = 4
    ∧ ∀ i row, rows !! i = Some row →
        length row = 2
        ∧ (∀ k, row !! k = Demo.patterns !! k ≫= (.!! i))
        ∧ node_pattern Demo.patterns i = Ok (bit_list_to_string row).
Proof.
  apply (node_bit_strings_signature Demo.sparse).
  intros state Hstate. simpl in Hstate. simpl.
  repeat (apply elem_of_cons in Hstate as [->|Hstate]; [reflexivity|]).
  by apply elem_of_nil in Hstate.
Defined.

Lemma half_below (n c : nat) :
  Qltb (inject_Z (Z.of_nat n) / 2) (inject_Z (Z.of_nat c)) = true ↔ n < 2 * c.
Proof.
  rewrite Qltb_lt. unfold Qlt, Qdiv, Qmult, Qinv, inject_Z. simpl. lia.
Qed.

Lemma count_nonzero_complement (bits : list Z) :
  WiringCost.count_nonzero (WiringCost.complement bits) + WiringCost.count_nonzero bits = length bits.
Proof.
  unfold WiringCost.count_nonzero, WiringCost.complement. induction bits as [|b bits IH]; [done|].
  rewrite fmap_cons, !filter_cons. simpl.
  case_bool_decide; repeat case_decide; simpl; try done; lia.
Qed.

Section Flip.
Context {World : Type}.
Variable flip_porition : list Z → Q → World → list Z * World.
Hypothesis flip_all : ∀ bits w, (flip_porition bits 1 w).1 = WiringCost.complement bits.

(** X15. With a [flip_porition] that flips every bit at portion 1,
    [flip_node_strings] keeps the number and the lengths of the rows,
    answers each row or its complement, and leaves no row with more
    than half of its entries nonzero. *)
Theorem flip_node_strings_minority (node_strings : list (list Z)) (w : World) :
  let res := (WiringCost.flip_node_strings flip_porition node_strings w).1 in
  length res = length node_strings
  ∧ ∀ i row', res !! i = Some row' →
      2 * WiringCost.count_nonzero row' ≤ length row'
      ∧ ∃ row, node_strings !! i = Some row
               ∧ length row' = length row
               ∧ (row' = row ∨ row' = WiringCost.complement row).
Proof.
  revert w. induction node_strings as [|row rows IH]; intros w; simpl.
  { split; [done|]. intros i row' Hrow'. by rewrite lookup_nil in Hrow'. }
  destruct (Qltb _ _) eqn:Hhalf.
  - pose proof (flip_all row w) as Hflip.
    destruct (flip_porition row 1 w) as [flipped w1]. simpl in Hflip. subst flipped.
    specialize (IH w1). destruct (WiringCost.flip_node_strings flip_porition rows w1) as [res w2].
    simpl in *. destruct IH as [IHlen IHrows]. split; [by rewrite IHlen|].
    intros [|i] row' Hrow'; simpl in *; [|by apply IHrows].
    simplify_eq. apply half_below in Hhalf.
    pose proof (count_nonzero_complement row) as Hcount.
    assert (length (WiringCost.complement row) = length row) as Hl by apply length_fmap.
    split; [lia|]. exists row. split_and!; [done|done|by right].
  - specialize (IH w). destruct (WiringCost.flip_node_strings flip_porition rows w) as [res w2].
    simpl in *. destruct IH as [IHlen IHrows]. split; [by rewrite IHlen|].
    intros [|i] row' Hrow'; simpl in *; [|by apply IHrows].
    simplify_eq. split.
    + destruct (decide (length row' < 2 * WiringCost.count_nonzero row')) as [Hlt|Hge]; [|lia].
      apply half_below in Hlt. congruence.
    + exists row'. split_and!; [done|done|by left].
Qed.

End Flip.

Lemma flip_node_strings_minority_witness :
  (WiringCost.flip_node_strings DemoCost.flip_porition [[1; 1; 0]; [0; 1; 0]]%Z ()).1
  = [[0; 0; 1]; [0; 1; 0]]%Z
  ∧ length (WiringCost.flip_node_strings DemoCost.flip_porition [[1; 1; 0]; [0; 1; 0]]%Z ()).1 = 2.
Proof.
  split; [reflexivity|].
  apply (flip_node_strings_minority DemoCost.flip_porition (λ bits w, eq_refl)
           [[1; 1; 0]; [0; 1; 0]]%Z ()).
Defined.


(** ** The energy of a layout *)


Section Energy.
Context {World Point : Type}.
Variable flip_porition : list Z → Q → World → list Z * World.
Variable fit_transform : list (list Z) → res (list Point).
Variable pdist : Point → Point → Q.
Hypothesis pdist_nonneg : ∀ p q, (0 <= pdist p q)%Q.

(** Every connected pair the loop meets adds at least [epsilon]. *)
Lemma stress_pairs g (coords : list Point) (epsilon : Q) (l : list (nat * nat)) : ∀ e0 e,
  for_each l (λ ij energy,
    a ← mget (adj_matrix g) ij.1 ij.2;
    if bool_decide (a = 0%Z) then Ok energy
    else
      p_i ← match coords !! ij.1 with Some p => Ok p | None => Raise IndexError end;
      p_j ← match coords !! ij.2 with Some p => Ok p | None => Raise IndexError end;
      Ok (energy + (pdist p_i p_j + epsilon))%Q) e0 = Ok e →
  let connected :=
    filter (λ ij : nat * nat, default 0%Z (entry (adj_matrix g) ij.1 ij.2) ≠ 0%Z) l in
  (e0 + epsilon * inject_Z (Z.of_nat (length connected)) <= e)%Q
  ∧ (connected = [] → e = e0).
Proof.
  induction l as [|[i j] l IH]; intros e0 e Hrun; simpl in Hrun.
  { simplify_eq. simpl. split; [|done]. rewrite Qmult_0_r, Qplus_0_r. apply Qle_refl. }
  destruct (mget (adj_matrix g) i j) as [a| |] eqn:Ha; simpl in Hrun; try done.
  apply mget_entry in Ha. rewrite filter_cons. simpl. rewrite Ha. simpl.
  case_bool_decide as Hzero.
  - subst a. simpl in Hrun. rewrite decide_False by (intros H; by apply H).
    by apply IH.
  - rewrite decide_True by done.
    destruct (coords !! i) as [p_i|]; simpl in Hrun; try done.
    destruct (coords !! j) as [p_j|]; simpl in Hrun; try done.
    destruct (IH _ _ Hrun) as [Hle _]. split; [|done].
    eapply Qle_trans; [|exact Hle]. simpl length.
    rewrite Nat2Z.inj_succ, <- Z.add_1_r, inject_Z_plus.
    set (X := inject_Z (Z.of_nat (length (filter _ l)))).
    assert (e0 + (pdist p_i p_j + epsilon) + epsilon * X
            == (e0 + epsilon * (X + inject_Z 1)) + pdist p_i p_j)%Q as -> by ring.
    rewrite <- (Qplus_0_r (e0 + epsilon * (X + inject_Z 1))) at 1.
    apply Qplus_le_compat; [apply Qle_refl|apply pdist_nonneg].
Qed.

Lemma connected_num_edges g :
  prunable g →
  length (filter (λ ij : nat * nat, default 0%Z (entry (adj_matrix g) ij.1 ij.2) ≠ 0%Z)
            (lower_pairs (length (nodes g))))
  = num_edges g.
Proof.
  intros (_ & _ & Hsym & Hbit). unfold num_edges. f_equal.
  apply list_filter_iff. intros [i j]. simpl. rewrite (Hsym j i).
  destruct (entry (adj_matrix g) i j) as [a|] eqn:Ha; simpl; [|done].
  destruct (Hbit _ _ _ Ha) as [->| ->]; split; done.
Qed.

(** X16. With distances that are never negative, the wiring cost of a
    graph whose adjacency matrix is symmetric with entries 0 and 1 is
    zero when the graph has no edge, whatever the layout, and at least
    the offset 0.3 of one edge when it has one. *)
Theorem wiring_cost_floor g (w : World) e w' :
  prunable g →
  WiringCost.wiring_cost_energy flip_porition fit_transform pdist g w = Ok (e, w') →
  (num_edges g = 0 → e = 0%Q)
  ∧ (0 < num_edges g → (3 # 10 <= e)%Q).
Proof.
  intros Hg. unfold WiringCost.wiring_cost_energy.
  destruct (WiringCost.node_bit_strings g) as [node_strings| |]; simpl; try done.
  destruct (WiringCost.flip_node_strings flip_porition node_strings w) as [flipped w1].
  destruct (fit_transform flipped) as [coords| |]; simpl; try done.
  destruct (WiringCost.stress_energy pdist g coords (3 # 10)) as [energy| |] eqn:Hrun; simpl; try done.
  intros [= <- <-]. unfold WiringCost.stress_energy in Hrun.
  rewrite (for_each_nested (seq 0 (length (nodes g))) (seq 0)
             (λ i j energy,
                a ← mget (adj_matrix g) i j;
                if bool_decide (a = 0%Z) then Ok energy
                else
                  p_i ← match coords !! i with Some p => Ok p | None => Raise IndexError end;
                  p_j ← match coords !! j with Some p => Ok p | None => Raise IndexError end;
                  Ok (energy + (pdist p_i p_j + (3 # 10)))%Q)) in Hrun.
  destruct (stress_pairs _ _ _ _ _ _ Hrun) as [Hle Hnone].
  fold (lower_pairs (length (nodes g))) in Hle, Hnone.
  rewrite (connected_num_edges g Hg) in Hle. rewrite Qplus_0_l in Hle.
  split.
  - intros Hzero. apply Hnone.
    apply length_zero_iff_nil. by rewrite (connected_num_edges g Hg).
  - intros Hpos. eapply Qle_trans; [|exact Hle].
    rewrite <- (Qmult_1_r (3 # 10)) at 1. apply Qmult_le_l; [reflexivity|].
    change 1%Q with (inject_Z 1). rewrite <- Zle_Qle. lia.
Qed.

End Energy.

Lemma DemoCost_pdist_nonneg p q : (0 <= DemoCost.pdist p q)%Q.
Proof.
  unfold DemoCost.pdist. change 0%Q with (inject_Z 0). rewrite <- Zle_Qle. lia.
Qed.

Lemma wiring_cost_floor_witness :
  ∃ e, DemoCost.wiring_cost_energy Demo.dense () = Ok (e, ())
       ∧ num_edges Demo.dense = 6
       ∧ (3 # 10 <= e)%Q.
Proof.
  destruct (prune_base_trained Demo.patterns 4 eq_refl) as (_ & _ & _ & Hpr).
  assert (∃ e, DemoCost.wiring_cost_energy Demo.dense () = Ok (e, ())) as [e Hrun].
  { eexists. vm_compute. reflexivity. }
  exists e. split; [exact Hrun|]. split; [vm_compute; reflexivity|].
  apply (wiring_cost_floor DemoCost.flip_porition DemoCost.fit_transform DemoCost.pdist
           DemoCost_pdist_nonneg Demo.dense () e () Hpr Hrun).
  vm_compute. lia.
Defined.


(** * The node dynamics *)


Lemma half_above (c n : nat) :
  0 < n →
  Qltb (1 # 2) (inject_Z (Z.of_nat c) / inject_Z (Z.of_nat n)) = true ↔ n < 2 * c.
Proof.
  intros Hn. destruct n as [|n]; [lia|]. rewrite Qltb_lt.
  unfold Qlt, Qdiv, Qmult, Qinv, inject_Z. simpl. lia.
Qed.

Lemma count_nonzero_mono {A} (f1 f2 : A → Z) (l : list A) :
  (∀ j, j ∈ l → f1 j ≠ 0%Z → f2 j ≠ 0%Z) →
  WiringCost.count_nonzero (f1 <$> l) ≤ WiringCost.count_nonzero (f2 <$> l).
Proof.
  unfold WiringCost.count_nonzero. induction l as [|j l IH]; intros Hf; [done|].
  rewrite !fmap_cons, !filter_cons.
  assert (length (filter (λ v, v ≠ 0%Z) (f1 <$> l))
          ≤ length (filter (λ v, v ≠ 0%Z) (f2 <$> l))) as Hle.
  { apply IH. intros k Hk. apply Hf. by right. }
  destruct (decide (f1 j ≠ 0%Z)) as [H1|H1].
  - rewrite (decide_True (P := f2 j ≠ 0%Z)) by (apply Hf; [left|done]). simpl. lia.
  - destruct (decide (f2 j ≠ 0%Z)); simpl; lia.
Qed.

Section Majority.
Context {World : Type}.
Variable np_binomial : Z → Q → World → Z * World.

(** X17. [majority_rule] on a node without in-edges raises
    [ZeroDivisionError]; otherwise, at the default threshold, it sets the
    node to 1 when strictly more than half of its in-neighbours are
    nonzero and to 0 when not, a tie included, and touches nothing else. *)
Theorem majority_rule_threshold node nodes nd (w : World) :
  nodes !! node = Some nd →
  (in_edges nd = [] →
     ∀ threshold random,
       Dynamics.majority_rule np_binomial node threshold random nodes w = Raise ZeroDivisionError)
  ∧ (in_edges nd ≠ [] →
       Dynamics.majority_rule np_binomial node (1 # 2) false nodes w
       = Ok (<[node := mkNode
                 (if bool_decide (length (in_edges nd)
                                  < 2 * WiringCost.count_nonzero (Dynamics.in_values nodes nd))
                  then 1%Z else 0%Z)
                 (in_edges nd)]> nodes, w)).
Proof.
  intros Hnd. unfold Dynamics.majority_rule, Dynamics.majority_value. rewrite Hnd. split.
  - intros Hnone threshold random. by rewrite Hnone.
  - intros Hsome. rewrite bool_decide_eq_false_2.
    2:{ intros Hzero. by apply length_zero_iff_nil in Hzero. }
    assert (0 < length (in_edges nd)) as Hpos.
    { destruct (in_edges nd); [done|simpl; lia]. }
    pose proof (half_above (WiringCost.count_nonzero (Dynamics.in_values nodes nd)) _ Hpos) as Hhalf.
    case_bool_decide as Hmaj.
    + by rewrite (proj2 Hhalf Hmaj).
    + destruct (Qltb _ _) eqn:Hq; [|done]. exfalso. by apply Hmaj, Hhalf.
Qed.

(** X18. The rule is monotone: turning in-neighbours from zero to
    nonzero never turns the value [majority_rule] assigns from 1 to 0,
    at any threshold. *)
Theorem majority_rule_monotone node nodes1 nodes2 nd1 nd2 threshold (w : World) nodes1' w1 :
  nodes1 !! node = Some nd1 → nodes2 !! node = Some nd2 →
  in_edges nd1 = in_edges nd2 →
  (∀ j, j ∈ in_edges nd1 →
        default 0%Z (val <$> nodes1 !! j) ≠ 0%Z → default 0%Z (val <$> nodes2 !! j) ≠ 0%Z) →
  Dynamics.majority_rule np_binomial node threshold false nodes1 w = Ok (nodes1', w1) →
  ∃ nodes2' v1 v2,
    Dynamics.majority_rule np_binomial node threshold false nodes2 w = Ok (nodes2', w1)
    ∧ val <$> nodes1' !! node = Some v1
    ∧ val <$> nodes2' !! node = Some v2
    ∧ (v1 ≤ v2)%Z.
Proof.
  intros Hnd1 Hnd2 Hedges Hvals. unfold Dynamics.majority_rule, Dynamics.majority_value.
  rewrite Hnd1, Hnd2.
  pose proof (count_nonzero_mono _ _ _ Hvals) as Hcount.
  assert (Dynamics.in_values nodes2 nd2
          = (λ j, default 0%Z (val <$> nodes2 !! j)) <$> in_edges nd1) as Hin2.
  { unfold Dynamics.in_values. by rewrite Hedges. }
  rewrite Hin2, <- Hedges. unfold Dynamics.in_values.
  remember (WiringCost.count_nonzero ((λ j, default 0%Z (val <$> nodes1 !! j)) <$> in_edges nd1))
    as c1 eqn:Hc1.
  remember (WiringCost.count_nonzero ((λ j, default 0%Z (val <$> nodes2 !! j)) <$> in_edges nd1))
    as c2 eqn:Hc2.
  remember (length (in_edges nd1)) as n eqn:Hn.
  clear Hc1 Hc2 Hin2.
  case_bool_decide as Hnone; [done|].
  assert (inject_Z (Z.of_nat c1) / inject_Z (Z.of_nat n)
          <= inject_Z (Z.of_nat c2) / inject_Z (Z.of_nat n))%Q as Hle.
  { unfold Qdiv. apply Qmult_le_compat_r.
    - rewrite <- Zle_Qle. lia.
    - apply Qinv_le_0_compat. change 0%Q with (inject_Z 0). rewrite <- Zle_Qle. lia. }
  pose proof (lookup_lt_Some _ _ _ Hnd1) as Hlt1.
  pose proof (lookup_lt_Some _ _ _ Hnd2) as Hlt2.
  destruct (Qltb threshold (inject_Z (Z.of_nat c1) / inject_Z (Z.of_nat n))) eqn:H1;
    simpl; intros [= <- <-].
  - apply Qltb_lt in H1.
    rewrite (proj2 (Qltb_lt _ _) (Qlt_le_trans _ _ _ H1 Hle)). simpl.
    eexists _, 1%Z, 1%Z. split; [done|].
    by rewrite !list_lookup_insert_eq by done.
  - destruct (Qltb threshold (inject_Z (Z.of_nat c2) / inject_Z (Z.of_nat n))); simpl.
    + eexists _, 0%Z, 1%Z. split; [done|].
      by rewrite !list_lookup_insert_eq by done.
    + eexists _, 0%Z, 0%Z. split; [done|].
      by rewrite !list_lookup_insert_eq by done.
Qed.

End Majority.

Lemma majority_rule_threshold_witness :
  Dynamics.majority_rule Demo.np_binomial 0 (1 # 2) false
    [mkNode 0 [1; 2]; mkNode 1 []; mkNode 1 [0]] ()
  = Ok ([mkNode 1 [1; 2]; mkNode 1 []; mkNode 1 [0]], ())
  ∧ Dynamics.majority_rule Demo.np_binomial 1 (1 # 2) false
      [mkNode 0 [1; 2]; mkNode 1 []; mkNode 1 [0]] ()
    = Raise ZeroDivisionError.
Proof.
  split.
  - apply (proj2 (majority_rule_threshold Demo.np_binomial 0
                    [mkNode 0 [1; 2]; mkNode 1 []; mkNode 1 [0]]
                    (mkNode 0 [1; 2]) () eq_refl)).
    discriminate.
  - apply (proj1 (majority_rule_threshold Demo.np_binomial 1
                    [mkNode 0 [1; 2]; mkNode 1 []; mkNode 1 [0]]
                    (mkNode 1 []) () eq_refl)).
    reflexivity.
Defined.

Lemma majority_rule_monotone_witness :
  ∃ nodes2' v1 v2,
    Dynamics.majority_rule Demo.np_binomial 1 (1 # 2) false
      [mkNode 1 [1]; mkNode 0 [0; 2]; mkNode 1 [1]] () = Ok (nodes2', ())
    ∧ val <$> [mkNode 1 [1]; mkNode 0 [0; 2]; mkNode 0 [1]] !! 1 = Some v1
    ∧ val <$> nodes2' !! 1 = Some v2
    ∧ (v1 ≤ v2)%Z.
Proof.
  apply (majority_rule_monotone Demo.np_binomial 1
           [mkNode 1 [1]; mkNode 0 [0; 2]; mkNode 0 [1]]
           [mkNode 1 [1]; mkNode 0 [0; 2]; mkNode 1 [1]]
           (mkNode 0 [0; 2]) (mkNode 0 [0; 2]) (1 # 2) ()
           [mkNode 1 [1]; mkNode 0 [0; 2]; mkNode 0 [1]] ()).
  - reflexivity.
  - reflexivity.
  - reflexivity.
  - intros j Hj. simpl in Hj.
    repeat (apply elem_of_cons in Hj as [->|Hj]; [simpl; done|]).
    by apply elem_of_nil in Hj.
  - reflexivity.
Defined.

(** ** Fixed points *)

Section FixedPointRuns.
Context {Graph World : Type}.
Variable state : Graph → list Q.
Variable update : Graph → World → res (Graph * World).

Lemma rounds_trans m k a b c :
  Dynamics.rounds update m a b → Dynamics.rounds update k b c → Dynamics.rounds update (m + k) a c.
Proof.
  induction 1 as [gw|m g w g1 w1 gw' Hup Hrest IH]; intros Hk; [done|].
  simpl. econstructor; [done|]. by apply IH.
Qed.

Lemma quiet_rounds tolerance k a b :
  Dynamics.quiet state update tolerance k a b → Dynamics.rounds update k a b.
Proof.
  induction 1 as [gw|k g w g1 w1 gw' Hup Hsoft Hrest IH]; [constructor|].
  by econstructor.
Qed.

Lemma quiet_snoc tolerance k a g w g1 w1 :
  Dynamics.quiet state update tolerance k a (g, w) →
  update g w = Ok (g1, w1) →
  Dynamics.soft_equals (state g1) (state g) tolerance = true →
  Dynamics.quiet state update tolerance (S k) a (g1, w1).
Proof.
  intros Hq Hup Hsoft. remember (g, w) as b eqn:Hb.
  induction Hq as [gw|k g0 w0 g2 w2 gw' Hup0 Hsoft0 Hrest IH]; subst.
  - econstructor; [done..|constructor].
  - econstructor; [done..|]. by apply IH.
Qed.

(** The loop of lines 60-69 from a graph reached by [m0] rounds and a
    quiet streak of [k0] more. *)
Lemma fixed_point_loop_sound threshold tolerance start n : ∀ m0 k0 g1 w1 g w r g' w',
  Dynamics.rounds update m0 start (g1, w1) →
  Dynamics.quiet state update tolerance k0 (g1, w1) (g, w) →
  Dynamics.fixed_point_loop state update n threshold tolerance g (state g) (Z.of_nat k0) w
  = Ok (r, g', w') →
  match r with
  | None => Dynamics.rounds update (m0 + k0 + n) start (g', w')
  | Some s =>
    s = state g'
    ∧ ∃ m k g2 w2, m0 + k0 < m + k ≤ m0 + k0 + n
        ∧ (threshold ≤ Z.of_nat k)%Z
        ∧ Dynamics.rounds update m start (g2, w2)
        ∧ Dynamics.quiet state update tolerance k (g2, w2) (g', w')
  end.
Proof.
  induction n as [|n IH]; intros m0 k0 g1 w1 g w r g' w' Hreach Hquiet Hrun;
    simpl in Hrun.
  { simplify_eq. rewrite Nat.add_0_r.
    eapply rounds_trans; [done|]. by eapply quiet_rounds. }
  destruct (update g w) as [[g3 w3]| |] eqn:Hup; simpl in Hrun; try done.
  destruct (Dynamics.soft_equals (state g3) (state g) tolerance) eqn:Hsoft.
  - pose proof (quiet_snoc _ _ _ _ _ _ _ Hquiet Hup Hsoft) as Hquiet'.
    replace (Z.of_nat k0 + 1)%Z with (Z.of_nat (S k0)) in Hrun by lia.
    case_bool_decide as Hdone.
    + simplify_eq. split; [done|]. exists m0, (S k0), g1, w1.
      split_and!; [lia|lia|done..].
    + specialize (IH m0 (S k0) g1 w1 g3 w3 r g' w' Hreach Hquiet' Hrun).
      destruct r as [s|].
      * destruct IH as (Hs & m & k & g2 & w2 & Hmk & ? & ? & ?).
        split; [done|]. exists m, k, g2, w2. split_and!; [lia|lia|done..].
      * by replace (m0 + k0 + S n) with (m0 + S k0 + n) by lia.
  - assert (Dynamics.rounds update (m0 + k0 + 1) start (g3, w3)) as Hreach'.
    { eapply rounds_trans; [eapply rounds_trans; [done|by eapply quiet_rounds]|].
      econstructor; [done|constructor]. }
    case_bool_decide as Hdone.
    + simplify_eq. split; [done|]. exists (m0 + k0 + 1), 0, g', w'.
      split_and!; [lia|lia|done|done|constructor].
    + specialize (IH (m0 + k0 + 1) 0 g3 w3 g3 w3 r g' w' Hreach'
                    (Dynamics.quiet_nil _ _ _ _) Hrun).
      destruct r as [s|].
      * destruct IH as (Hs & m & k & g2 & w2 & Hmk & ? & ? & ?).
        split; [done|]. exists m, k, g2, w2. split_and!; [lia|lia|done..].
      * by replace (m0 + k0 + S n) with (m0 + k0 + 1 + 0 + n) by lia.
Qed.

(** X19. What [fixed_point] answers, it has seen: a state it returns is
    the state of the graph after at most [max_iter] rounds of [update],
    at least one, the last [k >= num_consec_threshold] of which each left
    the state within the tolerance of the one before; and [False] comes
    only after all [max_iter] rounds. *)
Theorem fixed_point_sound graph (max_iter num_consec_threshold : Z) tolerance (w : World)
    r graph' w' :
  Dynamics.fixed_point state update graph max_iter num_consec_threshold tolerance w
  = Ok (r, graph', w') →
  match r with
  | None => Dynamics.rounds update (Z.to_nat max_iter) (graph, w) (graph', w')
  | Some s =>
    s = state graph'
    ∧ ∃ m k g1 w1, 0 < m + k ≤ Z.to_nat max_iter
        ∧ (num_consec_threshold ≤ Z.of_nat k)%Z
        ∧ Dynamics.rounds update m (graph, w) (g1, w1)
        ∧ Dynamics.quiet state update tolerance k (g1, w1) (graph', w')
  end.
Proof.
  unfold Dynamics.fixed_point. intros Hrun.
  apply (fixed_point_loop_sound num_consec_threshold tolerance (graph, w)
           (Z.to_nat max_iter) 0 0 graph w graph w r graph' w'
           (Dynamics.rounds_nil _ _) (Dynamics.quiet_nil _ _ _ _)) in Hrun.
  destruct r as [s|]; [|done].
  destruct Hrun as (Hs & m & k & g1 & w1 & Hmk & ? & ? & ?).
  split; [done|]. exists m, k, g1, w1. split_and!; [lia|lia|done..].
Qed.

Lemma fixed_point_loop_quiet threshold tolerance g' w' k : ∀ n c g w,
  Dynamics.quiet state update tolerance k (g, w) (g', w') →
  1 ≤ k ≤ n → (c + Z.of_nat k = threshold)%Z →
  Dynamics.fixed_point_loop state update n threshold tolerance g (state g) c w
  = Ok (Some (state g'), g', w').
Proof.
  induction k as [|k IH]; intros n c g w Hquiet Hk Hc; [lia|].
  inversion Hquiet as [|k' g0 w0 g1 w1 gw' Hup Hsoft Hrest]; subst.
  destruct n as [|n]; [lia|]. simpl. rewrite Hup. simpl. rewrite Hsoft.
  destruct k as [|k].
  - inversion Hrest; subst. rewrite bool_decide_eq_true_2 by lia. done.
  - rewrite bool_decide_eq_false_2 by lia. apply IH; [done|lia|lia].
Qed.

(** X20. A graph at rest is found: when the first
    [num_consec_threshold >= 1] rounds, within the budget, each leave the
    state within the tolerance of the one before, [fixed_point] returns
    the state after exactly those rounds. *)
Theorem fixed_point_detects graph (max_iter num_consec_threshold : Z) tolerance (w : World)
    graph' w' :
  (1 ≤ num_consec_threshold ≤ max_iter)%Z →
  Dynamics.quiet state update tolerance (Z.to_nat num_consec_threshold) (graph, w) (graph', w') →
  Dynamics.fixed_point state update graph max_iter num_consec_threshold tolerance w
  = Ok (Some (state graph'), graph', w').
Proof.
  intros Hthr Hquiet. unfold Dynamics.fixed_point.
  apply (fixed_point_loop_quiet _ _ _ _ (Z.to_nat num_consec_threshold)); [done|lia|lia].
Qed.

(** X21. The degenerate settings: without a positive [max_iter],
    [fixed_point] answers [False] and runs no round; with a threshold
    that is not positive it returns the state after the first round,
    whether or not that round moved it. *)
Theorem fixed_point_degenerate graph (max_iter num_consec_threshold : Z) tolerance (w : World) :
  ((max_iter ≤ 0)%Z →
     Dynamics.fixed_point state update graph max_iter num_consec_threshold tolerance w
     = Ok (None, graph, w))
  ∧ (∀ graph' w',
       (1 ≤ max_iter)%Z → (num_consec_threshold ≤ 0)%Z →
       update graph w = Ok (graph', w') →
       Dynamics.fixed_point state update graph max_iter num_consec_threshold tolerance w
       = Ok (Some (state graph'), graph', w')).
Proof.
  unfold Dynamics.fixed_point. split.
  - intros Hmax. by replace (Z.to_nat max_iter) with 0 by lia.
  - intros graph' w' Hmax Hthr Hup.
    destruct (Z.to_nat max_iter) as [|n] eqn:Hn; [lia|]. simpl. rewrite Hup. simpl.
    rewrite bool_decide_eq_true_2; [done|]. destruct (Dynamics.soft_equals _ _ _); lia.
Qed.

End FixedPointRuns.

Lemma fixed_point_sound_witness :
  Dynamics.fixed_point DemoCost.state DemoCost.update [1; 0; 0]%Q 10 2 (1 # 20) ()
  = Ok (Some [1; 1; 1]%Q, [1; 1; 1]%Q, ())
  ∧ ∃ m k g1 w1, 0 < m + k ≤ Z.to_nat 10
      ∧ (2 ≤ Z.of_nat k)%Z
      ∧ Dynamics.rounds DemoCost.update m ([1; 0; 0]%Q, ()) (g1, w1)
      ∧ Dynamics.quiet DemoCost.state DemoCost.update (1 # 20) k (g1, w1) ([1; 1; 1]%Q, ()).
Proof.
  split; [reflexivity|].
  apply (fixed_point_sound DemoCost.state DemoCost.update [1; 0; 0]%Q 10 2 (1 # 20) ()
           (Some [1; 1; 1]%Q) [1; 1; 1]%Q () eq_refl).
Defined.

Lemma fixed_point_detects_witness :
  Dynamics.fixed_point DemoCost.state DemoCost.update [1; 1; 1]%Q 10 2 (1 # 20) ()
  = Ok (Some [1; 1; 1]%Q, [1; 1; 1]%Q, ()).
Proof.
  apply (fixed_point_detects DemoCost.state DemoCost.update [1; 1; 1]%Q 10 2 (1 # 20) ()
           [1; 1; 1]%Q ()); [lia|].
  change (Z.to_nat 2) with 2.
  eapply Dynamics.quiet_step; [reflexivity|reflexivity|].
  eapply Dynamics.quiet_step; [reflexivity|reflexivity|].
  apply Dynamics.quiet_nil.
Defined.

Lemma fixed_point_degenerate_witness :
  Dynamics.fixed_point DemoCost.state DemoCost.update [1; 0; 0]%Q 0 2 (1 # 20) ()
  = Ok (None, [1; 0; 0]%Q, ())
  ∧ Dynamics.fixed_point DemoCost.state DemoCost.update [1; 0; 0]%Q 10 0 (1 # 20) ()
    = Ok (Some [1; 1; 1]%Q, [1; 1; 1]%Q, ()).
Proof.
  split.
  - apply (proj1 (fixed_point_degenerate DemoCost.state DemoCost.update
                    [1; 0; 0]%Q 0 2 (1 # 20) ())). lia.
  - apply (proj2 (fixed_point_degenerate DemoCost.state DemoCost.update
                    [1; 0; 0]%Q 10 0 (1 # 20) ()) [1; 1; 1]%Q ()); [lia|lia|reflexivity].
Defined.
